(** * libmv: projection, rank-2 parameterization and mosaicing

    A shallow embedding of
      - [libmv/multiview/projection.cc]               (P_From_KRt, KRt_From_P,
        HomogeneousToEuclidean, EuclideanToHomogeneous),
      - [libmv/multiview/fundamental_parameterization.h]
        (FundamentalRank2Parameterization::To / ::From),
      - [tools/mosaicing_video.cc]                    (ComputeRelativeAffineMatrices,
        ComputeRelativeHomographyMatrices, ComputeGlobalBoundingBox),
    and the proofs of their properties.

    Conventions of the embedding.
      - A C++ [double] is a real number: arithmetic is exact, so rounding,
        overflow and the IEEE values inf/NaN are outside the model.  The places
        where the code divides by a number that can be zero are named
        ([KRt_From_P_divisors], [ComputeGlobalBoundingBox_divisors]) and the
        statements say when a divisor is zero; no statement relies on the value
        of a division by zero.
      - An [int] is an integer between [INT_MIN] and [INT_MAX]; a conversion
        from [double] that C++ leaves undefined is excluded by a hypothesis
        of every statement that depends on it.
      - [Mat3], [Mat34], [Vec2], [Vec3] are records of their coefficients;
        [m21 K] is the C++ [K(2,1)].
      - The C++ functions are [void] and write through output pointers; the
        embedding returns the values written.
      - Library code that is not part of the translated files (Eigen's SVD and
        quaternion conversions, libmv's [ceil0], the correspondence database
        and the robust estimators) enters as Section variables; what a
        statement assumes of them is a hypothesis of that statement. *)

From Stdlib Require Import Reals Lra Psatz RNsatz ZArith List Lia.
Import ListNotations.
Open Scope R_scope.

(** ** Fixed-size vectors and matrices (libmv/numeric/numeric.h typedefs) *)

Record Vec2 : Type := mkVec2 { v2x : R; v2y : R }.

Record Vec3 : Type := mkVec3 { v3x : R; v3y : R; v3z : R }.

Record Mat3 : Type := mkMat3 {
  m00 : R; m01 : R; m02 : R;
  m10 : R; m11 : R; m12 : R;
  m20 : R; m21 : R; m22 : R }.

Record Mat34 : Type := mkMat34 {
  p00 : R; p01 : R; p02 : R; p03 : R;
  p10 : R; p11 : R; p12 : R; p13 : R;
  p20 : R; p21 : R; p22 : R; p23 : R }.

(** [Mat3::setIdentity]. *)
Definition Identity3 : Mat3 :=
  mkMat3 1 0 0
         0 1 0
         0 0 1.

(** [A * B] on 3x3 matrices. *)
Definition mmul (A B : Mat3) : Mat3 :=
  mkMat3
    (m00 A * m00 B + m01 A * m10 B + m02 A * m20 B)
    (m00 A * m01 B + m01 A * m11 B + m02 A * m21 B)
    (m00 A * m02 B + m01 A * m12 B + m02 A * m22 B)
    (m10 A * m00 B + m11 A * m10 B + m12 A * m20 B)
    (m10 A * m01 B + m11 A * m11 B + m12 A * m21 B)
    (m10 A * m02 B + m11 A * m12 B + m12 A * m22 B)
    (m20 A * m00 B + m21 A * m10 B + m22 A * m20 B)
    (m20 A * m01 B + m21 A * m11 B + m22 A * m21 B)
    (m20 A * m02 B + m21 A * m12 B + m22 A * m22 B).

(** [A.transpose()]. *)
Definition mtrans (A : Mat3) : Mat3 :=
  mkMat3 (m00 A) (m10 A) (m20 A)
         (m01 A) (m11 A) (m21 A)
         (m02 A) (m12 A) (m22 A).

(** [-A]. *)
Definition mneg (A : Mat3) : Mat3 :=
  mkMat3 (- m00 A) (- m01 A) (- m02 A)
         (- m10 A) (- m11 A) (- m12 A)
         (- m20 A) (- m21 A) (- m22 A).

(** [c * A]. *)
Definition mscale (c : R) (A : Mat3) : Mat3 :=
  mkMat3 (c * m00 A) (c * m01 A) (c * m02 A)
         (c * m10 A) (c * m11 A) (c * m12 A)
         (c * m20 A) (c * m21 A) (c * m22 A).

(** [A / c]: every coefficient is divided by [c]. *)
Definition mdiv (A : Mat3) (c : R) : Mat3 :=
  mkMat3 (m00 A / c) (m01 A / c) (m02 A / c)
         (m10 A / c) (m11 A / c) (m12 A / c)
         (m20 A / c) (m21 A / c) (m22 A / c).

(** [A - B]. *)
Definition msub (A B : Mat3) : Mat3 :=
  mkMat3 (m00 A - m00 B) (m01 A - m01 B) (m02 A - m02 B)
         (m10 A - m10 B) (m11 A - m11 B) (m12 A - m12 B)
         (m20 A - m20 B) (m21 A - m21 B) (m22 A - m22 B).

(** [A * v] for a 3-vector. *)
Definition mvmul (A : Mat3) (v : Vec3) : Vec3 :=
  mkVec3 (m00 A * v3x v + m01 A * v3y v + m02 A * v3z v)
         (m10 A * v3x v + m11 A * v3y v + m12 A * v3z v)
         (m20 A * v3x v + m21 A * v3y v + m22 A * v3z v).

(** [A.determinant()]. *)
Definition det3 (A : Mat3) : R :=
  m00 A * (m11 A * m22 A - m12 A * m21 A)
  - m01 A * (m10 A * m22 A - m12 A * m20 A)
  + m02 A * (m10 A * m21 A - m11 A * m20 A).

(** The matrix of cofactors, transposed. *)
Definition adjugate (A : Mat3) : Mat3 :=
  mkMat3
    (m11 A * m22 A - m12 A * m21 A)
    (m02 A * m21 A - m01 A * m22 A)
    (m01 A * m12 A - m02 A * m11 A)
    (m12 A * m20 A - m10 A * m22 A)
    (m00 A * m22 A - m02 A * m20 A)
    (m02 A * m10 A - m00 A * m12 A)
    (m10 A * m21 A - m11 A * m20 A)
    (m01 A * m20 A - m00 A * m21 A)
    (m00 A * m11 A - m01 A * m10 A).

(** [A.inverse()] (Eigen, not among the translated sources), taken to be the
    matrix inverse and written with cofactors: the adjugate divided by the
    determinant.  It is the inverse exactly when [det3 A <> 0]
    ([mmul_inverse_r]); no statement uses its value on a singular matrix. *)
Definition inverse (A : Mat3) : Mat3 := mdiv (adjugate A) (det3 A).

(** [diag(a, b, c)]. *)
Definition diag3 (a b c : R) : Mat3 :=
  mkMat3 a 0 0
         0 b 0
         0 0 c.

(** Blocks of a 3x4 matrix: [P.block<3,3>(0,0)] and [P.col(3)]. *)
Definition block33 (P : Mat34) : Mat3 :=
  mkMat3 (p00 P) (p01 P) (p02 P)
         (p10 P) (p11 P) (p12 P)
         (p20 P) (p21 P) (p22 P).

Definition col3 (P : Mat34) : Vec3 := mkVec3 (p03 P) (p13 P) (p23 P).

(** The 3x4 matrix with 3x3 block [R] and last column [t]. *)
Definition hstack (R : Mat3) (t : Vec3) : Mat34 :=
  mkMat34 (m00 R) (m01 R) (m02 R) (v3x t)
          (m10 R) (m11 R) (m12 R) (v3y t)
          (m20 R) (m21 R) (m22 R) (v3z t).

(** [K * P] for a 3x3 [K] and a 3x4 [P]. *)
Definition mmul34 (K : Mat3) (P : Mat34) : Mat34 :=
  hstack (mmul K (block33 P)) (mvmul K (col3 P)).

(** [c * P] on 3x4 matrices. *)
Definition scale34 (c : R) (P : Mat34) : Mat34 :=
  mkMat34 (c * p00 P) (c * p01 P) (c * p02 P) (c * p03 P)
          (c * p10 P) (c * p11 P) (c * p12 P) (c * p13 P)
          (c * p20 P) (c * p21 P) (c * p22 P) (c * p23 P).

(** Orthogonal matrices and rotations. *)
Definition orthogonal (A : Mat3) : Prop :=
  mmul A (mtrans A) = Identity3 /\ mmul (mtrans A) A = Identity3.

Definition is_rotation (A : Mat3) : Prop := orthogonal A /\ det3 A = 1.

Definition upper_triangular (A : Mat3) : Prop :=
  m10 A = 0 /\ m20 A = 0 /\ m21 A = 0.

(** ** projection.cc *)

(** [P_From_KRt]:
<<
  P->block<3, 3>(0, 0) = R;
  P->col(3) = t;
  P = K * P;        // through the output pointer
>> *)
Definition P_From_KRt (K R : Mat3) (t : Vec3) : Mat34 :=
  let P := hstack R t in
  mmul34 K P.

(** The three Givens steps of [KRt_From_P], each acting on the pair [(K, Q)].
    [Qx] and [Qy] are declared with their size, [Mat Qx(3,3)], [Mat Qy(3,3)];
    the third rotation is declared [Mat Qz;], a dynamic matrix of size 0 x 0,
    and the comma initializer that follows has no coefficient to write to:
    it fails Eigen's assertion (and writes out of bounds in a build without
    assertions).  So the third step yields nothing whenever it is entered. *)

(** "Set K(2,1) to zero." *)
Definition givens_x (KQ : Mat3 * Mat3) : Mat3 * Mat3 :=
  let (K, Q) := KQ in
  if Req_dec_T (m21 K) 0 then (K, Q)
  else
    let c := - m22 K in
    let s := m21 K in
    let l := sqrt (c * c + s * s) in
    let c := c / l in
    let s := s / l in
    let Qx := mkMat3 1 0 0
                     0 c (- s)
                     0 s c in
    (mmul K Qx, mmul (mtrans Qx) Q).

(** "Set K(2,0) to zero." *)
Definition givens_y (KQ : Mat3 * Mat3) : Mat3 * Mat3 :=
  let (K, Q) := KQ in
  if Req_dec_T (m20 K) 0 then (K, Q)
  else
    let c := m22 K in
    let s := m20 K in
    let l := sqrt (c * c + s * s) in
    let c := c / l in
    let s := s / l in
    let Qy := mkMat3 c 0 s
                     0 1 0
                     (- s) 0 c in
    (mmul K Qy, mmul (mtrans Qy) Q).

(** "Set K(1,0) to zero."
<<
  if (K(1,0) != 0) {
    double c = -K(1,1);
    double s = K(1,0);
    double l = sqrt(c * c + s * s);
    c /= l; s /= l;
    Mat Qz;
    Qz << c,-s, 0,
          s, c, 0,
          0, 0, 1;
    K = K * Qz;
    Q = Qz.transpose() * Q;
  }
>>
    [Qz] is 0 x 0 when [Qz << ...] is reached, so the run stops there:
    [None], the step does not complete. *)
Definition givens_z (KQ : Mat3 * Mat3) : option (Mat3 * Mat3) :=
  let (K, Q) := KQ in
  if Req_dec_T (m10 K) 0 then Some (K, Q)
  else None.

(** "Ensure that the diagonal is positive": the three sign fixes, on [(K, R)]. *)
Definition fix_sign22 (KR : Mat3 * Mat3) : Mat3 * Mat3 :=
  let (K, R) := KR in
  if Rlt_dec (m22 K) 0 then (mneg K, mneg R) else (K, R).

Definition fix_sign11 (KR : Mat3 * Mat3) : Mat3 * Mat3 :=
  let (K, R) := KR in
  if Rlt_dec (m11 K) 0 then
    let S := mkMat3 1 0 0
                    0 (-1) 0
                    0 0 1 in
    (mmul K S, mmul S R)
  else (K, R).

Definition fix_sign00 (KR : Mat3 * Mat3) : Mat3 * Mat3 :=
  let (K, R) := KR in
  if Rlt_dec (m00 K) 0 then
    let S := mkMat3 (-1) 0 0
                    0 1 0
                    0 0 1 in
    (mmul K S, mmul S R)
  else (K, R).

(** The entry [K(1,0)] that the third step tests: it decides whether the
    run reaches the unsized [Qz]. *)
Definition KRt_From_P_K10 (P : Mat34) : R :=
  m10 (fst (givens_y (givens_x (block33 P, Identity3)))).

(** The pair [(K, R)] that [KRt_From_P] holds when it reaches
    "Compute translation": the RQ factors after the sign fixes.  [None] when
    the run has stopped in the third Givens step. *)
Definition KR_From_P (P : Mat34) : option (Mat3 * Mat3) :=
  let K := block33 P in
  let Q := Identity3 in
  match givens_z (givens_y (givens_x (K, Q))) with
  | Some KQ => Some (fix_sign00 (fix_sign11 (fix_sign22 KQ)))
  | None => None
  end.

(** [KRt_From_P]: the values written to [*Kp], [*Rp], [*tp], when the run
    gets that far.
<<
  Vec3 t = K.inverse() * p;
  K = K / K(2,2);
>> *)
Definition KRt_From_P (P : Mat34) : option (Mat3 * Mat3 * Vec3) :=
  match KR_From_P P with
  | Some (K, R) =>
      let p := mkVec3 (p03 P) (p13 P) (p23 P) in
      let t := mvmul (inverse K) p in
      let K := mdiv K (m22 K) in
      Some (K, R, t)
  | None => None
  end.

(** [HomogeneousToEuclidean(const Vec3 &H, Vec2 *X)]. *)
Definition HomogeneousToEuclidean (H : Vec3) : Vec2 :=
  let w := v3z H in
  mkVec2 (v3x H / w) (v3y H / w).

(** [EuclideanToHomogeneous(const Vec2 &X, Vec3 *H)]. *)
Definition EuclideanToHomogeneous (X : Vec2) : Vec3 :=
  mkVec3 (v2x X) (v2y X) 1.

(** ** Specification predicates for the RQ decomposition *)

(** What the Givens steps maintain on [(K, Q)]: the product is the matrix being
    decomposed and [Q] is a rotation. *)
Definition rq_inv (M : Mat3) (KQ : Mat3 * Mat3) : Prop :=
  mmul (fst KQ) (snd KQ) = M /\ is_rotation (snd KQ).

(** What the sign fixes maintain on [(K, R)]. *)
Definition kr_inv (M : Mat3) (KR : Mat3 * Mat3) : Prop :=
  mmul (fst KR) (snd KR) = M /\ orthogonal (snd KR) /\ upper_triangular (fst KR).

(** [P] and [P'] are the same projection up to a uniform non-zero scale. *)
Definition same_up_to_scale (P' P : Mat34) : Prop :=
  exists c : R, c <> 0 /\ P' = scale34 c P.

(** [c * v] on 3-vectors. *)
Definition vscale (c : R) (v : Vec3) : Vec3 :=
  mkVec3 (c * v3x v) (c * v3y v) (c * v3z v).

(** The two numbers the last lines of [KRt_From_P] depend on being non-zero
    (the divisors of the Givens steps are norms [l > 0]): the determinant of
    the matrix that [K.inverse()] inverts, and [K(2,2)], the divisor of
    [K / K(2,2)]. *)
Definition KRt_From_P_divisors (P : Mat34) : option (R * R) :=
  match KR_From_P P with
  | Some (K, R) => Some (det3 K, m22 K)
  | None => None
  end.

(** ** Error reporting

    The error kinds of the specification.  None of them occurs in the
    translated sources: every function there is [void], returns no status and
    throws nothing, so a call that completes returns to its caller with the
    values it wrote.  [Outcome] is what a caller can observe of a call:
    [Aborts] is a call that does not return because an assertion of a library
    it uses has failed. *)
Inductive Error : Type :=
| InsufficientCorrespondences
| NoConsensusFound
| SingularCalibration
| FailedDecomposition
| DegenerateInput
| DegenerateProjection.

Inductive Outcome (A : Type) : Type :=
| Returns (a : A)
| Fails (e : Error)
| Aborts.

Arguments Returns {A} a.
Arguments Fails {A} e.
Arguments Aborts {A}.

(** A call of [KRt_From_P] as its caller observes it. *)
Definition Decompose (P : Mat34) : Outcome (Mat3 * Mat3 * Vec3) :=
  match KRt_From_P P with
  | Some KRt => Returns KRt
  | None => Aborts
  end.

(** A call of [P_From_KRt] on the three factors. *)
Definition Compose (KRt : Mat3 * Mat3 * Vec3) : Mat34 :=
  let '(K, R, t) := KRt in P_From_KRt K R t.

(** Inputs used in the examples below. *)

(** The camera [diag(1,1,-1) | (1,2,3)]: its leading block has determinant -1. *)
Definition P_mirror : Mat34 :=
  mkMat34 1 0 0 1
          0 1 0 2
          0 0 (-1) 3.

(** A quarter turn about the optical axis, [Rz(90) | 0]. *)
Definition P_quarter_turn : Mat34 :=
  mkMat34 0 (-1) 0 0
          1 0 0 0
          0 0 1 0.

(** The canonical camera [I | 0]. *)
Definition P_canonical : Mat34 :=
  mkMat34 1 0 0 0
          0 1 0 0
          0 0 1 0.

(** A camera whose leading block [diag(1,1,0)] is singular. *)
Definition P_singular : Mat34 :=
  mkMat34 1 0 0 0
          0 1 0 0
          0 0 0 1.

(** ** mosaicing_video.cc *)

(** [Vec2u]: two [unsigned int]; [Vec4i]: four [int]. *)
Record Vec2u : Type := mkVec2u { u0 : Z; u1 : Z }.

Record Vec4i : Type := mkVec4i { b0 : Z; b1 : Z; b2 : Z; b3 : Z }.

(** The conversions the C++ code performs implicitly.  [unsigned int] to
    [int] keeps the value when it fits and wraps otherwise. *)
Definition int_of_unsigned (u : Z) : Z :=
  if (u <? 2 ^ 31)%Z then u else (u - 2 ^ 32)%Z.

(** The range of a 32-bit [int], the coefficient type of [Vec4i]. *)
Definition INT_MIN : Z := (- 2 ^ 31)%Z.

Definition INT_MAX : Z := (2 ^ 31 - 1)%Z.

(** [double] to [int] truncates toward zero.  C++ defines the conversion
    only when the truncated value fits an [int]; where it does not, the
    model takes [INT_MIN], which is what the conversion instruction of
    x86-64 produces, so that a box always holds four [int].  The statements
    about the box say when the conversions are in range ([fits_int]); none
    relies on the value of a conversion out of range. *)
Definition truncate (x : R) : Z :=
  if Rle_dec 0 x then Int_part x else (- Int_part (- x))%Z.

Definition int_of_double (x : R) : Z :=
  let z := truncate x in
  if ((INT_MIN <=? z)%Z && (z <=? INT_MAX)%Z)%bool then z else INT_MIN.

(** A [double] whose conversion to [int] is defined (stated for the numbers
    the box is updated with, which are integers after [ceil0]). *)
Definition fits_int (x : R) : Prop := IZR INT_MIN <= x <= IZR INT_MAX.

(** Column [i] of a 3x4 matrix, [q_bounds.col(i)]. *)
Definition col34 (P : Mat34) (i : nat) : Vec3 :=
  match i with
  | 0%nat => mkVec3 (p00 P) (p10 P) (p20 P)
  | 1%nat => mkVec3 (p01 P) (p11 P) (p21 P)
  | 2%nat => mkVec3 (p02 P) (p12 P) (p22 P)
  | _ => mkVec3 (p03 P) (p13 P) (p23 P)
  end.

(** The corners of a [W x H] image as homogeneous columns:
<<
  q_bounds << 0, 0,              images_size(0), images_size(0),
              0, images_size(1), images_size(1), 0,
              1, 1,              1,              1;
>> *)
Definition q_bounds (images_size : Vec2u) : Mat34 :=
  mkMat34 0 0 (IZR (u0 images_size)) (IZR (u0 images_size))
          0 (IZR (u1 images_size)) (IZR (u1 images_size)) 0
          1 1 1 1.

(** One coordinate of the box update, on the pair (min, max):
<<
  if (q < min) min = q;
  else if (q > max) max = q;
>> *)
Definition extend_range (q : R) (lo hi : Z) : Z * Z :=
  if Rlt_dec q (IZR lo) then (int_of_double q, hi)
  else if Rgt_dec q (IZR hi) then (lo, int_of_double q)
  else (lo, hi).

(** The state of the loops of [ComputeGlobalBoundingBox]: the running product
    [H], the box, and (instrumentation) the numbers that [q /= q(2)] has
    divided by so far, oldest first. *)
Record bbox_state : Type := mkState {
  st_H : Mat3;
  st_bbox : Vec4i;
  st_divisors : list R }.

Section GlobalBoundingBox.

(** [ceil0<double>] of libmv/numeric/numeric.h, which is not among the
    translated sources. *)
Variable ceil0 : R -> R.

(** The body of the inner loop, for corner [i] and the current [H]. *)
Definition corner_step (images_size : Vec2u) (H : Mat3)
    (acc : Vec4i * list R) (i : nat) : Vec4i * list R :=
  let (bbox, divs) := acc in
  let q := mvmul H (col34 (q_bounds images_size) i) in
  let w := v3z q in
  let q := mkVec3 (v3x q / w) (v3y q / w) (v3z q / w) in
  let q := mkVec3 (ceil0 (v3x q)) (v3y q) (v3z q) in
  let q := mkVec3 (v3x q) (ceil0 (v3y q)) (v3z q) in
  let (xmin, xmax) := extend_range (v3x q) (b0 bbox) (b1 bbox) in
  let (ymin, ymax) := extend_range (v3y q) (b2 bbox) (b3 bbox) in
  (mkVec4i xmin xmax ymin ymax, divs ++ [w]).

(** The body of the outer loop, for the relative transform [Hi]. *)
Definition transform_step (images_size : Vec2u) (st : bbox_state) (Hi : Mat3)
    : bbox_state :=
  let H := mmul Hi (st_H st) in
  let (bbox, divs) :=
    fold_left (corner_step images_size H) (seq 0 4) (st_bbox st, st_divisors st) in
  mkState H bbox divs.

(** [ComputeGlobalBoundingBox] with its instrumentation. *)
Definition ComputeGlobalBoundingBox_run (images_size : Vec2u) (Hs : list Mat3)
    : bbox_state :=
  let H := Identity3 in
  let bbox := mkVec4i (int_of_unsigned (u0 images_size)) 0
                      (int_of_unsigned (u1 images_size)) 0 in
  fold_left (transform_step images_size) Hs (mkState H bbox []).

(** [ComputeGlobalBoundingBox]: the box written to [*bbox],
    as (xmin, xmax, ymin, ymax). *)
Definition ComputeGlobalBoundingBox (images_size : Vec2u) (Hs : list Mat3)
    : Vec4i :=
  st_bbox (ComputeGlobalBoundingBox_run images_size Hs).

(** The divisors of all the [q /= q(2)] the call executes, in order. *)
Definition ComputeGlobalBoundingBox_divisors (images_size : Vec2u)
    (Hs : list Mat3) : list R :=
  st_divisors (ComputeGlobalBoundingBox_run images_size Hs).

(** A call as its caller observes it. *)
Definition ComputeGlobalBoundingBox_call (images_size : Vec2u)
    (Hs : list Mat3) : Outcome Vec4i :=
  Returns (ComputeGlobalBoundingBox images_size Hs).

End GlobalBoundingBox.

(** The absolute transforms the outer loop goes through:
    [Hs[0]], [Hs[1] * Hs[0]], ... *)
Fixpoint absolute_transforms_from (H : Mat3) (Hs : list Mat3) : list Mat3 :=
  match Hs with
  | [] => []
  | Hi :: rest => mmul Hi H :: absolute_transforms_from (mmul Hi H) rest
  end.

Definition absolute_transforms (Hs : list Mat3) : list Mat3 :=
  absolute_transforms_from Identity3 Hs.

(** The homogeneous coordinates of the four corners mapped by [H]. *)
Definition corner_weights (images_size : Vec2u) (H : Mat3) : list R :=
  map (fun i => v3z (mvmul H (col34 (q_bounds images_size) i))) (seq 0 4).

(** A matrix with bottom row [0 0 1]. *)
Definition affine (A : Mat3) : Prop := m20 A = 0 /\ m21 A = 0 /\ m22 A = 1.

(** Modelled from the spec: [ceil0] (libmv/numeric/numeric.h) is missing from
    the sources; the specification describes the rounding of the mapped
    corners as the ceiling of each coordinate. *)
Definition ceil0_ceiling (x : R) : R := IZR (- Int_part (- x)).

(** Inputs used in the examples below. *)

(** A non-singular homography that maps the corners of an 8 x 8 image, in
    the order the loop visits them, to (4,0), (3,1), (2,1), (1,0). *)
Definition H_fold : Mat3 :=
  mkMat3 (-3) 5 32
         0 3 0
         0 2 8.

(** A matrix whose bottom row is zero: every mapped corner has homogeneous
    coordinate 0. *)
Definition H_degenerate : Mat3 :=
  mkMat3 1 0 0
         0 1 0
         0 0 0.

(** [extend_range] on a coordinate that is an integer. *)
Definition extend_range_Z (q lo hi : Z) : Z * Z :=
  if (q <? lo)%Z then (q, hi)
  else if (hi <? q)%Z then (lo, q)
  else (lo, hi).

(** The box update of one corner whose rounded coordinates are the integers
    [a] and [b]. *)
Definition extend_bbox_Z (a b : Z) (bbox : Vec4i) : Vec4i :=
  let (xmin, xmax) := extend_range_Z a (b0 bbox) (b1 bbox) in
  let (ymin, ymax) := extend_range_Z b (b2 bbox) (b3 bbox) in
  mkVec4i xmin xmax ymin ymax.

(** The two assertions [BuildMosaic] makes on the box it gets from
    [ComputeGlobalBoundingBox]:
<<
  assert(bbox(1) < bbox(0));
  assert(bbox(3) < bbox(2));
>> *)
Definition BuildMosaic_asserts (bbox : Vec4i) : bool :=
  ((b1 bbox <? b0 bbox)%Z && (b3 bbox <? b2 bbox)%Z)%bool.

(** *** Relative transforms of consecutive images *)

(** A dynamic [Mat] holding 2D points as its columns; [cols] is [Mat::cols()]. *)
Definition Mat : Type := list Vec2.

Definition cols (x : Mat) : nat := length x.

(** The pairs [( *prev_image_iter, *image_iter )] the loops visit. *)
Fixpoint pairs_from {ImageID : Type} (prev : ImageID) (rest : list ImageID)
    : list (ImageID * ImageID) :=
  match rest with
  | [] => []
  | cur :: rest' => (prev, cur) :: pairs_from cur rest'
  end.

Definition adjacent_pairs {ImageID : Type} (images : list ImageID)
    : list (ImageID * ImageID) :=
  match images with
  | [] => []
  | first :: rest => pairs_from first rest
  end.

Section RelativeMatrices.

(** The correspondence database ([libmv/correspondence/matches.h]) and the
    robust estimators ([libmv/multiview/robust_affine_2d.h],
    [robust_homography.h]) are not among the translated sources. *)
Variable ImageID : Type.
Variable Matches : Type.

(** [matches.get_images()], in the iteration order of the [std::set]. *)
Variable get_images : Matches -> list ImageID.

(** [TwoViewPointMatchMatrices(matches, id1, id2, &xs2)]: the pair
    [(xs2[0], xs2[1])] it leaves in [xs2]. *)
Variable TwoViewPointMatchMatrices : Matches -> ImageID -> ImageID -> Mat * Mat.

(** [AffineFromCorrespondences2PointRobust(x1, x2, max_error, &A, NULL,
    outliers_probability)] and its homography counterpart: the content of the
    output matrix after the call, given its content before.  The [double] they
    return is discarded by the callers. *)
Variable AffineFromCorrespondences2PointRobust :
  Mat -> Mat -> R -> Mat3 -> R -> Mat3.
Variable HomographyFromCorrespondences4PointRobust :
  Mat -> Mat -> R -> Mat3 -> R -> Mat3.

(** The content of the local [Mat3 A;] ([Mat3 H;]) before its first write. *)
Variable indeterminate : Mat3.

(** The loop shared, text for text, by [ComputeRelativeAffineMatrices] and
    [ComputeRelativeHomographyMatrices]; they differ in the bound of the test
    ([>= 2], [>= 4]) and in the estimator called.
<<
  for (;image_iter != matches.get_images().end(); ++image_iter) {
    TwoViewPointMatchMatrices(matches, *prev_image_iter, *image_iter, &xs2);
      if (xs2[0].cols() >= 2) {
        AffineFromCorrespondences2PointRobust(xs2[0], xs2[1], max_error_2d,
                                              &A, NULL, outliers_prob);
        As->push_back(A);
      } // TODO(julien) what to do when no enough points?
    ++prev_image_iter;
  }
>> *)
Fixpoint relative_matrices_loop (min_cols : nat)
    (estimate : Mat -> Mat -> R -> Mat3 -> R -> Mat3)
    (matches : Matches) (outliers_prob max_error_2d : R)
    (prev : ImageID) (rest : list ImageID) (A : Mat3) (As : list Mat3)
    : list Mat3 :=
  match rest with
  | [] => As
  | cur :: rest' =>
      let xs2 := TwoViewPointMatchMatrices matches prev cur in
      if (min_cols <=? cols (fst xs2))%nat then
        let A := estimate (fst xs2) (snd xs2) max_error_2d A outliers_prob in
        relative_matrices_loop min_cols estimate matches outliers_prob
          max_error_2d cur rest' A (As ++ [A])
      else
        relative_matrices_loop min_cols estimate matches outliers_prob
          max_error_2d cur rest' A As
  end.

(** [ComputeRelativeAffineMatrices]: the content of [*As] after the call,
    given its content before.  (On an empty image set the source increments
    the end iterator; the model leaves the chain as it is.) *)
Definition ComputeRelativeAffineMatrices (matches : Matches)
    (As : list Mat3) (outliers_prob max_error_2d : R) : list Mat3 :=
  match get_images matches with
  | [] => As
  | first :: rest =>
      relative_matrices_loop 2 AffineFromCorrespondences2PointRobust matches
        outliers_prob max_error_2d first rest indeterminate As
  end.

(** [ComputeRelativeHomographyMatrices]. *)
Definition ComputeRelativeHomographyMatrices (matches : Matches)
    (Hs : list Mat3) (outliers_prob max_error_2d : R) : list Mat3 :=
  match get_images matches with
  | [] => Hs
  | first :: rest =>
      relative_matrices_loop 4 HomographyFromCorrespondences4PointRobust matches
        outliers_prob max_error_2d first rest indeterminate Hs
  end.

(** The calls as their caller observes them. *)
Definition ComputeRelativeAffineMatrices_call (matches : Matches)
    (As : list Mat3) (outliers_prob max_error_2d : R) : Outcome (list Mat3) :=
  Returns (ComputeRelativeAffineMatrices matches As outliers_prob max_error_2d).

Definition ComputeRelativeHomographyMatrices_call (matches : Matches)
    (Hs : list Mat3) (outliers_prob max_error_2d : R) : Outcome (list Mat3) :=
  Returns (ComputeRelativeHomographyMatrices matches Hs outliers_prob max_error_2d).

(** The point matrices of all adjacent image pairs, in order. *)
Definition pair_matrices (matches : Matches) : list (Mat * Mat) :=
  map (fun ab => TwoViewPointMatchMatrices matches (fst ab) (snd ab))
      (adjacent_pairs (get_images matches)).

(** The pairs that have at least [min_cols] correspondences. *)
Definition enough (min_cols : nat) (xs2 : Mat * Mat) : bool :=
  (min_cols <=? cols (fst xs2))%nat.

(** The estimator run on each pair of a list in turn, the output matrix of one
    call being the matrix the next call starts from. *)
Fixpoint estimate_chain (estimate : Mat -> Mat -> R -> Mat3 -> R -> Mat3)
    (outliers_prob max_error_2d : R) (A : Mat3) (pairs : list (Mat * Mat))
    : list Mat3 :=
  match pairs with
  | [] => []
  | xs2 :: pairs' =>
      let A := estimate (fst xs2) (snd xs2) max_error_2d A outliers_prob in
      A :: estimate_chain estimate outliers_prob max_error_2d A pairs'
  end.

End RelativeMatrices.

(** A database of two images related by a single correspondence, with
    estimators that leave the output matrix as it is. *)
Definition one_match : Mat * Mat := ([mkVec2 0 0], [mkVec2 1 1]).

Definition two_images (_ : unit) : list nat := [0%nat; 1%nat].

Definition one_match_between (_ : unit) (_ _ : nat) : Mat * Mat := one_match.

Definition keep_matrix (_ _ : Mat) (_ : R) (A : Mat3) (_ : R) : Mat3 := A.

(** ** fundamental_parameterization.h *)

(** [Eigen::Quaternion<T>]: its four coefficients in the order of [coeffs()],
    (x, y, z, w). *)
Record Quaternion : Type := mkQuaternion { qx : R; qy : R; qz : R; qw : R }.

(** [Parameters]: a 9-vector; [u] is [p[0..3]], [s] is [p[4]], [vt] is [p[5..8]]. *)
Record Parameters : Type := mkParameters {
  pr0 : R; pr1 : R; pr2 : R; pr3 : R;
  pr4 : R;
  pr5 : R; pr6 : R; pr7 : R; pr8 : R }.

(** [p.start<4>()] and [p.end<4>()] assigned to a quaternion: the four numbers
    become its coefficients. *)
Definition start4 (p : Parameters) : Quaternion :=
  mkQuaternion (pr0 p) (pr1 p) (pr2 p) (pr3 p).

Definition end4 (p : Parameters) : Quaternion :=
  mkQuaternion (pr5 p) (pr6 p) (pr7 p) (pr8 p).

(** [p << u.coeffs(), s, vt.coeffs()], through the output pointer. *)
Definition pack (u : Quaternion) (s : R) (vt : Quaternion) : Parameters :=
  mkParameters (qx u) (qy u) (qz u) (qw u) s (qx vt) (qy vt) (qz vt) (qw vt).

Section FundamentalRank2Parameterization.

(** Eigen's geometry and SVD modules are not among the translated sources. *)

(** [Quaternion::toRotationMatrix()]. *)
Variable toRotationMatrix : Quaternion -> Mat3.

(** [Quaternion::operator=(const Matrix3&)]: the quaternion of a matrix. *)
Variable quaternion_of_matrix : Mat3 -> Quaternion.

(** [Quaternion::normalize()], as the value the quaternion holds afterwards. *)
Variable normalize : Quaternion -> Quaternion.

(** [Eigen::SVD<Parameterized> svd(f)]: [matrixU()], [singularValues()],
    [matrixV()]. *)
Variable svd : Mat3 -> Mat3 * Vec3 * Mat3.

(** [To]: "Convert to a F matrix from the 9 parameters."
<<
  u  = p.template start<4>();
  vt = p.template end  <4>();
  T s = T(1.0) / (T(1.0) + p[4]*p[4]);
  S << T(1), T(0), T(0),
       T(0), s,    T(0),
       T(0), T(0), T(0);
  *f = u.toRotationMatrix() * S * vt.toRotationMatrix();
>> *)
Definition To (p : Parameters) : Mat3 :=
  let u := start4 p in
  let vt := end4 p in
  let s := 1 / (1 + pr4 p * pr4 p) in
  let S := mkMat3 1 0 0
                  0 s 0
                  0 0 0 in
  mmul (mmul (toRotationMatrix u) S) (toRotationMatrix vt).

(** [From]:
<<
  u  =   svd.matrixU().determinant() > 0
     ?   svd.matrixU()
     : (-svd.matrixU()).eval();
  vt =   svd.matrixV().determinant() > 0
     ?   svd.matrixV().transpose().eval()
     :  (-svd.matrixV().transpose()).eval();
  u.normalize();
  vt.normalize();
  p << u.coeffs(),                    // through the output pointer
          sqrt(svd.singularValues()[0] / svd.singularValues()[1] - T(1.0)),
          vt.coeffs();
>> *)
Definition From (f : Mat3) : Parameters :=
  let '(U, sv, V) := svd f in
  let u := quaternion_of_matrix
             (if Rgt_dec (det3 U) 0 then U else mneg U) in
  let vt := quaternion_of_matrix
              (if Rgt_dec (det3 V) 0 then mtrans V else mneg (mtrans V)) in
  let u := normalize u in
  let vt := normalize vt in
  pack u (sqrt (v3x sv / v3y sv - 1)) vt.

End FundamentalRank2Parameterization.

(** *** Singular values and rank-2 approximation *)

(** [U], [(a, b, c)], [V] is a singular value decomposition of [F]:
    [F = U diag(a, b, c) V^T] with [U], [V] orthogonal and [a >= b >= c >= 0]. *)
Definition is_svd (F U : Mat3) (sv : Vec3) (V : Mat3) : Prop :=
  F = mmul (mmul U (diag3 (v3x sv) (v3y sv) (v3z sv))) (mtrans V) /\
  orthogonal U /\ orthogonal V /\
  v3x sv >= v3y sv /\ v3y sv >= v3z sv /\ v3z sv >= 0.

(** [F] has the singular values [a >= b >= c]. *)
Definition singular_values (F : Mat3) (a b c : R) : Prop :=
  exists U V : Mat3, is_svd F U (mkVec3 a b c) V.

(** The squared Frobenius norm. *)
Definition frobenius2 (A : Mat3) : R :=
  m00 A * m00 A + m01 A * m01 A + m02 A * m02 A +
  m10 A * m10 A + m11 A * m11 A + m12 A * m12 A +
  m20 A * m20 A + m21 A * m21 A + m22 A * m22 A.

(** [T] is a closest matrix of rank at most 2 to [M] in the Frobenius norm
    (a 3x3 matrix has rank at most 2 exactly when its determinant is 0). *)
Definition closest_rank2 (M T : Mat3) : Prop :=
  det3 T = 0 /\
  forall B : Mat3, det3 B = 0 -> frobenius2 (msub M T) <= frobenius2 (msub M B).

(** Two matrices equal up to an overall non-zero scale. *)
Definition same_up_to_scale3 (A B : Mat3) : Prop :=
  exists c : R, c <> 0 /\ A = mscale c B.

(** Vector operations used in the proofs. *)
Definition dot (a b : Vec3) : R := v3x a * v3x b + v3y a * v3y b + v3z a * v3z b.

Definition cross (a b : Vec3) : Vec3 :=
  mkVec3 (v3y a * v3z b - v3z a * v3y b)
         (v3z a * v3x b - v3x a * v3z b)
         (v3x a * v3y b - v3y a * v3x b).

Definition row0 (A : Mat3) : Vec3 := mkVec3 (m00 A) (m01 A) (m02 A).
Definition row1 (A : Mat3) : Vec3 := mkVec3 (m10 A) (m11 A) (m12 A).
Definition row2 (A : Mat3) : Vec3 := mkVec3 (m20 A) (m21 A) (m22 A).

Definition zero3 : Vec3 := mkVec3 0 0 0.

(** Eigen's [Quaternion::toRotationMatrix()] (Eigen/src/Geometry/Quaternion.h,
    not among the translated sources): the matrix it builds from the
    coefficients (x, y, z, w).  It is the rotation of the quaternion when the
    quaternion has norm 1; the function does not normalise. *)
Definition rotation_of_unit_quaternion (q : Quaternion) : Mat3 :=
  let x := qx q in let y := qy q in let z := qz q in let w := qw q in
  mkMat3 (1 - 2 * (y * y + z * z)) (2 * (x * y - z * w)) (2 * (x * z + y * w))
         (2 * (x * y + z * w)) (1 - 2 * (x * x + z * z)) (2 * (y * z - x * w))
         (2 * (x * z - y * w)) (2 * (y * z + x * w)) (1 - 2 * (x * x + y * y)).

Definition quaternion_norm (q : Quaternion) : R :=
  sqrt (qx q * qx q + qy q * qy q + qz q * qz q + qw q * qw q).

(** A quaternion divided by its norm. *)
Definition normalized (q : Quaternion) : Quaternion :=
  let n := quaternion_norm q in
  mkQuaternion (qx q / n) (qy q / n) (qz q / n) (qw q / n).

(** A parameter vector whose two quaternions, (0, 0, 0, 2) and (3, 0, 0, 0),
    do not have norm 1. *)
Definition p_unnormalized : Parameters := mkParameters 0 0 0 2 1 3 0 0 0.

Definition trace3 (A : Mat3) : R := m00 A + m11 A + m22 A.

(** The truncation of a decomposition [U diag(a, b, c) V^T] to its two
    largest singular values. *)
Definition rank2_truncation (U : Mat3) (sv : Vec3) (V : Mat3) : Mat3 :=
  mmul (mmul U (diag3 (v3x sv) (v3y sv) 0)) (mtrans V).

(** Concrete stand-ins for the Eigen functions, used to instantiate the
    statements about [To] and [From] on an example. *)

(** The quaternion of a rotation matrix whose trace exceeds -1. *)
Definition quaternion_of_rotation (M : Mat3) : Quaternion :=
  let w := sqrt (1 + trace3 M) / 2 in
  mkQuaternion ((m21 M - m12 M) / (4 * w))
               ((m02 M - m20 M) / (4 * w))
               ((m10 M - m01 M) / (4 * w))
               w.

(** A singular value decomposition of a diagonal matrix whose diagonal is
    already sorted and not negative. *)
Definition svd_of_diagonal (f : Mat3) : Mat3 * Vec3 * Mat3 :=
  (Identity3, mkVec3 (m00 f) (m11 f) (m22 f), Identity3).

(** ** projection.cc, the remaining functions *)

Record Vec4 : Type := mkVec4 { v4x : R; v4y : R; v4z : R; v4w : R }.

(** [HomogeneousToEuclidean(const Vec4 &H, Vec3 *X)]. *)
Definition HomogeneousToEuclidean4 (H : Vec4) : Vec3 :=
  let w := v4w H in
  mkVec3 (v4x H / w) (v4y H / w) (v4z H / w).

(** [EuclideanToHomogeneous(const Vec3 &X, Vec4 *H)]. *)
Definition EuclideanToHomogeneous3 (X : Vec3) : Vec4 :=
  mkVec4 (v3x X) (v3y X) (v3z X) 1.

(** [c * H] on homogeneous 3- and 4-vectors ([vscale] is the 3-vector one). *)
Definition vscale4 (c : R) (H : Vec4) : Vec4 :=
  mkVec4 (c * v4x H) (c * v4y H) (c * v4z H) (c * v4w H).

(** A dynamic matrix ([Mat], Eigen's MatrixXd): its number of rows and its
    columns, each the list of its coefficients from row 0 on.  [MatX_wf] says
    that every column has [rows] coefficients. *)
Record MatX : Type := mkMatX { xrows : nat; xcolumns : list (list R) }.

Definition MatX_wf (A : MatX) : Prop :=
  Forall (fun c => length c = xrows A) (xcolumns A).

(** [A.cols()] and, on a column, the coefficient of row [j]. *)
Definition xcols (A : MatX) : nat := length (xcolumns A).

Definition coeff (c : list R) (j : nat) : R := nth j c 0.

(** [HomogeneousToEuclidean(const Mat &H, Mat *X)]:
<<
  int d = H.rows() - 1;
  int n = H.cols();
  X->resize(d, n);
  for (int i = 0; i < n; ++i) {
    double h = H(d, i);
    for (int j = 0; j < d; ++j) {
      X(j, i) = H(j, i) / h;
    }
  }
>>
    (a matrix without rows has no last row; the model then takes [d = 0]). *)
Definition HomogeneousToEuclidean_Mat (H : MatX) : MatX :=
  let d := (xrows H - 1)%nat in
  mkMatX d
    (map (fun col =>
            let h := coeff col d in
            map (fun j => coeff col j / h) (seq 0 d))
         (xcolumns H)).

(** [EuclideanToHomogeneous(const Mat &X, Mat *H)]:
<<
  int d = X.rows();
  int n = X.cols();
  H->resize(d + 1, n);
  for (int i = 0; i < n; ++i) {
    for (int j = 0; j < d; ++j) {
      H(j, i) = X(j, i);
    }
    H(d, i) = 1;
  }
>> *)
Definition EuclideanToHomogeneous_Mat (X : MatX) : MatX :=
  let d := xrows X in
  mkMatX (d + 1)
    (map (fun col => map (fun j => coeff col j) (seq 0 d) ++ [1])
         (xcolumns X)).

(** [P * XX] for a 3x4 [P] and a dynamic [XX] with four rows. *)
Definition mul34_Mat (P : Mat34) (XX : MatX) : MatX :=
  mkMatX 3
    (map (fun c =>
            [ p00 P * coeff c 0 + p01 P * coeff c 1 + p02 P * coeff c 2 + p03 P * coeff c 3;
              p10 P * coeff c 0 + p11 P * coeff c 1 + p12 P * coeff c 2 + p13 P * coeff c 3;
              p20 P * coeff c 0 + p21 P * coeff c 1 + p22 P * coeff c 2 + p23 P * coeff c 3 ])
         (xcolumns XX)).

(** [Project]:
<<
  Mat XX;
  EuclideanToHomogeneous(X, &XX);
  HomogeneousToEuclidean(P * XX, x);
>> *)
Definition Project (P : Mat34) (X : MatX) : MatX :=
  let XX := EuclideanToHomogeneous_Mat X in
  HomogeneousToEuclidean_Mat (mul34_Mat P XX).

(** [Depth]: [(R*X)(2) + t(2)]. *)
Definition Depth (R : Mat3) (t X : Vec3) := v3z (mvmul R X) + v3z t.

(** [P * (X, 1)] for a 3D point [X]: the homogeneous image point. *)
Definition project_point (P : Mat34) (X : Vec3) : Vec3 :=
  mkVec3 (p00 P * v3x X + p01 P * v3y X + p02 P * v3z X + p03 P)
         (p10 P * v3x X + p11 P * v3y X + p12 P * v3z X + p13 P)
         (p20 P * v3x X + p21 P * v3y X + p22 P * v3z X + p23 P).

(** A 3D point as a column of a dynamic matrix, and a 2D point likewise. *)
Definition column_of_Vec3 (X : Vec3) : list R := [v3x X; v3y X; v3z X].

Definition column_of_Vec2 (x : Vec2) : list R := [v2x x; v2y x].

(** The 3 x n matrix whose columns are the points of a list. *)
Definition MatX_of_points (Xs : list Vec3) : MatX :=
  mkMatX 3 (map column_of_Vec3 Xs).

(** [flipped(i,j) = A(2 - i, 2 - j)], the index flip of [K_From_AbsoluteConic]. *)
Definition flip3 (A : Mat3) : Mat3 :=
  mkMat3 (m22 A) (m21 A) (m20 A)
         (m12 A) (m11 A) (m10 A)
         (m02 A) (m01 A) (m00 A).

Definition lower_triangular (A : Mat3) : Prop :=
  m01 A = 0 /\ m02 A = 0 /\ m12 A = 0.

Definition positive_diagonal (A : Mat3) : Prop :=
  0 < m00 A /\ 0 < m11 A /\ 0 < m22 A.

(** [L] is the Cholesky factor of [A]: lower triangular with a positive
    diagonal and [L L^T = A] (what [Eigen::LLT] computes for a positive
    definite [A]). *)
Definition is_cholesky (A L : Mat3) : Prop :=
  lower_triangular L /\ positive_diagonal L /\ mmul L (mtrans L) = A.

Section AbsoluteConic.

(** [Eigen::LLT<Mat3> llt(A); llt.matrixL()], not among the translated
    sources. *)
Variable llt_matrixL : Mat3 -> Mat3.

(** [K_From_AbsoluteConic]:
<<
  Mat3 dual = W.inverse();
  Mat3 flipped_dual;
  for (i, j)  flipped_dual(i,j) = dual(2 - i, 2 - j);
  Eigen::LLT<Mat3> llt(flipped_dual);
  Mat3 L = llt.matrixL();
  for (i, j)  K(i,j) = L(2 - i, 2 - j);
>> *)
Definition K_From_AbsoluteConic (W : Mat3) : Mat3 :=
  let dual := inverse W in
  let flipped_dual := flip3 dual in
  let L := llt_matrixL flipped_dual in
  flip3 L.

End AbsoluteConic.

(** A stand-in for [Eigen::LLT]: the Cholesky factor of a 3x3 matrix by the
    textbook recurrences. *)
Definition cholesky3 (A : Mat3) : Mat3 :=
  let l00 := sqrt (m00 A) in
  let l10 := m10 A / l00 in
  let l20 := m20 A / l00 in
  let l11 := sqrt (m11 A - l10 * l10) in
  let l21 := (m21 A - l20 * l10) / l11 in
  let l22 := sqrt (m22 A - l20 * l20 - l21 * l21) in
  mkMat3 l00 0 0
         l10 l11 0
         l20 l21 l22.

(** Inputs used in the examples below. *)
Definition K_example : Mat3 :=
  mkMat3 2 1 3
         0 3 4
         0 0 1.

Definition R_example : Mat3 :=
  mkMat3 0 (-1) 0
         1 0 0
         0 0 1.

(** A rotation about the x axis, with cosine 3/5 and sine 4/5. *)
Definition Rx_example : Mat3 :=
  mkMat3 1 0 0
         0 (3 / 5) (- (4 / 5))
         0 (4 / 5) (3 / 5).

(** ** minimalPanoramic_kernel.h *)

(** [(a - b).squaredNorm()] on 2-vectors. *)
Definition squaredNorm_diff (a b : Vec2) : R :=
  (v2x a - v2x b) * (v2x a - v2x b) + (v2y a - v2y b) * (v2y a - v2y b).

(** [AsymmetricError::Error]:
<<
  Vec3 x2h_est = H * EuclideanToHomogeneous(x1);
  Vec2 x2_est = x2h_est.start<2>() / x2h_est[2];
  return (x2 - x2_est).squaredNorm();
>> *)
Definition AsymmetricError_Error (H : Mat3) (x1 x2 : Vec2) : R :=
  let x2h_est := mvmul H (EuclideanToHomogeneous x1) in
  let x2_est := mkVec2 (v3x x2h_est / v3z x2h_est) (v3y x2h_est / v3z x2h_est) in
  squaredNorm_diff x2 x2_est.

(** [SymmetricError::Error]:
<<
  Mat3 Hinv = H.inverse();
  return AsymmetricError::Error(H,    x1, x2) +
         AsymmetricError::Error(Hinv, x2, x1);
>> *)
Definition SymmetricError_Error (H : Mat3) (x1 x2 : Vec2) : R :=
  let Hinv := inverse H in
  AsymmetricError_Error H x1 x2 + AsymmetricError_Error Hinv x2 x1.

(** [Unnormalizer::Unnormalize]: the matrix [H] points to after the
    assignment [H = T2.inverse() * H * T1] through the pointer. *)
Definition Unnormalize (T1 T2 H : Mat3) : Mat3 :=
  mmul (mmul (inverse T2) H) T1.

(** Inputs used in the examples below: a scaling by 2 with a shift, and a
    point pair it maps exactly. *)
Definition H_example : Mat3 :=
  mkMat3 2 0 1
         0 2 3
         0 0 1.

(** ** mosaicing_video.cc, further definitions *)

(** The update of the box by one rounded corner [(x, y)]: the two
    [if ... else if ...] of the inner loop. *)
Definition extend_bbox (q : R * R) (bbox : Vec4i) : Vec4i :=
  let (xmin, xmax) := extend_range (fst q) (b0 bbox) (b1 bbox) in
  let (ymin, ymax) := extend_range (snd q) (b2 bbox) (b3 bbox) in
  mkVec4i xmin xmax ymin ymax.

(** The rounded Euclidean coordinates [(q(0), q(1))] of corner [i] mapped by
    [H], as the inner loop computes them. *)
Definition rounded_corner (ceil0 : R -> R) (images_size : Vec2u) (H : Mat3)
    (i : nat) : R * R :=
  let q := mvmul H (col34 (q_bounds images_size) i) in
  (ceil0 (v3x q / v3z q), ceil0 (v3y q / v3z q)).

(** All the rounded corners the two loops go through, in order. *)
Definition rounded_corners (ceil0 : R -> R) (images_size : Vec2u)
    (Hs : list Mat3) : list (R * R) :=
  flat_map (fun H => map (rounded_corner ceil0 images_size H) (seq 0 4))
           (absolute_transforms Hs).

(** The box [ComputeGlobalBoundingBox] starts from: [(W, 0, H, 0)]. *)
Definition initial_bbox (images_size : Vec2u) : Vec4i :=
  mkVec4i (int_of_unsigned (u0 images_size)) 0
          (int_of_unsigned (u1 images_size)) 0.

(** The translation by [(dx, dy)]. *)
Definition translation (dx dy : R) : Mat3 :=
  mkMat3 1 0 dx
         0 1 dy
         0 0 1.

(** [BuildMosaic], the size of the mosaic:
<<
  const unsigned int w = bbox(1) - bbox(0);
  const unsigned int h = bbox(3) - bbox(2);
>>
    The difference of two [int] is converted to [unsigned int], that is taken
    modulo [2^32]. *)
Definition unsigned_of_int (z : Z) : Z := (z mod 2 ^ 32)%Z.

Definition mosaic_width (bbox : Vec4i) : Z := unsigned_of_int (b1 bbox - b0 bbox).

Definition mosaic_height (bbox : Vec4i) : Z := unsigned_of_int (b3 bbox - b2 bbox).

(** [BuildMosaic], the registration matrix:
<<
  Hreg << 1, 0, -bbox(0),
          0, 1, -bbox(2),
          0, 0, 1;
>> *)
Definition Hreg (bbox : Vec4i) : Mat3 :=
  mkMat3 1 0 (- IZR (b0 bbox))
         0 1 (- IZR (b2 bbox))
         0 0 1.

(** [BuildMosaic], the matrices [Hreg * H] it passes to [WarpImageBlend], one
    per image file (for the files whose image loads):
<<
  for (size_t i = 0; i < image_files.size(); ++i) {
    if (i > 0)
      H = Hs[i - 1] * H;
    ...
      WarpImageBlend( *image, Hreg * H, mosaic, blending_ratio);
  }
>>
    [remaining] counts the iterations left.  [Hs[i - 1]] past the end of the
    vector is not defined in C++; the model reads the identity there. *)
Fixpoint BuildMosaic_warps_from (Hreg : Mat3) (Hs : list Mat3) (H : Mat3)
    (i remaining : nat) : list Mat3 :=
  match remaining with
  | O => []
  | S remaining' =>
      let H := if (0 <? i)%nat then mmul (nth (i - 1) Hs Identity3) H else H in
      mmul Hreg H :: BuildMosaic_warps_from Hreg Hs H (S i) remaining'
  end.

Definition BuildMosaic_warps (Hreg : Mat3) (n_image_files : nat)
    (Hs : list Mat3) : list Mat3 :=
  BuildMosaic_warps_from Hreg Hs Identity3 0 n_image_files.

(** A rounded corner whose two coordinates are integers. *)
Definition integral (q : R * R) : Prop :=
  exists a b : Z, q = (IZR a, IZR b).

(** A rounded corner whose two coordinates can be converted to [int]. *)
Definition corner_fits_int (q : R * R) : Prop :=
  fits_int (fst q) /\ fits_int (snd q).

(** [BuildMosaic], its assertion on the sizes:
<<
  assert(image_files.size() == Hs.size() - 1);
>>
    Both sides are [size_t] (64 bits here); the subtraction wraps. *)
Definition size_t_sub (a b : Z) : Z := ((a - b) mod 2 ^ 64)%Z.

Definition BuildMosaic_assert_sizes (n_image_files n_Hs : nat) : bool :=
  (Z.of_nat n_image_files =? size_t_sub (Z.of_nat n_Hs) 1)%Z.

(** A database of three images, every pair with five correspondences. *)
Definition five_matches : Mat * Mat :=
  (repeat (mkVec2 0 0) 5, repeat (mkVec2 1 1) 5).

Definition three_images (_ : unit) : list nat := [0%nat; 1%nat; 2%nat].

Definition five_matches_between (_ : unit) (_ _ : nat) : Mat * Mat :=
  five_matches.

(** ** The convolution fragment shader *)

(** [vec4] with the componentwise operations the shader uses. *)
Definition vec4_zero : Vec4 := mkVec4 0 0 0 0.

Definition vec4_add (a b : Vec4) : Vec4 :=
  mkVec4 (v4x a + v4x b) (v4y a + v4y b) (v4z a + v4z b) (v4w a + v4w b).

Definition vec4_mul (a b : Vec4) : Vec4 :=
  mkVec4 (v4x a * v4x b) (v4y a * v4y b) (v4z a * v4z b) (v4w a * v4w b).

Definition vec2_add (a b : Vec2) : Vec2 :=
  mkVec2 (v2x a + v2x b) (v2y a + v2y b).

(** [const int max_kernel_size = 25;] *)
Definition max_kernel_size : nat := 25.

(** The uniforms of the shader: [offsets] and [weights] are arrays of
    [max_kernel_size] elements, [kernel_size] is an [int]; the sampler
    [source] is read through [texture2D]. *)
Record Uniforms : Type := mkUniforms {
  source : Vec2 -> Vec4;
  offsets : list Vec2;
  weights : list Vec4;
  kernel_size : Z }.

Definition Uniforms_wf (u : Uniforms) : Prop :=
  length (offsets u) = max_kernel_size /\ length (weights u) = max_kernel_size.

(** One iteration of the loop,
<<
  sum += weights[i] * texture2D(source, gl_TexCoord[0].st + offsets[i]);
>>
    An index past the end of an array has no defined value: [None]. *)
Definition shader_step (u : Uniforms) (texcoord : Vec2) (sum : option Vec4)
    (i : nat) : option Vec4 :=
  match sum, nth_error (weights u) i, nth_error (offsets u) i with
  | Some sum, Some w, Some o =>
      Some (vec4_add sum (vec4_mul w (source u (vec2_add texcoord o))))
  | _, _, _ => None
  end.

(** [main]: the value written to [gl_FragColor] for the texture coordinate
    [gl_TexCoord[0].st].
<<
  vec4 sum = vec4(0.0);
  for(int i=0; i<kernel_size; i++)
    sum += weights[i] * texture2D(source, gl_TexCoord[0].st + offsets[i]);
  gl_FragColor = sum;
>> *)
Definition shader_main (u : Uniforms) (texcoord : Vec2) : option Vec4 :=
  fold_left (shader_step u texcoord) (seq 0 (Z.to_nat (kernel_size u)))
            (Some vec4_zero).

(** The taps the loop adds up, when every index is inside the arrays. *)
Definition taps (u : Uniforms) (texcoord : Vec2) (n : nat) : Vec4 :=
  fold_left (fun sum i =>
               vec4_add sum
                 (vec4_mul (nth i (weights u) vec4_zero)
                    (source u (vec2_add texcoord (nth i (offsets u) (mkVec2 0 0))))))
            (seq 0 n) vec4_zero.

(** The sum of the first [n] weights, componentwise. *)
Definition weights_sum (ws : list Vec4) (n : nat) : Vec4 :=
  fold_left vec4_add (firstn n ws) vec4_zero.

(** A box filter of three taps. *)
Definition box3 : Uniforms :=
  mkUniforms (fun _ => mkVec4 1 1 1 1)
             (repeat (mkVec2 0 0) 25)
             (repeat (mkVec4 (1/3) (1/3) (1/3) (1/3)) 25)
             3.

(** ** Proof automation *)

Ltac mat_destruct :=
  repeat match goal with
         | A : Mat3 |- _ => destruct A
         | v : Vec3 |- _ => destruct v
         | v : Vec2 |- _ => destruct v
         | P : Mat34 |- _ => destruct P
         end.

Ltac mat_unfold :=
  unfold P_From_KRt, mmul34, scale34, hstack, block33, col3, inverse, adjugate,
    mdiv, msub, mscale, mneg, mtrans, mmul, mvmul, diag3, det3, Identity3,
    upper_triangular in *;
  cbn [m00 m01 m02 m10 m11 m12 m20 m21 m22 v3x v3y v3z v2x v2y
       p00 p01 p02 p03 p10 p11 p12 p13 p20 p21 p22 p23] in *.

Ltac mat_ring := intros; mat_destruct; mat_unfold; f_equal; ring.

(** Evaluation of the real-number tests on concrete inputs. *)
Ltac decide_tests :=
  repeat (
    mat_unfold; cbn [fst snd];
    match goal with
    | |- context [Req_dec_T ?a ?b] =>
        destruct (Req_dec_T a b); [try (exfalso; lra) | try (exfalso; lra)]
    | |- context [Rlt_dec ?a ?b] =>
        destruct (Rlt_dec a b); [try (exfalso; lra) | try (exfalso; lra)]
    end).

(** Evaluation of one integral box update. *)
Ltac box_step :=
  unfold extend_bbox_Z, extend_range_Z; cbn [b0 b1 b2 b3];
  repeat match goal with
         | |- context [(?a <? ?b)%Z] => destruct (Z.ltb_spec a b)
         end;
  cbv beta iota; try lia; f_equal; lia.

Ltac vec_unfold :=
  unfold dot, cross, row0, row1, row2, zero3, frobenius2, trace3 in *;
  mat_unfold.

Ltac mat_simpl :=
  cbn [m00 m01 m02 m10 m11 m12 m20 m21 m22 v3x v3y v3z v2x v2y
       v4x v4y v4z v4w
       p00 p01 p02 p03 p10 p11 p12 p13 p20 p21 p22 p23] in *.

(** Closes [e <> 0] when [e] is, as a polynomial, the left side of a
    hypothesis [e' <> 0]. *)
Ltac neq_ring :=
  match goal with
  | H : ?e' <> 0 |- ?e <> 0 =>
      let E := fresh in
      intro E; apply H; rewrite <- E; ring
  end.

(** * Proofs *)

(** ** Matrix algebra *)
Lemma mmul_assoc (A B C : Mat3) : mmul (mmul A B) C = mmul A (mmul B C).
Proof. mat_ring. Qed.

Lemma mmul_1_l (A : Mat3) : mmul Identity3 A = A.
Proof. mat_ring. Qed.

Lemma mmul_1_r (A : Mat3) : mmul A Identity3 = A.
Proof. mat_ring. Qed.

Lemma mtrans_mmul (A B : Mat3) : mtrans (mmul A B) = mmul (mtrans B) (mtrans A).
Proof. mat_ring. Qed.

Lemma mtrans_involutive (A : Mat3) : mtrans (mtrans A) = A.
Proof. mat_ring. Qed.

Lemma mtrans_Identity3 : mtrans Identity3 = Identity3.
Proof. reflexivity. Qed.

Lemma det3_mmul (A B : Mat3) : det3 (mmul A B) = det3 A * det3 B.
Proof. intros; mat_destruct; mat_unfold; ring. Qed.

Lemma det3_mtrans (A : Mat3) : det3 (mtrans A) = det3 A.
Proof. intros; mat_destruct; mat_unfold; ring. Qed.

Lemma det3_mneg (A : Mat3) : det3 (mneg A) = - det3 A.
Proof. intros; mat_destruct; mat_unfold; ring. Qed.

Lemma det3_Identity3 : det3 Identity3 = 1.
Proof. mat_unfold; ring. Qed.

Lemma mneg_mmul_mneg (A B : Mat3) : mmul (mneg A) (mneg B) = mmul A B.
Proof. mat_ring. Qed.

Lemma mtrans_mneg (A : Mat3) : mtrans (mneg A) = mneg (mtrans A).
Proof. mat_ring. Qed.

Lemma mvmul_mmul (A B : Mat3) (v : Vec3) : mvmul (mmul A B) v = mvmul A (mvmul B v).
Proof. mat_ring. Qed.

Lemma mvmul_1 (v : Vec3) : mvmul Identity3 v = v.
Proof. mat_ring. Qed.

(** The cofactor inverse is a right inverse whenever the determinant is not 0. *)
Lemma mmul_inverse_r (A : Mat3) : det3 A <> 0 -> mmul A (inverse A) = Identity3.
Proof.
  intros Hd; mat_destruct; mat_unfold; f_equal; field; exact Hd.
Qed.

Lemma orthogonal_Identity3 : orthogonal Identity3.
Proof. split; [rewrite mtrans_Identity3|rewrite mtrans_Identity3]; apply mmul_1_l. Qed.

Lemma orthogonal_mtrans (A : Mat3) : orthogonal A -> orthogonal (mtrans A).
Proof. intros [H1 H2]; split; rewrite mtrans_involutive; assumption. Qed.

Lemma orthogonal_mmul (A B : Mat3) :
  orthogonal A -> orthogonal B -> orthogonal (mmul A B).
Proof.
  intros [A1 A2] [B1 B2]; split; rewrite mtrans_mmul.
  - rewrite mmul_assoc, <- (mmul_assoc B), B1, mmul_1_l; exact A1.
  - rewrite mmul_assoc, <- (mmul_assoc (mtrans A)), A2, mmul_1_l; exact B2.
Qed.

Lemma orthogonal_mneg (A : Mat3) : orthogonal A -> orthogonal (mneg A).
Proof.
  intros [H1 H2]; split; rewrite mtrans_mneg, mneg_mmul_mneg; assumption.
Qed.

Lemma orthogonal_det_sq (A : Mat3) : orthogonal A -> det3 A * det3 A = 1.
Proof.
  intros [H _]. apply (f_equal det3) in H.
  rewrite det3_mmul, det3_mtrans, det3_Identity3 in H. exact H.
Qed.

Lemma is_rotation_Identity3 : is_rotation Identity3.
Proof. split; [apply orthogonal_Identity3 | apply det3_Identity3]. Qed.

Lemma is_rotation_mmul (A B : Mat3) :
  is_rotation A -> is_rotation B -> is_rotation (mmul A B).
Proof.
  intros [OA DA] [OB DB]; split.
  - now apply orthogonal_mmul.
  - rewrite det3_mmul, DA, DB; ring.
Qed.

Lemma is_rotation_mtrans (A : Mat3) : is_rotation A -> is_rotation (mtrans A).
Proof.
  intros [OA DA]; split; [now apply orthogonal_mtrans | now rewrite det3_mtrans].
Qed.

(** ** The Givens rotations of [KRt_From_P] *)

Lemma givens_normalised (c s : R) :
  s <> 0 ->
  0 < sqrt (c * c + s * s) /\
  (c / sqrt (c * c + s * s)) * (c / sqrt (c * c + s * s)) +
  (s / sqrt (c * c + s * s)) * (s / sqrt (c * c + s * s)) = 1.
Proof.
  intros Hs.
  assert (Hpos : 0 < c * c + s * s) by nra.
  assert (Hl : 0 < sqrt (c * c + s * s)) by (apply sqrt_lt_R0; exact Hpos).
  split; [exact Hl|].
  assert (Hsq := sqrt_sqrt (c * c + s * s) (Rlt_le _ _ Hpos)).
  set (l := sqrt (c * c + s * s)) in *.
  replace (c / l * (c / l) + s / l * (s / l)) with ((c * c + s * s) / (l * l))
    by (field; lra).
  rewrite Hsq. field. lra.
Qed.

Lemma rot_x_is_rotation (c s : R) :
  c * c + s * s = 1 -> is_rotation (mkMat3 1 0 0 0 c (- s) 0 s c).
Proof.
  intros H; repeat split; mat_unfold; try (f_equal; nra); nra.
Qed.

Lemma rot_y_is_rotation (c s : R) :
  c * c + s * s = 1 -> is_rotation (mkMat3 c 0 s 0 1 0 (- s) 0 c).
Proof.
  intros H; repeat split; mat_unfold; try (f_equal; nra); nra.
Qed.

(** One step [K := K * G; Q := G^T * Q] with a rotation [G]. *)
Lemma rq_step (M K Q G : Mat3) :
  is_rotation G -> rq_inv M (K, Q) -> rq_inv M (mmul K G, mmul (mtrans G) Q).
Proof.
  intros HG [HM HQ]; cbn [fst snd] in *; split; cbn [fst snd].
  - rewrite mmul_assoc, <- (mmul_assoc G).
    destruct HG as [[HG _] _]. rewrite HG, mmul_1_l. exact HM.
  - apply is_rotation_mmul; [apply is_rotation_mtrans; exact HG | exact HQ].
Qed.

Lemma givens_x_inv (M : Mat3) (KQ : Mat3 * Mat3) :
  rq_inv M KQ -> rq_inv M (givens_x KQ).
Proof.
  destruct KQ as [K Q]; intros H; unfold givens_x.
  destruct (Req_dec_T (m21 K) 0) as [_|Hs]; [exact H|].
  apply rq_step; [|exact H].
  apply rot_x_is_rotation, givens_normalised, Hs.
Qed.

Lemma givens_y_inv (M : Mat3) (KQ : Mat3 * Mat3) :
  rq_inv M KQ -> rq_inv M (givens_y KQ).
Proof.
  destruct KQ as [K Q]; intros H; unfold givens_y.
  destruct (Req_dec_T (m20 K) 0) as [_|Hs]; [exact H|].
  apply rq_step; [|exact H].
  apply rot_y_is_rotation, givens_normalised, Hs.
Qed.

(** The third step completes exactly when [K(1,0)] is already zero, and then
    changes nothing. *)
Lemma givens_z_Some (KQ KQ' : Mat3 * Mat3) :
  givens_z KQ = Some KQ' -> KQ' = KQ /\ m10 (fst KQ) = 0.
Proof.
  destruct KQ as [K Q]; unfold givens_z; cbn [fst].
  destruct (Req_dec_T (m10 K) 0) as [H0|_]; [|discriminate].
  intros E; injection E as <-. split; [reflexivity | exact H0].
Qed.

Lemma givens_z_defined (KQ : Mat3 * Mat3) :
  m10 (fst KQ) = 0 -> givens_z KQ = Some KQ.
Proof.
  destruct KQ as [K Q]; unfold givens_z; cbn [fst]; intros H0.
  destruct (Req_dec_T (m10 K) 0) as [_|N]; [reflexivity | contradiction].
Qed.

Lemma givens_z_None (KQ : Mat3 * Mat3) :
  m10 (fst KQ) <> 0 -> givens_z KQ = None.
Proof.
  destruct KQ as [K Q]; unfold givens_z; cbn [fst]; intros N.
  destruct (Req_dec_T (m10 K) 0) as [H0|_]; [contradiction | reflexivity].
Qed.

(** The entries each step clears, and the cleared entries it keeps. *)
Lemma givens_x_zero (KQ : Mat3 * Mat3) : m21 (fst (givens_x KQ)) = 0.
Proof.
  destruct KQ as [K Q]; unfold givens_x.
  destruct (Req_dec_T (m21 K) 0) as [H0|Hs]; [exact H0|].
  destruct (givens_normalised (- m22 K) (m21 K) Hs) as [Hl _].
  cbn [fst]; mat_unfold; field; lra.
Qed.

Lemma givens_y_zero (KQ : Mat3 * Mat3) :
  m20 (fst (givens_y KQ)) = 0 /\ m21 (fst (givens_y KQ)) = m21 (fst KQ).
Proof.
  destruct KQ as [K Q]; unfold givens_y.
  destruct (Req_dec_T (m20 K) 0) as [H0|Hs]; [split; [exact H0|reflexivity]|].
  destruct (givens_normalised (m22 K) (m20 K) Hs) as [Hl _].
  cbn [fst]; split; mat_unfold; field; lra.
Qed.

(** When the three steps complete: [K * Q] is the input, [Q] is a rotation
    and [K] is upper triangular. *)
Lemma givens_steps_spec (M : Mat3) (KQ : Mat3 * Mat3) :
  givens_z (givens_y (givens_x (M, Identity3))) = Some KQ ->
  rq_inv M KQ /\ upper_triangular (fst KQ).
Proof.
  intros E. apply givens_z_Some in E. destruct E as [-> H10]. split.
  - apply givens_y_inv, givens_x_inv.
    split; cbn [fst snd]; [apply mmul_1_r | apply is_rotation_Identity3].
  - destruct (givens_y_zero (givens_x (M, Identity3))) as [H20 H21].
    split; [exact H10|]. split; [exact H20|].
    rewrite H21. apply givens_x_zero.
Qed.

(** ** The sign fixes of [KRt_From_P] *)

Lemma rq_inv_kr_inv (M : Mat3) (KQ : Mat3 * Mat3) :
  rq_inv M KQ -> upper_triangular (fst KQ) -> kr_inv M KQ.
Proof. intros [HM [HO _]] HU; split; [exact HM | split; [exact HO | exact HU]]. Qed.

Lemma fix_sign22_spec (M : Mat3) (KR : Mat3 * Mat3) :
  kr_inv M KR ->
  kr_inv M (fix_sign22 KR) /\ 0 <= m22 (fst (fix_sign22 KR)).
Proof.
  destruct KR as [K R]; unfold kr_inv, fix_sign22; cbn [fst snd].
  intros (HM & HO & H10 & H20 & H21).
  destruct (Rlt_dec (m22 K) 0) as [Hneg|Hpos]; cbn [fst snd].
  - split; [split; [|split]|].
    + rewrite mneg_mmul_mneg; exact HM.
    + apply orthogonal_mneg, HO.
    + mat_destruct; mat_unfold; repeat split; lra.
    + mat_destruct; mat_unfold; lra.
  - split; [split; [exact HM | split; [exact HO | repeat split; assumption]] | lra].
Qed.

Lemma flip_sandwich (K R S : Mat3) :
  mmul S S = Identity3 -> mmul (mmul K S) (mmul S R) = mmul K R.
Proof.
  intros HS. rewrite mmul_assoc, <- (mmul_assoc S), HS, mmul_1_l. reflexivity.
Qed.

Lemma flip1_orthogonal : orthogonal (mkMat3 1 0 0 0 (-1) 0 0 0 1).
Proof. split; mat_unfold; f_equal; ring. Qed.

Lemma flip0_orthogonal : orthogonal (mkMat3 (-1) 0 0 0 1 0 0 0 1).
Proof. split; mat_unfold; f_equal; ring. Qed.

Lemma fix_sign11_spec (M : Mat3) (KR : Mat3 * Mat3) :
  kr_inv M KR ->
  kr_inv M (fix_sign11 KR) /\ 0 <= m11 (fst (fix_sign11 KR)) /\
  m22 (fst (fix_sign11 KR)) = m22 (fst KR).
Proof.
  destruct KR as [K R]; unfold kr_inv, fix_sign11; cbn [fst snd].
  intros (HM & HO & H10 & H20 & H21).
  destruct (Rlt_dec (m11 K) 0) as [Hneg|Hpos]; cbn [fst snd].
  - split; [split; [|split]|split].
    + rewrite flip_sandwich; [exact HM | mat_unfold; f_equal; ring].
    + apply orthogonal_mmul; [apply flip1_orthogonal | exact HO].
    + mat_destruct; mat_unfold; repeat split; lra.
    + mat_destruct; mat_unfold; lra.
    + mat_destruct; mat_unfold; lra.
  - split; [split; [exact HM | split; [exact HO | repeat split; assumption]] | split; [lra | reflexivity]].
Qed.

Lemma fix_sign00_spec (M : Mat3) (KR : Mat3 * Mat3) :
  kr_inv M KR ->
  kr_inv M (fix_sign00 KR) /\ 0 <= m00 (fst (fix_sign00 KR)) /\
  m11 (fst (fix_sign00 KR)) = m11 (fst KR) /\
  m22 (fst (fix_sign00 KR)) = m22 (fst KR).
Proof.
  destruct KR as [K R]; unfold kr_inv, fix_sign00; cbn [fst snd].
  intros (HM & HO & H10 & H20 & H21).
  destruct (Rlt_dec (m00 K) 0) as [Hneg|Hpos]; cbn [fst snd].
  - split; [split; [|split]|split; [|split]].
    + rewrite flip_sandwich; [exact HM | mat_unfold; f_equal; ring].
    + apply orthogonal_mmul; [apply flip0_orthogonal | exact HO].
    + mat_destruct; mat_unfold; repeat split; lra.
    + mat_destruct; mat_unfold; lra.
    + mat_destruct; mat_unfold; lra.
    + mat_destruct; mat_unfold; lra.
  - split; [split; [exact HM | split; [exact HO | repeat split; assumption]] | split; [lra | split; reflexivity]].
Qed.

(** [KR_From_P] yields a pair exactly when the entry tested by the third
    step is zero. *)
Lemma KR_From_P_defined (P : Mat34) :
  KRt_From_P_K10 P = 0 -> exists KR, KR_From_P P = Some KR.
Proof.
  unfold KRt_From_P_K10, KR_From_P; intros H0.
  rewrite (givens_z_defined _ H0). eexists; reflexivity.
Qed.

Lemma KR_From_P_aborts (P : Mat34) :
  KRt_From_P_K10 P <> 0 -> KR_From_P P = None.
Proof.
  unfold KRt_From_P_K10, KR_From_P; intros N.
  rewrite (givens_z_None _ N). reflexivity.
Qed.

(** The factors held at "Compute translation": [K * R] is the leading block
    of [P], [R] is orthogonal, [K] is upper triangular with a diagonal that is
    not negative. *)
Lemma KR_From_P_spec (P : Mat34) (KR : Mat3 * Mat3) :
  KR_From_P P = Some KR ->
  kr_inv (block33 P) KR /\
  0 <= m00 (fst KR) /\
  0 <= m11 (fst KR) /\
  0 <= m22 (fst KR).
Proof.
  unfold KR_From_P.
  destruct (givens_z (givens_y (givens_x (block33 P, Identity3))))
    as [KQ|] eqn:E; [|discriminate].
  intros E'; injection E' as <-.
  destruct (givens_steps_spec (block33 P) KQ E) as [Hrq Hut].
  pose proof (rq_inv_kr_inv _ _ Hrq Hut) as H0.
  destruct (fix_sign22_spec _ _ H0) as [H1 P22].
  destruct (fix_sign11_spec _ _ H1) as (H2 & P11 & E22).
  destruct (fix_sign00_spec _ _ H2) as (H3 & P00 & E11 & E22').
  split; [exact H3|]. split; [exact P00|]. split; [lra|lra].
Qed.

Lemma det3_upper_triangular (K : Mat3) :
  upper_triangular K -> det3 K = m00 K * m11 K * m22 K.
Proof.
  intros (H10 & H20 & H21); mat_destruct; mat_unfold; subst; ring.
Qed.

(** For a non-singular leading block the diagonal of [K] is strictly positive
    and the determinant of [R] is the sign of the determinant of the block. *)
Lemma KR_From_P_nonsingular (P : Mat34) (KR : Mat3 * Mat3) :
  KR_From_P P = Some KR ->
  det3 (block33 P) <> 0 ->
  0 < m00 (fst KR) /\
  0 < m11 (fst KR) /\
  0 < m22 (fst KR) /\
  0 < det3 (fst KR) /\
  (0 < det3 (block33 P) -> det3 (snd KR) = 1) /\
  (det3 (block33 P) < 0 -> det3 (snd KR) = -1).
Proof.
  intros EKR Hdet.
  destruct (KR_From_P_spec P KR EKR) as ((HM & HO & HU) & P00 & P11 & P22).
  clear EKR. destruct KR as [K R]; cbn [fst snd] in *.
  pose proof (det3_upper_triangular K HU) as HdK.
  pose proof (orthogonal_det_sq R HO) as HdR.
  assert (HdM : det3 K * det3 R = det3 (block33 P))
    by (rewrite <- HM; symmetry; apply det3_mmul).
  assert (HK0 : det3 K <> 0) by (intros E; rewrite E in HdM; lra).
  assert (H00 : m00 K <> 0) by (intros E; rewrite E in HdK; lra).
  assert (H11 : m11 K <> 0) by (intros E; rewrite E in HdK; lra).
  assert (H22 : m22 K <> 0) by (intros E; rewrite E in HdK; lra).
  assert (Q00 : 0 < m00 K) by lra.
  assert (Q11 : 0 < m11 K) by lra.
  assert (Q22 : 0 < m22 K) by lra.
  assert (QK : 0 < det3 K).
  { rewrite HdK. apply Rmult_lt_0_compat; [apply Rmult_lt_0_compat|]; assumption. }
  repeat split; try assumption.
  - intros Hp. assert (0 < det3 R) by nra. nra.
  - intros Hn. assert (det3 R < 0) by nra. nra.
Qed.

(** ** [KRt_From_P] and [P_From_KRt] *)

Lemma mmul_mdiv_l (K Q : Mat3) (c : R) :
  mmul (mdiv K c) Q = mscale (/ c) (mmul K Q).
Proof. intros; mat_destruct; mat_unfold; unfold Rdiv; f_equal; ring. Qed.

Lemma mvmul_mdiv_l (K : Mat3) (v : Vec3) (c : R) :
  mvmul (mdiv K c) v = vscale (/ c) (mvmul K v).
Proof.
  intros; mat_destruct; mat_unfold; unfold vscale, Rdiv; cbn; f_equal; ring.
Qed.

Lemma block33_hstack (Q : Mat3) (t : Vec3) : block33 (hstack Q t) = Q.
Proof. mat_ring. Qed.

Lemma col3_hstack (Q : Mat3) (t : Vec3) : col3 (hstack Q t) = t.
Proof. mat_ring. Qed.

Lemma scale34_hstack (c : R) (P : Mat34) :
  scale34 c P = hstack (mscale c (block33 P)) (vscale c (col3 P)).
Proof. intros; mat_destruct; reflexivity. Qed.

Lemma KRt_From_P_unfold (P : Mat34) (KR : Mat3 * Mat3) :
  KR_From_P P = Some KR ->
  KRt_From_P P =
  Some (mdiv (fst KR) (m22 (fst KR)), snd KR, mvmul (inverse (fst KR)) (col3 P)).
Proof.
  intros E. unfold KRt_From_P. rewrite E. destruct KR as [K R]. reflexivity.
Qed.

(** [KRt_From_P] yields a result exactly when the third Givens step is not
    entered. *)
Lemma KRt_From_P_defined (P : Mat34) :
  KRt_From_P_K10 P = 0 -> exists KRt, KRt_From_P P = Some KRt.
Proof.
  intros H0. destruct (KR_From_P_defined P H0) as [KR E].
  rewrite (KRt_From_P_unfold P KR E). eexists; reflexivity.
Qed.

Lemma KRt_From_P_aborts (P : Mat34) :
  KRt_From_P_K10 P <> 0 -> KRt_From_P P = None.
Proof.
  intros N. unfold KRt_From_P. rewrite (KR_From_P_aborts P N). reflexivity.
Qed.

Lemma KRt_From_P_inv (P : Mat34) (KRt : Mat3 * Mat3 * Vec3) :
  KRt_From_P P = Some KRt ->
  exists KR, KR_From_P P = Some KR /\
    KRt = (mdiv (fst KR) (m22 (fst KR)), snd KR, mvmul (inverse (fst KR)) (col3 P)).
Proof.
  intros E. destruct (KR_From_P P) as [KR|] eqn:EKR.
  - rewrite (KRt_From_P_unfold P KR EKR) in E. injection E as <-.
    exists KR; split; reflexivity.
  - unfold KRt_From_P in E. rewrite EKR in E. discriminate.
Qed.

(** What a result of [KRt_From_P] satisfies for a non-singular leading block:
    [K] is upper triangular with [K(2,2) = 1] and a positive diagonal, [R] is
    orthogonal, and [det R] is [+1] or [-1] with the sign of the block's
    determinant. *)
Lemma KRt_From_P_factors (P : Mat34) (K R : Mat3) (t : Vec3) :
  det3 (block33 P) <> 0 ->
  KRt_From_P P = Some (K, R, t) ->
  m22 K = 1 /\ 0 < m00 K /\ 0 < m11 K /\ upper_triangular K /\
  orthogonal R /\
  (0 < det3 (block33 P) -> det3 R = 1) /\
  (det3 (block33 P) < 0 -> det3 R = -1).
Proof.
  intros Hdet E. destruct (KRt_From_P_inv P _ E) as (KR & EKR & EQ).
  destruct (KR_From_P_spec P KR EKR) as ((HM & HO & HU) & _).
  destruct (KR_From_P_nonsingular P KR EKR Hdet) as (Q00 & Q11 & Q22 & QK & Dp & Dn).
  destruct KR as [K0 R0]; cbn [fst snd] in *.
  injection EQ as -> -> _.
  destruct HU as (H10 & H20 & H21).
  split; [|split; [|split; [|split; [|split; [exact HO | split; assumption]]]]].
  - mat_destruct; mat_unfold; field; lra.
  - mat_destruct; mat_unfold; apply Rdiv_lt_0_compat; assumption.
  - mat_destruct; mat_unfold; apply Rdiv_lt_0_compat; assumption.
  - mat_destruct; mat_unfold; subst; repeat split; field; lra.
Qed.

(** Whenever [KRt_From_P] yields factors for a projection matrix with a
    non-singular leading block, [P_From_KRt] applied to them gives back the
    matrix up to a uniform scale: the product is [P / K(2,2)], where
    [K(2,2) > 0] is the entry the decomposition normalises by. *)
Lemma Compose_Decompose_up_to_scale (P : Mat34) (KRt : Mat3 * Mat3 * Vec3) :
  det3 (block33 P) <> 0 ->
  KRt_From_P P = Some KRt ->
  same_up_to_scale (Compose KRt) P.
Proof.
  intros Hdet E. destruct (KRt_From_P_inv P _ E) as (KR & EKR & ->).
  destruct (KR_From_P_spec P KR EKR) as ((HM & HO & HU) & _).
  destruct (KR_From_P_nonsingular P KR EKR Hdet) as (Q00 & Q11 & Q22 & QK & _).
  destruct KR as [K R]; cbn [fst snd] in *.
  exists (/ m22 K). split.
  - apply Rinv_neq_0_compat; lra.
  - unfold Compose, P_From_KRt, mmul34.
    rewrite block33_hstack, col3_hstack, mmul_mdiv_l, mvmul_mdiv_l.
    rewrite <- mvmul_mmul, mmul_inverse_r by lra.
    rewrite mvmul_1, HM. symmetry; apply scale34_hstack.
Qed.

Lemma KRt_From_P_K10_quarter_turn : KRt_From_P_K10 P_quarter_turn = 1.
Proof.
  unfold KRt_From_P_K10, P_quarter_turn.
  unfold givens_x; decide_tests.
  unfold givens_y; decide_tests.
  reflexivity.
Qed.

(** Claim C2.  The quarter turn about the optical axis, [Rz(90) | 0], has a
    non-singular leading block (determinant 1), yet [KRt_From_P] yields no
    factors for it: after the first two Givens steps [K(1,0) = 1], the third
    step is entered and stops at the unsized [Qz].  Nothing is handed to
    [P_From_KRt], so the matrix is not reproduced. *)
Theorem Decompose_quarter_turn_aborts :
  det3 (block33 P_quarter_turn) <> 0 /\
  KRt_From_P_K10 P_quarter_turn = 1 /\
  KRt_From_P P_quarter_turn = None /\
  Decompose P_quarter_turn = Aborts /\
  (forall KRt : Mat3 * Mat3 * Vec3, Decompose P_quarter_turn <> Returns KRt).
Proof.
  assert (E : KRt_From_P P_quarter_turn = None).
  { apply KRt_From_P_aborts. rewrite KRt_From_P_K10_quarter_turn. lra. }
  split; [unfold P_quarter_turn; mat_unfold; lra|].
  split; [exact KRt_From_P_K10_quarter_turn|].
  split; [exact E|].
  unfold Decompose; rewrite E.
  split; [reflexivity | intros KRt; discriminate].
Qed.

Lemma KR_From_P_mirror :
  KR_From_P P_mirror = Some (Identity3, diag3 1 1 (-1)).
Proof.
  unfold KR_From_P, P_mirror.
  unfold givens_x; decide_tests.
  unfold givens_y; decide_tests.
  unfold givens_z; decide_tests.
  unfold fix_sign22; decide_tests.
  unfold fix_sign11; decide_tests.
  unfold fix_sign00; decide_tests.
  mat_unfold. f_equal; f_equal; f_equal; ring.
Qed.

(** Claim C1.  [KRt_From_P] on the camera [diag(1,1,-1) | (1,2,3)], whose leading
    block is non-singular: no Givens step fires, the three sign fixes all fire,
    and the function returns [K = I] together with the reflection
    [R = diag(1,1,-1)], whose determinant is [-1], not [+1]. *)
Theorem KRt_From_P_returns_reflection :
  det3 (block33 P_mirror) <> 0 /\
  KRt_From_P P_mirror = Some (Identity3, diag3 1 1 (-1), mkVec3 1 2 3) /\
  det3 (diag3 1 1 (-1)) = -1.
Proof.
  split; [unfold P_mirror; mat_unfold; lra|]. split.
  - rewrite (KRt_From_P_unfold _ _ KR_From_P_mirror); cbn [fst snd].
    unfold P_mirror; mat_unfold. f_equal; f_equal; [f_equal|]; f_equal; field.
  - mat_unfold; ring.
Qed.

Lemma KRt_From_P_K10_singular : KRt_From_P_K10 P_singular = 0.
Proof.
  unfold KRt_From_P_K10, P_singular.
  unfold givens_x; decide_tests.
  unfold givens_y; decide_tests.
  reflexivity.
Qed.

(** Claim C7 as stated fails: on a camera whose leading block [diag(1,1,0)] is
    singular, the call returns a result; it does not fail with
    [SingularCalibration]. *)
Lemma Decompose_singular_returns :
  det3 (block33 P_singular) = 0 /\
  Decompose P_singular <> Fails SingularCalibration /\
  exists KRt : Mat3 * Mat3 * Vec3, Decompose P_singular = Returns KRt.
Proof.
  split; [unfold P_singular; mat_unfold; ring|].
  destruct (KRt_From_P_defined P_singular KRt_From_P_K10_singular) as [KRt E].
  unfold Decompose; rewrite E.
  split; [discriminate | exists KRt; reflexivity].
Qed.

(** Claim C7, amended.  [KRt_From_P] has no singularity test: for every
    projection matrix with a singular leading block on which the third
    Givens step is not entered, the call returns a result and does not fail
    with [SingularCalibration]. *)
Theorem KRt_From_P_singular_unchecked (P : Mat34) :
  det3 (block33 P) = 0 ->
  KRt_From_P_K10 P = 0 ->
  (exists KRt : Mat3 * Mat3 * Vec3, Decompose P = Returns KRt) /\
  Decompose P <> Fails SingularCalibration.
Proof.
  intros _ H0.
  destruct (KRt_From_P_defined P H0) as [KRt E].
  unfold Decompose; rewrite E.
  split; [exists KRt; reflexivity | discriminate].
Qed.

Lemma KRt_From_P_singular_unchecked_witness :
  (exists KRt : Mat3 * Mat3 * Vec3, Decompose P_singular = Returns KRt) /\
  Decompose P_singular <> Fails SingularCalibration.
Proof.
  apply (KRt_From_P_singular_unchecked P_singular).
  - unfold P_singular; mat_unfold; ring.
  - exact KRt_From_P_K10_singular.
Defined.

(** On such a matrix the upper-triangular [K] handed to [K.inverse()] has
    determinant 0. *)
Lemma KRt_From_P_singular_divisor (P : Mat34) (d : R * R) :
  det3 (block33 P) = 0 ->
  KRt_From_P_divisors P = Some d ->
  fst d = 0.
Proof.
  intros Hdet E. unfold KRt_From_P_divisors in E.
  destruct (KR_From_P P) as [KR|] eqn:EKR; [|discriminate].
  destruct (KR_From_P_spec P KR EKR) as ((HM & HO & HU) & _).
  destruct KR as [K Q]; injection E as <-; cbn [fst snd] in *.
  pose proof (orthogonal_det_sq Q HO) as HQ.
  assert (HP : det3 K * det3 Q = 0)
    by (rewrite <- det3_mmul, HM; exact Hdet).
  destruct (Rmult_integral _ _ HP) as [E|E]; [exact E|].
  rewrite E in HQ; lra.
Qed.

(** For a non-singular leading block neither division is by zero. *)
Lemma KRt_From_P_divisors_nonzero (P : Mat34) (d : R * R) :
  det3 (block33 P) <> 0 ->
  KRt_From_P_divisors P = Some d ->
  fst d <> 0 /\ snd d <> 0.
Proof.
  intros Hdet E. unfold KRt_From_P_divisors in E.
  destruct (KR_From_P P) as [KR|] eqn:EKR; [|discriminate].
  destruct (KR_From_P_nonsingular P KR EKR Hdet) as (_ & _ & Q22 & QK & _).
  destruct KR as [K Q]; injection E as <-; cbn [fst snd] in *; split; lra.
Qed.

(** ** Homogeneous coordinates *)

(** Claim C10.  Appending the homogeneous coordinate 1 to a 2D point and dividing by
    it again returns the point. *)
Theorem HomogeneousToEuclidean_EuclideanToHomogeneous (X : Vec2) :
  HomogeneousToEuclidean (EuclideanToHomogeneous X) = X.
Proof.
  destruct X as [x y].
  unfold HomogeneousToEuclidean, EuclideanToHomogeneous; cbn [v3x v3y v3z v2x v2y].
  f_equal; field.
Qed.

(** ** Conversions and rounding *)

Lemma Int_part_IZR (z : Z) : Int_part (IZR z) = z.
Proof. symmetry; apply Int_part_spec; lra. Qed.

Lemma truncate_IZR (z : Z) : truncate (IZR z) = z.
Proof.
  unfold truncate.
  destruct (Rle_dec 0 (IZR z)) as [_|_].
  - apply Int_part_IZR.
  - rewrite <- opp_IZR, Int_part_IZR. lia.
Qed.

Lemma int_of_double_IZR (z : Z) :
  (INT_MIN <= z <= INT_MAX)%Z -> int_of_double (IZR z) = z.
Proof.
  intros [Hlo Hhi]. unfold int_of_double. rewrite truncate_IZR.
  destruct (Z.leb_spec INT_MIN z); [|lia].
  destruct (Z.leb_spec z INT_MAX); [reflexivity | lia].
Qed.

(** Whatever is converted, the result is an [int]. *)
Lemma int_of_double_range (x : R) : (INT_MIN <= int_of_double x <= INT_MAX)%Z.
Proof.
  unfold int_of_double.
  destruct (Z.leb_spec INT_MIN (truncate x));
    destruct (Z.leb_spec (truncate x) INT_MAX); cbn [andb];
    unfold INT_MIN, INT_MAX in *; lia.
Qed.

Lemma fits_int_IZR (z : Z) : fits_int (IZR z) <-> (INT_MIN <= z <= INT_MAX)%Z.
Proof.
  unfold fits_int. split.
  - intros [Hlo Hhi]. split; apply le_IZR; assumption.
  - intros [Hlo Hhi]. split; apply IZR_le; assumption.
Qed.

Lemma ceil0_ceiling_IZR (z : Z) : ceil0_ceiling (IZR z) = IZR z.
Proof.
  unfold ceil0_ceiling. rewrite <- opp_IZR, Int_part_IZR. f_equal; lia.
Qed.

Lemma int_of_unsigned_small (u : Z) : (u < 2 ^ 31)%Z -> int_of_unsigned u = u.
Proof.
  intros Hu; unfold int_of_unsigned.
  destruct (Z.ltb_spec u (2 ^ 31)); [reflexivity | lia].
Qed.

Lemma extend_range_IZR (q lo hi : Z) :
  (INT_MIN <= q <= INT_MAX)%Z ->
  extend_range (IZR q) lo hi = extend_range_Z q lo hi.
Proof.
  intros Hq.
  unfold extend_range, extend_range_Z. rewrite int_of_double_IZR by exact Hq.
  destruct (Rlt_dec (IZR q) (IZR lo)) as [Hlt|Hge];
    destruct (Z.ltb_spec q lo) as [Hlt'|Hge']; try reflexivity.
  - apply lt_IZR in Hlt; lia.
  - apply IZR_lt in Hlt'; contradiction.
  - destruct (Rgt_dec (IZR q) (IZR hi)) as [Hgt|Hle];
      destruct (Z.ltb_spec hi q) as [Hgt'|Hle']; try reflexivity.
    + apply Rgt_lt, lt_IZR in Hgt; lia.
    + apply IZR_lt in Hgt'. exfalso; apply Hle; exact Hgt'.
Qed.

(** ** [ComputeGlobalBoundingBox] *)

Section GlobalBoundingBoxFacts.

Variable ceil0 : R -> R.

(** What the statements below use of [ceil0]: it leaves integers alone. *)
Hypothesis ceil0_integer : forall z : Z, ceil0 (IZR z) = IZR z.

(** One corner whose dehomogenised coordinates are the integers [a], [b]. *)
Lemma corner_step_integer (images_size : Vec2u) (H : Mat3) (bbox : Vec4i)
    (divs : list R) (i : nat) (a b : Z) :
  let q := mvmul H (col34 (q_bounds images_size) i) in
  (INT_MIN <= a <= INT_MAX)%Z ->
  (INT_MIN <= b <= INT_MAX)%Z ->
  v3x q / v3z q = IZR a ->
  v3y q / v3z q = IZR b ->
  corner_step ceil0 images_size H (bbox, divs) i =
  (extend_bbox_Z a b bbox, divs ++ [v3z q]).
Proof.
  cbv zeta; intros Ra Rb Ha Hb. unfold corner_step, extend_bbox_Z.
  cbn [v3x v3y v3z].
  rewrite Ha, Hb, !ceil0_integer, !extend_range_IZR by assumption.
  destruct (extend_range_Z a (b0 bbox) (b1 bbox)) as [xmin xmax].
  destruct (extend_range_Z b (b2 bbox) (b3 bbox)) as [ymin ymax].
  reflexivity.
Qed.

(** The divisors never depend on the box: each corner step appends the
    homogeneous coordinate of the mapped corner. *)
Lemma corner_step_divisors (images_size : Vec2u) (H : Mat3)
    (acc : Vec4i * list R) (i : nat) :
  snd (corner_step ceil0 images_size H acc i) =
  snd acc ++ [v3z (mvmul H (col34 (q_bounds images_size) i))].
Proof.
  destruct acc as [bbox divs]; unfold corner_step; cbn [v3x v3y v3z snd].
  destruct (extend_range _ (b0 bbox) (b1 bbox)).
  destruct (extend_range _ (b2 bbox) (b3 bbox)).
  reflexivity.
Qed.

Lemma corners_divisors (images_size : Vec2u) (H : Mat3) (l : list nat)
    (acc : Vec4i * list R) :
  snd (fold_left (corner_step ceil0 images_size H) l acc) =
  snd acc ++ map (fun i => v3z (mvmul H (col34 (q_bounds images_size) i))) l.
Proof.
  revert acc; induction l as [|i l IH]; intros acc; cbn [fold_left map].
  - now rewrite app_nil_r.
  - rewrite IH, corner_step_divisors, <- app_assoc. reflexivity.
Qed.

Lemma transform_step_H (images_size : Vec2u) (st : bbox_state) (Hi : Mat3) :
  st_H (transform_step ceil0 images_size st Hi) = mmul Hi (st_H st).
Proof.
  unfold transform_step.
  destruct (fold_left _ _ _); reflexivity.
Qed.

Lemma transform_step_divisors (images_size : Vec2u) (st : bbox_state) (Hi : Mat3) :
  st_divisors (transform_step ceil0 images_size st Hi) =
  st_divisors st ++ corner_weights images_size (mmul Hi (st_H st)).
Proof.
  unfold transform_step, corner_weights.
  pose proof (corners_divisors images_size (mmul Hi (st_H st)) (seq 0 4)
                (st_bbox st, st_divisors st)) as E.
  destruct (fold_left _ _ _) as [bbox divs]; cbn [snd st_divisors] in *.
  exact E.
Qed.

Lemma run_divisors_from (images_size : Vec2u) (Hs : list Mat3) (st : bbox_state) :
  st_divisors (fold_left (transform_step ceil0 images_size) Hs st) =
  st_divisors st ++
  flat_map (corner_weights images_size) (absolute_transforms_from (st_H st) Hs).
Proof.
  revert st; induction Hs as [|Hi Hs IH]; intros st;
    cbn [fold_left absolute_transforms_from flat_map].
  - now rewrite app_nil_r.
  - rewrite IH, transform_step_divisors, transform_step_H, <- app_assoc.
    reflexivity.
Qed.

End GlobalBoundingBoxFacts.

(** The four corner updates of an identity transform, on the integers. *)
Lemma identity_corners_box (W H : Z) (bbox : Vec4i) :
  (0 <= W)%Z -> (0 <= H)%Z ->
  bbox = mkVec4i W 0 H 0 \/ bbox = mkVec4i 0 W 0 H ->
  extend_bbox_Z W 0 (extend_bbox_Z W H (extend_bbox_Z 0 H (extend_bbox_Z 0 0 bbox)))
  = mkVec4i 0 W 0 H.
Proof.
  intros HW HH [E|E]; subst bbox.
  - replace (extend_bbox_Z 0 0 (mkVec4i W 0 H 0)) with (mkVec4i 0 0 0 0)
      by (symmetry; box_step).
    replace (extend_bbox_Z 0 H (mkVec4i 0 0 0 0)) with (mkVec4i 0 0 0 H)
      by (symmetry; box_step).
    replace (extend_bbox_Z W H (mkVec4i 0 0 0 H)) with (mkVec4i 0 W 0 H)
      by (symmetry; box_step).
    box_step.
  - replace (extend_bbox_Z 0 0 (mkVec4i 0 W 0 H)) with (mkVec4i 0 W 0 H)
      by (symmetry; box_step).
    replace (extend_bbox_Z 0 H (mkVec4i 0 W 0 H)) with (mkVec4i 0 W 0 H)
      by (symmetry; box_step).
    replace (extend_bbox_Z W H (mkVec4i 0 W 0 H)) with (mkVec4i 0 W 0 H)
      by (symmetry; box_step).
    box_step.
Qed.

Section GlobalBoundingBoxIdentity.

Variable ceil0 : R -> R.
Hypothesis ceil0_integer : forall z : Z, ceil0 (IZR z) = IZR z.

Lemma corner_step_Identity3 (images_size : Vec2u) (bbox : Vec4i)
    (divs : list R) (i : nat) (a b : Z) :
  (INT_MIN <= a <= INT_MAX)%Z ->
  (INT_MIN <= b <= INT_MAX)%Z ->
  col34 (q_bounds images_size) i = mkVec3 (IZR a) (IZR b) 1 ->
  corner_step ceil0 images_size Identity3 (bbox, divs) i =
  (extend_bbox_Z a b bbox, divs ++ [1]).
Proof.
  intros Ra Rb E.
  rewrite (corner_step_integer ceil0 ceil0_integer images_size Identity3 bbox divs i a b
             Ra Rb);
    rewrite mvmul_1, E; cbn [v3x v3y v3z]; [reflexivity | field | field].
Qed.

Lemma transform_step_Identity3 (W H : Z) (st : bbox_state) :
  (0 <= W < 2 ^ 31)%Z -> (0 <= H < 2 ^ 31)%Z ->
  st_H st = Identity3 ->
  st_bbox st = mkVec4i W 0 H 0 \/ st_bbox st = mkVec4i 0 W 0 H ->
  st_H (transform_step ceil0 (mkVec2u W H) st Identity3) = Identity3 /\
  st_bbox (transform_step ceil0 (mkVec2u W H) st Identity3) = mkVec4i 0 W 0 H.
Proof.
  intros HW HH EH Ebox. split.
  - rewrite transform_step_H, EH. apply mmul_1_l.
  - unfold transform_step. rewrite EH, mmul_1_l. cbn [seq fold_left].
    rewrite (corner_step_Identity3 _ _ _ 0%nat 0 0)
      by (try reflexivity; unfold INT_MIN, INT_MAX; lia).
    rewrite (corner_step_Identity3 _ _ _ 1%nat 0 H)
      by (try reflexivity; unfold INT_MIN, INT_MAX; lia).
    rewrite (corner_step_Identity3 _ _ _ 2%nat W H)
      by (try reflexivity; unfold INT_MIN, INT_MAX; lia).
    rewrite (corner_step_Identity3 _ _ _ 3%nat W 0)
      by (try reflexivity; unfold INT_MIN, INT_MAX; lia).
    cbn [st_bbox]. apply identity_corners_box; [lia | lia | assumption].
Qed.

Lemma identity_chain_from (W H : Z) (n : nat) (st : bbox_state) :
  (0 <= W < 2 ^ 31)%Z -> (0 <= H < 2 ^ 31)%Z ->
  st_H st = Identity3 ->
  st_bbox st = mkVec4i 0 W 0 H ->
  st_bbox (fold_left (transform_step ceil0 (mkVec2u W H)) (repeat Identity3 n) st)
  = mkVec4i 0 W 0 H.
Proof.
  intros HW HH; revert st; induction n as [|n IH]; intros st EH Ebox;
    cbn [repeat fold_left].
  - exact Ebox.
  - destruct (transform_step_Identity3 W H st HW HH EH (or_intror Ebox)) as [E1 E2].
    apply IH; assumption.
Qed.

(** Claim C3.  For a chain of [N >= 1] identity transforms over [W x H] images
    (sizes that an [int] holds), and a [ceil0] that leaves integers alone,
    [ComputeGlobalBoundingBox] returns the box
    (xmin, xmax, ymin, ymax) = (0, W, 0, H). *)
Theorem ComputeGlobalBoundingBox_identity_chain (W H : Z) (N : nat) :
  (0 <= W < 2 ^ 31)%Z -> (0 <= H < 2 ^ 31)%Z -> (1 <= N)%nat ->
  ComputeGlobalBoundingBox ceil0 (mkVec2u W H) (repeat Identity3 N)
  = mkVec4i 0 W 0 H.
Proof.
  intros HW HH HN.
  destruct N as [|n]; [lia|].
  unfold ComputeGlobalBoundingBox, ComputeGlobalBoundingBox_run.
  cbn [repeat fold_left u0 u1].
  rewrite !int_of_unsigned_small by lia.
  set (st0 := mkState Identity3 (mkVec4i W 0 H 0) []).
  destruct (transform_step_Identity3 W H st0) as [E1 E2];
    [exact HW | exact HH | reflexivity | left; reflexivity |].
  apply identity_chain_from; [exact HW | exact HH | exact E1 | exact E2].
Qed.

(** Claim C9.  The box returned need not satisfy [xmin <= xmax].  For the
    one-transform chain [H_fold] over 8 x 8 images the mapped corners have
    x = 4, 3, 2, 1 in the order visited, each update takes the
    [q(0) < bbox(0)] branch, so xmax keeps its initial 0 while xmin ends at 1.
    The box of the empty chain is the initial (W, 0, H, 0).  In both,
    xmin > xmax. *)
Theorem ComputeGlobalBoundingBox_inverted_box :
  ComputeGlobalBoundingBox ceil0 (mkVec2u 8 8) [H_fold] = mkVec4i 1 0 0 1 /\
  ComputeGlobalBoundingBox ceil0 (mkVec2u 8 8) [] = mkVec4i 8 0 8 0 /\
  (b0 (ComputeGlobalBoundingBox ceil0 (mkVec2u 8 8) [H_fold]) >
   b1 (ComputeGlobalBoundingBox ceil0 (mkVec2u 8 8) [H_fold]))%Z.
Proof.
  assert (E : ComputeGlobalBoundingBox ceil0 (mkVec2u 8 8) [H_fold]
              = mkVec4i 1 0 0 1).
  { unfold ComputeGlobalBoundingBox, ComputeGlobalBoundingBox_run, transform_step.
    cbn [fold_left seq st_H st_bbox st_divisors u0 u1]. rewrite mmul_1_r.
    rewrite (corner_step_integer ceil0 ceil0_integer _ _ _ _ 0%nat 4 0);
      [| unfold INT_MIN, INT_MAX; lia | unfold INT_MIN, INT_MAX; lia
       | unfold H_fold; cbn; lra | unfold H_fold; cbn; lra].
    rewrite (corner_step_integer ceil0 ceil0_integer _ _ _ _ 1%nat 3 1);
      [| unfold INT_MIN, INT_MAX; lia | unfold INT_MIN, INT_MAX; lia
       | unfold H_fold; cbn; lra | unfold H_fold; cbn; lra].
    rewrite (corner_step_integer ceil0 ceil0_integer _ _ _ _ 2%nat 2 1);
      [| unfold INT_MIN, INT_MAX; lia | unfold INT_MIN, INT_MAX; lia
       | unfold H_fold; cbn; lra | unfold H_fold; cbn; lra].
    rewrite (corner_step_integer ceil0 ceil0_integer _ _ _ _ 3%nat 1 0);
      [| unfold INT_MIN, INT_MAX; lia | unfold INT_MIN, INT_MAX; lia
       | unfold H_fold; cbn; lra | unfold H_fold; cbn; lra].
    reflexivity. }
  split; [exact E|]. split; [reflexivity|].
  rewrite E; cbn [b0 b1]; lia.
Qed.

End GlobalBoundingBoxIdentity.

Lemma ComputeGlobalBoundingBox_identity_chain_witness :
  ComputeGlobalBoundingBox ceil0_ceiling (mkVec2u 640 480) (repeat Identity3 3)
  = mkVec4i 0 640 0 480.
Proof.
  apply (ComputeGlobalBoundingBox_identity_chain ceil0_ceiling ceil0_ceiling_IZR
           640 480 3); lia.
Defined.

Lemma ComputeGlobalBoundingBox_inverted_box_witness :
  (b0 (ComputeGlobalBoundingBox ceil0_ceiling (mkVec2u 8 8) [H_fold]) >
   b1 (ComputeGlobalBoundingBox ceil0_ceiling (mkVec2u 8 8) [H_fold]))%Z.
Proof.
  apply (ComputeGlobalBoundingBox_inverted_box ceil0_ceiling ceil0_ceiling_IZR).
Defined.

(** The assertions of [BuildMosaic] reject every box with [xmin <= xmax]
    (and every box with [ymin <= ymax]): they hold only for inverted boxes. *)
Lemma BuildMosaic_asserts_reject_ordered_box (bbox : Vec4i) :
  (b0 bbox <= b1 bbox)%Z \/ (b2 bbox <= b3 bbox)%Z ->
  BuildMosaic_asserts bbox = false.
Proof.
  intros H; unfold BuildMosaic_asserts.
  destruct (Z.ltb_spec (b1 bbox) (b0 bbox)); destruct (Z.ltb_spec (b3 bbox) (b2 bbox));
    cbn [andb]; try reflexivity; lia.
Qed.

(** Claim C8 as stated fails: with the relative transform [H_degenerate] every
    mapped corner has homogeneous coordinate 0; the four divisions are
    executed with divisor 0 and the call returns a box, it does not fail with
    [DegenerateProjection]. *)
Lemma ComputeGlobalBoundingBox_divides_by_zero :
  ComputeGlobalBoundingBox_divisors ceil0_ceiling (mkVec2u 8 8) [H_degenerate]
  = [0; 0; 0; 0] /\
  ComputeGlobalBoundingBox_call ceil0_ceiling (mkVec2u 8 8) [H_degenerate]
  <> Fails DegenerateProjection.
Proof.
  split; [|unfold ComputeGlobalBoundingBox_call; discriminate].
  unfold ComputeGlobalBoundingBox_divisors, ComputeGlobalBoundingBox_run.
  rewrite run_divisors_from.
  cbn [st_divisors st_H absolute_transforms_from flat_map app].
  unfold corner_weights, H_degenerate; cbn [seq map app].
  mat_unfold; cbn [col34 q_bounds u0 u1 v3x v3y v3z
                   p00 p01 p02 p03 p10 p11 p12 p13 p20 p21 p22 p23].
  repeat (f_equal; try ring).
Qed.

(** Claim C8, amended.  [ComputeGlobalBoundingBox] reports nothing and returns a
    box.  For every transform of the chain and every corner it executes the
    division [q /= q(2)] without a test: the divisors are, in order, the
    homogeneous coordinates of the four corners mapped by each absolute
    transform [Hs[k] * ... * Hs[0]], whatever their value. *)
Theorem ComputeGlobalBoundingBox_divides_unconditionally
    (ceil0 : R -> R) (images_size : Vec2u) (Hs : list Mat3) :
  ComputeGlobalBoundingBox_call ceil0 images_size Hs
  = Returns (ComputeGlobalBoundingBox ceil0 images_size Hs) /\
  ComputeGlobalBoundingBox_divisors ceil0 images_size Hs
  = flat_map (corner_weights images_size) (absolute_transforms Hs) /\
  length (ComputeGlobalBoundingBox_divisors ceil0 images_size Hs)
  = (4 * length Hs)%nat.
Proof.
  assert (E : ComputeGlobalBoundingBox_divisors ceil0 images_size Hs
              = flat_map (corner_weights images_size) (absolute_transforms Hs)).
  { unfold ComputeGlobalBoundingBox_divisors, ComputeGlobalBoundingBox_run.
    rewrite run_divisors_from. reflexivity. }
  split; [reflexivity|]. split; [exact E|].
  rewrite E; clear E. unfold absolute_transforms. generalize Identity3.
  induction Hs as [|Hi Hs IH]; intros H0; cbn [absolute_transforms_from flat_map].
  - reflexivity.
  - rewrite length_app, IH. unfold corner_weights. rewrite length_map, length_seq.
    cbn [length]. lia.
Qed.

(** On a chain of affine matrices every divisor is 1: no division by zero
    occurs there. *)
Lemma affine_mmul (A B : Mat3) : affine A -> affine B -> affine (mmul A B).
Proof.
  unfold affine; intros (A0 & A1 & A2) (B0 & B1 & B2).
  mat_destruct; mat_unfold; subst; repeat split; ring.
Qed.

Lemma affine_corner_weights (images_size : Vec2u) (H : Mat3) :
  affine H -> Forall (fun w => w = 1) (corner_weights images_size H).
Proof.
  unfold affine; intros (A0 & A1 & A2).
  unfold corner_weights; cbn [seq map].
  mat_destruct; mat_unfold; subst.
  repeat constructor; cbn [col34 q_bounds u0 u1 v3x v3y v3z
    p00 p01 p02 p03 p10 p11 p12 p13 p20 p21 p22 p23]; ring.
Qed.

Lemma affine_chain_divisors (ceil0 : R -> R) (images_size : Vec2u)
    (Hs : list Mat3) :
  Forall affine Hs ->
  Forall (fun w => w = 1) (ComputeGlobalBoundingBox_divisors ceil0 images_size Hs).
Proof.
  intros HA.
  unfold ComputeGlobalBoundingBox_divisors, ComputeGlobalBoundingBox_run.
  rewrite run_divisors_from; cbn [st_divisors st_H app].
  assert (H0 : affine Identity3) by (unfold affine; cbn; auto).
  revert H0; generalize Identity3.
  induction HA as [|Hi Hs Hi_aff _ IH]; intros H0 Haff;
    cbn [absolute_transforms_from flat_map].
  - constructor.
  - apply Forall_app; split.
    + apply affine_corner_weights, affine_mmul; assumption.
    + apply IH, affine_mmul; assumption.
Qed.

(** ** Relative transforms *)

Section RelativeMatricesFacts.

Variable ImageID : Type.
Variable Matches : Type.
Variable get_images : Matches -> list ImageID.
Variable TwoViewPointMatchMatrices : Matches -> ImageID -> ImageID -> Mat * Mat.
Variable AffineFromCorrespondences2PointRobust :
  Mat -> Mat -> R -> Mat3 -> R -> Mat3.
Variable HomographyFromCorrespondences4PointRobust :
  Mat -> Mat -> R -> Mat3 -> R -> Mat3.
Variable indeterminate : Mat3.

(** A pair with fewer than [min_cols] correspondences leaves the whole state
    of the loop as it is: no estimation, nothing pushed, nothing reported. *)
Lemma relative_matrices_loop_skip (min_cols : nat)
    (estimate : Mat -> Mat -> R -> Mat3 -> R -> Mat3) (matches : Matches)
    (p e : R) (prev cur : ImageID) (rest : list ImageID) (A : Mat3)
    (As : list Mat3) :
  (cols (fst (TwoViewPointMatchMatrices matches prev cur)) < min_cols)%nat ->
  relative_matrices_loop ImageID Matches TwoViewPointMatchMatrices min_cols
    estimate matches p e prev (cur :: rest) A As
  = relative_matrices_loop ImageID Matches TwoViewPointMatchMatrices min_cols
      estimate matches p e cur rest A As.
Proof.
  intros Hlt; cbn [relative_matrices_loop].
  destruct (Nat.leb_spec min_cols
              (cols (fst (TwoViewPointMatchMatrices matches prev cur))));
    [lia | reflexivity].
Qed.

(** The loop computes the estimator chain over the pairs that pass the test. *)
Lemma relative_matrices_loop_spec (min_cols : nat)
    (estimate : Mat -> Mat -> R -> Mat3 -> R -> Mat3) (matches : Matches)
    (p e : R) (rest : list ImageID) :
  forall (prev : ImageID) (A : Mat3) (As : list Mat3),
  relative_matrices_loop ImageID Matches TwoViewPointMatchMatrices min_cols
    estimate matches p e prev rest A As
  = As ++ estimate_chain estimate p e A
            (filter (enough min_cols)
               (map (fun ab => TwoViewPointMatchMatrices matches (fst ab) (snd ab))
                    (pairs_from prev rest))).
Proof.
  induction rest as [|cur rest IH]; intros prev A As;
    cbn [relative_matrices_loop pairs_from map filter fst snd].
  - cbn [estimate_chain]. now rewrite app_nil_r.
  - unfold enough at 1.
    destruct (min_cols <=? cols (fst (TwoViewPointMatchMatrices matches prev cur)))%nat.
    + rewrite IH. cbn [estimate_chain]. rewrite <- app_assoc. reflexivity.
    + apply IH.
Qed.

(** The chain both functions write: the chain they were given, followed by
    what the estimator gives on the adjacent pairs that pass the test, in
    order. *)
Lemma relative_matrices_chain (matches : Matches)
    (chain : list Mat3) (p e : R) :
  ComputeRelativeAffineMatrices ImageID Matches get_images
    TwoViewPointMatchMatrices AffineFromCorrespondences2PointRobust
    indeterminate matches chain p e
  = chain ++ estimate_chain AffineFromCorrespondences2PointRobust p e
               indeterminate
               (filter (enough 2)
                  (pair_matrices ImageID Matches get_images
                     TwoViewPointMatchMatrices matches)) /\
  ComputeRelativeHomographyMatrices ImageID Matches get_images
    TwoViewPointMatchMatrices HomographyFromCorrespondences4PointRobust
    indeterminate matches chain p e
  = chain ++ estimate_chain HomographyFromCorrespondences4PointRobust p e
               indeterminate
               (filter (enough 4)
                  (pair_matrices ImageID Matches get_images
                     TwoViewPointMatchMatrices matches)).
Proof.
  unfold ComputeRelativeAffineMatrices, ComputeRelativeHomographyMatrices,
    pair_matrices, adjacent_pairs.
  destruct (get_images matches) as [|first rest].
  - cbn [map filter estimate_chain]. rewrite app_nil_r. split; reflexivity.
  - rewrite !relative_matrices_loop_spec. split; reflexivity.
Qed.

Lemma estimate_chain_length (estimate : Mat -> Mat -> R -> Mat3 -> R -> Mat3)
    (p e : R) (pairs : list (Mat * Mat)) :
  forall A : Mat3, length (estimate_chain estimate p e A pairs) = length pairs.
Proof.
  induction pairs as [|xs2 pairs IH]; intros A; cbn [estimate_chain length].
  - reflexivity.
  - now rewrite IH.
Qed.

End RelativeMatricesFacts.

(** Claim C6.  For a database of two images related by one correspondence
    (fewer than 2, and fewer than 4), both functions return with the chain
    unchanged, here empty: no [InsufficientCorrespondences] is reported, and
    the transform [A1] of the pair, which the documentation of both functions
    promises ([q2 = A1 q1]), is missing from the chain. *)
Theorem relative_matrices_short_pair_silent :
  length (two_images tt) = 2%nat /\
  (cols (fst (one_match_between tt 0%nat 1%nat)) < 2)%nat /\
  ComputeRelativeAffineMatrices_call nat unit two_images one_match_between
    keep_matrix Identity3 tt [] 0.01 1 = Returns [] /\
  ComputeRelativeHomographyMatrices_call nat unit two_images one_match_between
    keep_matrix Identity3 tt [] 0.01 1 = Returns [] /\
  ComputeRelativeAffineMatrices_call nat unit two_images one_match_between
    keep_matrix Identity3 tt [] 0.01 1 <> Fails InsufficientCorrespondences /\
  ComputeRelativeHomographyMatrices_call nat unit two_images one_match_between
    keep_matrix Identity3 tt [] 0.01 1 <> Fails InsufficientCorrespondences.
Proof.
  split; [reflexivity|].
  split; [cbn; lia|].
  split; [reflexivity|]. split; [reflexivity|].
  split; discriminate.
Qed.

(** ** The rank-2 parameterization *)

Lemma mtrans_diag3 (a b c : R) : mtrans (diag3 a b c) = diag3 a b c.
Proof. reflexivity. Qed.

Lemma mmul_diag3 (a b c a' b' c' : R) :
  mmul (diag3 a b c) (diag3 a' b' c') = diag3 (a * a') (b * b') (c * c').
Proof. mat_unfold; f_equal; ring. Qed.

Lemma mmul_msub_distr_l (A B C : Mat3) :
  mmul A (msub B C) = msub (mmul A B) (mmul A C).
Proof. mat_ring. Qed.

Lemma mmul_msub_distr_r (A B C : Mat3) :
  mmul (msub A B) C = msub (mmul A C) (mmul B C).
Proof. mat_ring. Qed.

Lemma mmul_mscale_l (c : R) (A B : Mat3) :
  mmul (mscale c A) B = mscale c (mmul A B).
Proof. mat_ring. Qed.

Lemma mmul_mscale_r (c : R) (A B : Mat3) :
  mmul A (mscale c B) = mscale c (mmul A B).
Proof. mat_ring. Qed.

Lemma mscale_mscale (c d : R) (A : Mat3) :
  mscale c (mscale d A) = mscale (c * d) A.
Proof. mat_ring. Qed.

Lemma mneg_mscale (A : Mat3) : mneg A = mscale (-1) A.
Proof. mat_ring. Qed.

(** The singular values are the square roots of the eigenvalues of
    [F^T F]: its characteristic polynomial has the roots [a^2], [b^2], [c^2]. *)
Lemma singular_values_charpoly (F : Mat3) (a b c : R) :
  singular_values F a b c ->
  forall l : R,
    det3 (msub (mmul (mtrans F) F) (mscale l Identity3))
    = (a * a - l) * (b * b - l) * (c * c - l).
Proof.
  intros (U & V & HF & [_ HU] & [HV1 HV2] & _) l; cbn [v3x v3y v3z] in HF.
  assert (E : mmul (mtrans F) F
              = mmul (mmul V (diag3 (a * a) (b * b) (c * c))) (mtrans V)).
  { rewrite HF, !mtrans_mmul, mtrans_involutive, mtrans_diag3.
    rewrite !mmul_assoc, <- (mmul_assoc (mtrans U)), HU, mmul_1_l.
    rewrite <- (mmul_assoc (diag3 a b c)), mmul_diag3. reflexivity. }
  assert (E' : mscale l Identity3
               = mmul (mmul V (mscale l Identity3)) (mtrans V)).
  { rewrite mmul_mscale_r, mmul_1_r, mmul_mscale_l, HV1. reflexivity. }
  rewrite E, E', <- mmul_msub_distr_r, <- mmul_msub_distr_l, !det3_mmul, det3_mtrans.
  assert (HdV : det3 V * det3 V = 1) by (apply orthogonal_det_sq; split; assumption).
  replace (det3 (msub (diag3 (a * a) (b * b) (c * c)) (mscale l Identity3)))
    with ((a * a - l) * (b * b - l) * (c * c - l)) by (mat_unfold; ring).
  transitivity ((det3 V * det3 V) * ((a * a - l) * (b * b - l) * (c * c - l)));
    [ring | rewrite HdV; ring].
Qed.

(** Sorted non-negative triples with the same squares-polynomial coincide:
    the singular values of a matrix are determined by the matrix. *)
Lemma sorted_roots_unique (A B C A' B' C' : R) :
  A >= B -> B >= C -> C >= 0 -> A' >= B' -> B' >= C' -> C' >= 0 ->
  (forall l : R, (A - l) * (B - l) * (C - l) = (A' - l) * (B' - l) * (C' - l)) ->
  A = A' /\ B = B' /\ C = C'.
Proof.
  intros HAB HBC HC HAB' HBC' HC' Hpoly.
  pose proof (Hpoly A) as PA. pose proof (Hpoly A') as PA'.
  pose proof (Hpoly C) as PC. pose proof (Hpoly C') as PC'.
  pose proof (Hpoly 0) as P0. pose proof (Hpoly 1) as P1.
  pose proof (Hpoly (-1)) as Pm.
  assert (EA : A = A').
  { assert (H1 : A <= A').
    { assert (Z : (A' - A) * (B' - A) * (C' - A) = 0) by (rewrite <- PA; ring).
      destruct (Rmult_integral _ _ Z) as [Z'|Z'];
        [destruct (Rmult_integral _ _ Z') as [Z''|Z'']|]; lra. }
    assert (H2 : A' <= A).
    { assert (Z : (A - A') * (B - A') * (C - A') = 0) by (rewrite PA'; ring).
      destruct (Rmult_integral _ _ Z) as [Z'|Z'];
        [destruct (Rmult_integral _ _ Z') as [Z''|Z'']|]; lra. }
    lra. }
  assert (EC : C = C').
  { assert (H1 : C' <= C).
    { assert (Z : (A' - C) * (B' - C) * (C' - C) = 0) by (rewrite <- PC; ring).
      destruct (Rmult_integral _ _ Z) as [Z'|Z'];
        [destruct (Rmult_integral _ _ Z') as [Z''|Z'']|]; lra. }
    assert (H2 : C <= C').
    { assert (Z : (A - C') * (B - C') * (C - C') = 0) by (rewrite PC'; ring).
      destruct (Rmult_integral _ _ Z) as [Z'|Z'];
        [destruct (Rmult_integral _ _ Z') as [Z''|Z'']|]; lra. }
    lra. }
  split; [exact EA|]. split; [|exact EC].
  subst A' C'. nra.
Qed.

Lemma singular_values_unique (F : Mat3) (a b c a' b' c' : R) :
  singular_values F a b c -> singular_values F a' b' c' ->
  a = a' /\ b = b' /\ c = c'.
Proof.
  intros H H'.
  pose proof (singular_values_charpoly F a b c H) as P.
  pose proof (singular_values_charpoly F a' b' c' H') as P'.
  destruct H as (U & V & _ & _ & _ & Hab & Hbc & Hc).
  destruct H' as (U' & V' & _ & _ & _ & Hab' & Hbc' & Hc').
  cbn [v3x v3y v3z] in *.
  destruct (sorted_roots_unique (a * a) (b * b) (c * c) (a' * a') (b' * b') (c' * c'))
    as (Ea & Eb & Ec);
    [nra | nra | nra | nra | nra | nra
    | intros l; rewrite <- P, <- P'; reflexivity | ].
  repeat split; nra.
Qed.

Lemma sigma_range (s : R) : 0 < 1 / (1 + s * s) <= 1.
Proof.
  assert (H : 1 <= 1 + s * s) by nra.
  split.
  - apply Rdiv_lt_0_compat; lra.
  - apply (Rmult_le_reg_r (1 + s * s)); [lra|].
    unfold Rdiv; rewrite Rmult_assoc, Rinv_l by lra. lra.
Qed.

Section FundamentalParameterizationTo.

Variable toRotationMatrix : Quaternion -> Mat3.

(** Whenever [toRotationMatrix] yields rotation matrices for the two
    quaternions [u = p[0..3]] and [vt = p[5..8]], the matrix [To p] has the
    singular values (1, sigma, 0) with sigma = 1 / (1 + p[4]^2), and
    0 < sigma <= 1. *)
Lemma To_singular_values (p : Parameters) :
  is_rotation (toRotationMatrix (start4 p)) ->
  is_rotation (toRotationMatrix (end4 p)) ->
  singular_values (To toRotationMatrix p) 1 (1 / (1 + pr4 p * pr4 p)) 0 /\
  0 < 1 / (1 + pr4 p * pr4 p) <= 1.
Proof.
  intros [HU _] [HV _].
  pose proof (sigma_range (pr4 p)) as Hs.
  split; [|exact Hs].
  exists (toRotationMatrix (start4 p)), (mtrans (toRotationMatrix (end4 p))).
  unfold is_svd; cbn [v3x v3y v3z].
  split; [|split; [exact HU | split; [apply orthogonal_mtrans, HV | lra]]].
  rewrite mtrans_involutive. reflexivity.
Qed.

End FundamentalParameterizationTo.

(** Eigen's conversion gives a rotation matrix for a quaternion of norm 1. *)
Lemma rotation_of_unit_quaternion_is_rotation (q : Quaternion) :
  qx q * qx q + qy q * qy q + qz q * qz q + qw q * qw q = 1 ->
  is_rotation (rotation_of_unit_quaternion q).
Proof.
  destruct q as [x y z w]; cbn [qx qy qz qw]; intros H.
  unfold rotation_of_unit_quaternion; cbn [qx qy qz qw].
  repeat split; mat_unfold; try f_equal; nsatz.
Qed.

Lemma normalized_unit (q : Quaternion) :
  qx q * qx q + qy q * qy q + qz q * qz q + qw q * qw q <> 0 ->
  let n := normalized q in
  qx n * qx n + qy n * qy n + qz n * qz n + qw n * qw n = 1.
Proof.
  destruct q as [x y z w]; cbn [qx qy qz qw]; intros H; cbv zeta.
  unfold normalized, quaternion_norm; cbn [qx qy qz qw].
  remember (x * x + y * y + z * z + w * w) as S eqn:ES.
  assert (HS : 0 < S) by (subst S; nra).
  assert (Hn : 0 < sqrt S) by (apply sqrt_lt_R0; exact HS).
  assert (Hsq : sqrt S * sqrt S = S) by (apply sqrt_sqrt; lra).
  replace (x / sqrt S * (x / sqrt S) + y / sqrt S * (y / sqrt S)
           + z / sqrt S * (z / sqrt S) + w / sqrt S * (w / sqrt S))
    with ((x * x + y * y + z * z + w * w) / (sqrt S * sqrt S)) by (field; lra).
  rewrite Hsq, <- ES. field. lra.
Qed.

(** With parameters whose two quaternions have norm 1 the singular values of
    [To p] are (1, sigma, 0). *)
Lemma To_singular_values_unit (p : Parameters) :
  pr0 p * pr0 p + pr1 p * pr1 p + pr2 p * pr2 p + pr3 p * pr3 p = 1 ->
  pr5 p * pr5 p + pr6 p * pr6 p + pr7 p * pr7 p + pr8 p * pr8 p = 1 ->
  singular_values (To rotation_of_unit_quaternion p) 1 (1 / (1 + pr4 p * pr4 p)) 0.
Proof.
  intros Hu Hv.
  apply (To_singular_values rotation_of_unit_quaternion p);
    apply rotation_of_unit_quaternion_is_rotation; assumption.
Qed.

Lemma To_p_unnormalized :
  To rotation_of_unit_quaternion p_unnormalized = diag3 1 (- (17 / 2)) 0.
Proof.
  unfold To, p_unnormalized, rotation_of_unit_quaternion, start4, end4;
    cbn [pr0 pr1 pr2 pr3 pr4 pr5 pr6 pr7 pr8 qx qy qz qw].
  mat_unfold. f_equal; field.
Qed.

(** Claim C4.  [To] hands the raw quaternions [p[0..3]] and [p[5..8]] to
    [toRotationMatrix], which does not normalise.  At the parameter vector
    (0, 0, 0, 2, 1, 3, 0, 0, 0) the two matrices are [I] and
    [diag(1, -17, -17)], not both rotations, and [To] gives
    [diag(1, -17/2, 0)]: its singular values are (17/2, 1, 0), not
    (1, sigma, 0) = (1, 1/2, 0). *)
Theorem To_unnormalized_singular_values :
  To rotation_of_unit_quaternion p_unnormalized = diag3 1 (- (17 / 2)) 0 /\
  ~ is_rotation (rotation_of_unit_quaternion (end4 p_unnormalized)) /\
  singular_values (To rotation_of_unit_quaternion p_unnormalized) (17 / 2) 1 0 /\
  ~ singular_values (To rotation_of_unit_quaternion p_unnormalized)
      1 (1 / (1 + pr4 p_unnormalized * pr4 p_unnormalized)) 0.
Proof.
  assert (S : singular_values (To rotation_of_unit_quaternion p_unnormalized)
                (17 / 2) 1 0).
  { rewrite To_p_unnormalized.
    exists (mkMat3 0 1 0 (-1) 0 0 0 0 1), (mkMat3 0 1 0 1 0 0 0 0 1).
    unfold is_svd; cbn [v3x v3y v3z].
    split; [mat_unfold; f_equal; field|].
    split; [split; mat_unfold; f_equal; ring|].
    split; [split; mat_unfold; f_equal; ring|]. lra. }
  split; [exact To_p_unnormalized|]. split; [|split; [exact S|]].
  - intros [_ Hd]. revert Hd.
    unfold p_unnormalized, end4, rotation_of_unit_quaternion;
      cbn [pr5 pr6 pr7 pr8 qx qy qz qw]. mat_unfold. lra.
  - intros S'.
    destruct (singular_values_unique _ _ _ _ _ _ _ S S') as (E & _). lra.
Qed.

(** ** The closest rank-2 matrix (Eckart-Young, 3x3) *)

Lemma frobenius2_trace (A : Mat3) : frobenius2 A = trace3 (mmul (mtrans A) A).
Proof. intros; mat_destruct; vec_unfold; ring. Qed.

Lemma frobenius2_mtrans (A : Mat3) : frobenius2 (mtrans A) = frobenius2 A.
Proof. intros; mat_destruct; vec_unfold; ring. Qed.

Lemma frobenius2_nonneg (A : Mat3) : 0 <= frobenius2 A.
Proof. intros; mat_destruct; vec_unfold; nra. Qed.

Lemma frobenius2_orthogonal_l (U A : Mat3) :
  orthogonal U -> frobenius2 (mmul U A) = frobenius2 A.
Proof.
  intros [_ HU]. rewrite !frobenius2_trace, mtrans_mmul.
  rewrite mmul_assoc, <- (mmul_assoc (mtrans U)), HU, mmul_1_l. reflexivity.
Qed.

Lemma frobenius2_orthogonal_r (A V : Mat3) :
  orthogonal V -> frobenius2 (mmul A (mtrans V)) = frobenius2 A.
Proof.
  intros HV. rewrite <- frobenius2_mtrans, mtrans_mmul, mtrans_involutive.
  rewrite frobenius2_orthogonal_l by exact HV. apply frobenius2_mtrans.
Qed.

Lemma norm_mvmul (A : Mat3) (x : Vec3) :
  dot (mvmul A x) (mvmul A x) = dot x (mvmul (mmul (mtrans A) A) x).
Proof. intros; mat_destruct; vec_unfold; ring. Qed.

Lemma norm_orthogonal (V : Mat3) (x : Vec3) :
  orthogonal V -> dot (mvmul V x) (mvmul V x) = dot x x.
Proof. intros [_ HV]. rewrite norm_mvmul, HV, mvmul_1. reflexivity. Qed.

(** Cauchy-Schwarz, row by row. *)
Lemma cauchy_schwarz3 (a b c x y z : R) :
  (a * x + b * y + c * z) * (a * x + b * y + c * z)
  <= (a * a + b * b + c * c) * (x * x + y * y + z * z).
Proof.
  replace ((a * a + b * b + c * c) * (x * x + y * y + z * z))
    with ((a * x + b * y + c * z) * (a * x + b * y + c * z)
          + ((a * y - b * x) * (a * y - b * x)
             + (a * z - c * x) * (a * z - c * x)
             + (b * z - c * y) * (b * z - c * y))) by ring.
  pose proof (Rle_0_sqr (a * y - b * x)) as H1.
  pose proof (Rle_0_sqr (a * z - c * x)) as H2.
  pose proof (Rle_0_sqr (b * z - c * y)) as H3.
  unfold Rsqr in *.
  set (t := (a * x + b * y + c * z) * (a * x + b * y + c * z)).
  set (s1 := (a * y - b * x) * (a * y - b * x)) in *.
  set (s2 := (a * z - c * x) * (a * z - c * x)) in *.
  set (s3 := (b * z - c * y) * (b * z - c * y)) in *.
  lra.
Qed.

Lemma norm_mvmul_frobenius (A : Mat3) (x : Vec3) :
  dot (mvmul A x) (mvmul A x) <= frobenius2 A * dot x x.
Proof.
  destruct A as [a00 a01 a02 a10 a11 a12 a20 a21 a22]; destruct x as [x y z].
  vec_unfold.
  pose proof (cauchy_schwarz3 a00 a01 a02 x y z) as H0.
  pose proof (cauchy_schwarz3 a10 a11 a12 x y z) as H1.
  pose proof (cauchy_schwarz3 a20 a21 a22 x y z) as H2.
  rewrite !Rmult_plus_distr_r.
  set (n := x * x + y * y + z * z) in *.
  lra.
Qed.

(** A vector orthogonal to a non-zero [r], and hence to every vector
    parallel to [r]. *)
Lemma orthogonal_vector (r : Vec3) :
  dot r r <> 0 ->
  exists x : Vec3,
    0 < dot x x /\ dot r x = 0 /\
    forall r' : Vec3, cross r' r = zero3 -> dot r' x = 0.
Proof.
  destruct r as [a b c]; intros Hr.
  destruct (Req_dec_T a 0) as [Ea|Na]; [destruct (Req_dec_T b 0) as [Eb|Nb]|].
  - exists (mkVec3 1 0 0). subst a b. vec_unfold.
    assert (Hc : c <> 0) by (intros E; apply Hr; subst c; ring).
    split; [lra|]. split; [ring|].
    intros [d e f] H; injection H as H1 H2 H3; cbn [v3x v3y v3z] in *.
    assert (E : d * c = 0) by lra.
    destruct (Rmult_integral _ _ E) as [E'|E']; [rewrite E'; ring | contradiction].
  - exists (mkVec3 b (- a) 0). vec_unfold.
    split; [nra|]. split; [ring|].
    intros [d e f] H; injection H as H1 H2 H3; cbn [v3x v3y v3z] in *. lra.
  - exists (mkVec3 b (- a) 0). vec_unfold.
    split; [nra|]. split; [ring|].
    intros [d e f] H; injection H as H1 H2 H3; cbn [v3x v3y v3z] in *. lra.
Qed.

Lemma cross_antisym (a b : Vec3) : cross a b = zero3 -> cross b a = zero3.
Proof.
  destruct a, b; vec_unfold; intros H; injection H as H1 H2 H3.
  f_equal; lra.
Qed.

Lemma cross_zero_l (b : Vec3) : dot b b = 0 -> forall a, cross b a = zero3.
Proof.
  destruct b as [x y z]; vec_unfold; intros H [a b c]; cbn [v3x v3y v3z].
  assert (x = 0) by nra. assert (y = 0) by nra. assert (z = 0) by nra.
  subst; f_equal; ring.
Qed.

Lemma mvmul_rows (B : Mat3) (x : Vec3) :
  mvmul B x = mkVec3 (dot (row0 B) x) (dot (row1 B) x) (dot (row2 B) x).
Proof. destruct B, x; reflexivity. Qed.

Lemma norm_zero_dec (v : Vec3) : {dot v v = 0} + {dot v v <> 0}.
Proof. apply Req_dec_T. Qed.

Lemma norm_pos (v : Vec3) : dot v v <> 0 -> 0 < dot v v.
Proof. destruct v; vec_unfold; intros H; nra. Qed.

(** A singular 3x3 matrix has a non-zero vector in its kernel. *)
Lemma singular_null_vector (B : Mat3) :
  det3 B = 0 -> exists x : Vec3, 0 < dot x x /\ mvmul B x = zero3.
Proof.
  intros Hdet.
  (* the cross products of the rows are in the kernel *)
  assert (K01 : mvmul B (cross (row0 B) (row1 B)) = zero3).
  { destruct B; vec_unfold; f_equal; lra. }
  assert (K02 : mvmul B (cross (row0 B) (row2 B)) = zero3).
  { destruct B; vec_unfold; f_equal; lra. }
  assert (K12 : mvmul B (cross (row1 B) (row2 B)) = zero3).
  { destruct B; vec_unfold; f_equal; lra. }
  destruct (norm_zero_dec (cross (row0 B) (row1 B))) as [Z01|N01];
    [|exists (cross (row0 B) (row1 B)); split; [apply norm_pos, N01 | exact K01]].
  destruct (norm_zero_dec (cross (row0 B) (row2 B))) as [Z02|N02];
    [|exists (cross (row0 B) (row2 B)); split; [apply norm_pos, N02 | exact K02]].
  destruct (norm_zero_dec (cross (row1 B) (row2 B))) as [Z12|N12];
    [|exists (cross (row1 B) (row2 B)); split; [apply norm_pos, N12 | exact K12]].
  clear K01 K02 K12.
  (* all rows are parallel *)
  assert (C01 : cross (row0 B) (row1 B) = zero3).
  { destruct (cross (row0 B) (row1 B)) as [x y z]; vec_unfold.
    assert (x = 0) by nra. assert (y = 0) by nra. assert (z = 0) by nra.
    subst; reflexivity. }
  assert (C02 : cross (row0 B) (row2 B) = zero3).
  { destruct (cross (row0 B) (row2 B)) as [x y z]; vec_unfold.
    assert (x = 0) by nra. assert (y = 0) by nra. assert (z = 0) by nra.
    subst; reflexivity. }
  assert (C12 : cross (row1 B) (row2 B) = zero3).
  { destruct (cross (row1 B) (row2 B)) as [x y z]; vec_unfold.
    assert (x = 0) by nra. assert (y = 0) by nra. assert (z = 0) by nra.
    subst; reflexivity. }
  clear Z01 Z02 Z12.
  destruct (norm_zero_dec (row0 B)) as [Z0|N0].
  - destruct (norm_zero_dec (row1 B)) as [Z1|N1].
    + destruct (norm_zero_dec (row2 B)) as [Z2|N2].
      * exists (mkVec3 1 0 0). split; [vec_unfold; lra|].
        destruct B; vec_unfold.
        f_equal; nra.
      * destruct (orthogonal_vector (row2 B) N2) as (x & Hx & H2 & Hpar).
        exists x. split; [exact Hx|]. rewrite mvmul_rows. unfold zero3.
        f_equal; [apply Hpar, cross_zero_l, Z0 | apply Hpar, cross_zero_l, Z1 | exact H2].
    + destruct (orthogonal_vector (row1 B) N1) as (x & Hx & H1 & Hpar).
      exists x. split; [exact Hx|]. rewrite mvmul_rows. unfold zero3.
      f_equal; [apply Hpar, cross_zero_l, Z0 | exact H1
               | apply Hpar, cross_antisym, C12].
  - destruct (orthogonal_vector (row0 B) N0) as (x & Hx & H0 & Hpar).
    exists x. split; [exact Hx|]. rewrite mvmul_rows. unfold zero3.
    f_equal; [exact H0 | apply Hpar, cross_antisym, C01
             | apply Hpar, cross_antisym, C02].
Qed.

(** The smallest singular value bounds [|M x|] from below. *)
Lemma svd_lower_bound (M U : Mat3) (sv : Vec3) (V : Mat3) (x : Vec3) :
  is_svd M U sv V ->
  v3z sv * v3z sv * dot x x <= dot (mvmul M x) (mvmul M x).
Proof.
  intros (HM & HU & HV & Hab & Hbc & Hc).
  rewrite HM, !mvmul_mmul, (norm_orthogonal U) by exact HU.
  rewrite <- (norm_orthogonal (mtrans V) x) by (apply orthogonal_mtrans, HV).
  destruct (mvmul (mtrans V) x) as [y0 y1 y2].
  destruct sv as [a b c]; vec_unfold.
  assert (Ha : c * c <= a * a) by nra.
  assert (Hb : c * c <= b * b) by nra.
  pose proof (Rle_0_sqr y0) as S0. pose proof (Rle_0_sqr y1) as S1.
  unfold Rsqr in *.
  replace ((a * y0 + 0 * y1 + 0 * y2) * (a * y0 + 0 * y1 + 0 * y2)
           + (0 * y0 + b * y1 + 0 * y2) * (0 * y0 + b * y1 + 0 * y2)
           + (0 * y0 + 0 * y1 + c * y2) * (0 * y0 + 0 * y1 + c * y2))
    with (a * a * (y0 * y0) + b * b * (y1 * y1) + c * c * (y2 * y2)) by ring.
  nra.
Qed.

Lemma mvmul_msub (A B : Mat3) (x : Vec3) :
  mvmul B x = zero3 -> mvmul (msub A B) x = mvmul A x.
Proof.
  destruct A, B, x; vec_unfold; intros H; injection H as H1 H2 H3.
  f_equal; lra.
Qed.

Lemma det3_diag3 (a b c : R) : det3 (diag3 a b c) = a * b * c.
Proof. mat_unfold; ring. Qed.

(** Eckart-Young for 3x3 matrices: truncating a singular value decomposition
    to its two largest singular values gives a closest matrix of rank at most
    2 in the Frobenius norm. *)
Lemma rank2_truncation_closest (M U : Mat3) (sv : Vec3) (V : Mat3) :
  is_svd M U sv V -> closest_rank2 M (rank2_truncation U sv V).
Proof.
  intros Hsvd. pose proof Hsvd as (HM & HU & HV & Hab & Hbc & Hc).
  unfold closest_rank2, rank2_truncation. split.
  - rewrite !det3_mmul, det3_diag3. ring.
  - intros B HB.
    assert (E : frobenius2
                  (msub M (mmul (mmul U (diag3 (v3x sv) (v3y sv) 0)) (mtrans V)))
                = v3z sv * v3z sv).
    { rewrite HM at 1.
      rewrite <- mmul_msub_distr_r, <- mmul_msub_distr_l.
      rewrite frobenius2_orthogonal_r, frobenius2_orthogonal_l by assumption.
      vec_unfold; ring. }
    rewrite E.
    destruct (singular_null_vector B HB) as (x & Hx & HBx).
    pose proof (svd_lower_bound M U sv V x Hsvd) as Hlow.
    pose proof (norm_mvmul_frobenius (msub M B) x) as Hup.
    rewrite (mvmul_msub M B x HBx) in Hup.
    apply (Rmult_le_reg_r (dot x x)); [exact Hx | lra].
Qed.

(** ** [To] after [From] *)

Lemma start4_pack (u vt : Quaternion) (s : R) : start4 (pack u s vt) = u.
Proof. destruct u; reflexivity. Qed.

Lemma end4_pack (u vt : Quaternion) (s : R) : end4 (pack u s vt) = vt.
Proof. destruct vt; reflexivity. Qed.

Lemma pr4_pack (u vt : Quaternion) (s : R) : pr4 (pack u s vt) = s.
Proof. reflexivity. Qed.

(** The singular value matrix [To] builds from what [From] stores. *)
Lemma sigma_of_ratio (a b : R) :
  a >= b -> 0 < b ->
  mkMat3 1 0 0 0 (1 / (1 + sqrt (a / b - 1) * sqrt (a / b - 1))) 0 0 0 0
  = mscale (/ a) (diag3 a b 0).
Proof.
  intros Hab Hb.
  assert (Hr : 0 <= a / b - 1).
  { assert (H1 : 1 <= a / b).
    { apply (Rmult_le_reg_r b); [exact Hb|].
      unfold Rdiv; rewrite Rmult_assoc, Rinv_l by lra. lra. }
    lra. }
  rewrite sqrt_sqrt by exact Hr.
  mat_unfold; f_equal; field; lra.
Qed.

Section FundamentalParameterizationRoundTrip.

Variable toRotationMatrix : Quaternion -> Mat3.
Variable quaternion_of_matrix : Mat3 -> Quaternion.
Variable normalize : Quaternion -> Quaternion.
Variable svd : Mat3 -> Mat3 * Vec3 * Mat3.

(** Claim C5.  Let the SVD object hold a singular value decomposition
    [f = U diag(s0, s1, s2) V^T] with [s1 <> 0], and let the conversion of the
    two sign-corrected orthogonal factors to a normalised quaternion and back
    to a matrix give the factors back.  Then [To (From f)] is a non-zero
    multiple of [U diag(s0, s1, 0) V^T], which is a closest matrix of rank at
    most 2 to [f] in the Frobenius norm. *)
Theorem To_From_closest_rank2 (f U V : Mat3) (sv : Vec3) :
  svd f = (U, sv, V) ->
  is_svd f U sv V ->
  v3y sv <> 0 ->
  (let U' := if Rgt_dec (det3 U) 0 then U else mneg U in
   toRotationMatrix (normalize (quaternion_of_matrix U')) = U') ->
  (let Vt' := if Rgt_dec (det3 V) 0 then mtrans V else mneg (mtrans V) in
   toRotationMatrix (normalize (quaternion_of_matrix Vt')) = Vt') ->
  exists T : Mat3,
    closest_rank2 f T /\
    same_up_to_scale3
      (To toRotationMatrix (From quaternion_of_matrix normalize svd f)) T.
Proof.
  cbv zeta. intros Hsvd Hdec Hs1 HqU HqV.
  exists (rank2_truncation U sv V).
  split; [apply rank2_truncation_closest, Hdec|].
  destruct Hdec as (_ & _ & _ & Hab & Hbc & Hc).
  assert (Hb : 0 < v3y sv) by lra.
  assert (Ha : 0 < v3x sv) by lra.
  unfold From, To. rewrite Hsvd.
  rewrite start4_pack, end4_pack, pr4_pack, HqU, HqV.
  rewrite (sigma_of_ratio (v3x sv) (v3y sv) Hab Hb).
  unfold same_up_to_scale3, rank2_truncation.
  assert (Hinv : / v3x sv <> 0) by (apply Rinv_neq_0_compat; lra).
  destruct (Rgt_dec (det3 U) 0) as [_|_]; destruct (Rgt_dec (det3 V) 0) as [_|_].
  - exists (/ v3x sv). split; [exact Hinv|].
    repeat (rewrite mmul_mscale_l || rewrite mmul_mscale_r || rewrite mscale_mscale).
    reflexivity.
  - exists (- / v3x sv). split; [lra|].
    rewrite (mneg_mscale (mtrans V)).
    repeat (rewrite mmul_mscale_l || rewrite mmul_mscale_r || rewrite mscale_mscale).
    f_equal. ring.
  - exists (- / v3x sv). split; [lra|].
    rewrite (mneg_mscale U).
    repeat (rewrite mmul_mscale_l || rewrite mmul_mscale_r || rewrite mscale_mscale).
    f_equal. ring.
  - exists (/ v3x sv). split; [exact Hinv|].
    rewrite (mneg_mscale U), (mneg_mscale (mtrans V)).
    repeat (rewrite mmul_mscale_l || rewrite mmul_mscale_r || rewrite mscale_mscale).
    f_equal. ring.
Qed.

End FundamentalParameterizationRoundTrip.

Lemma quaternion_of_rotation_Identity3 :
  normalized (quaternion_of_rotation Identity3) = mkQuaternion 0 0 0 1.
Proof.
  assert (H4 : sqrt (1 + trace3 Identity3) = 2).
  { replace (1 + trace3 Identity3) with (2 * 2) by (vec_unfold; ring).
    apply sqrt_square; lra. }
  unfold quaternion_of_rotation. rewrite H4.
  unfold normalized, quaternion_norm; cbn [qx qy qz qw m00 m01 m02 m10 m11 m12 m20 m21 m22 Identity3].
  replace ((0 - 0) / (4 * (2 / 2)) * ((0 - 0) / (4 * (2 / 2)))
           + (0 - 0) / (4 * (2 / 2)) * ((0 - 0) / (4 * (2 / 2)))
           + (0 - 0) / (4 * (2 / 2)) * ((0 - 0) / (4 * (2 / 2)))
           + 2 / 2 * (2 / 2)) with 1 by field.
  rewrite sqrt_1. f_equal; field.
Qed.

Lemma rotation_of_unit_quaternion_roundtrip_Identity3 :
  rotation_of_unit_quaternion (normalized (quaternion_of_rotation Identity3))
  = Identity3.
Proof.
  rewrite quaternion_of_rotation_Identity3.
  unfold rotation_of_unit_quaternion, Identity3; cbn [qx qy qz qw].
  f_equal; ring.
Qed.

Lemma To_From_closest_rank2_witness :
  exists T : Mat3,
    closest_rank2 (diag3 2 1 0) T /\
    same_up_to_scale3
      (To rotation_of_unit_quaternion
          (From quaternion_of_rotation normalized svd_of_diagonal (diag3 2 1 0)))
      T.
Proof.
  apply (To_From_closest_rank2 rotation_of_unit_quaternion quaternion_of_rotation
           normalized svd_of_diagonal (diag3 2 1 0) Identity3 Identity3
           (mkVec3 2 1 0)).
  - reflexivity.
  - unfold is_svd; cbn [v3x v3y v3z].
    split; [mat_unfold; f_equal; ring|].
    split; [apply orthogonal_Identity3|].
    split; [apply orthogonal_Identity3|]. lra.
  - cbn [v3y]; lra.
  - cbv zeta. destruct (Rgt_dec (det3 Identity3) 0) as [_|N].
    + apply rotation_of_unit_quaternion_roundtrip_Identity3.
    + exfalso; apply N; rewrite det3_Identity3; lra.
  - cbv zeta. destruct (Rgt_dec (det3 Identity3) 0) as [_|N].
    + rewrite mtrans_Identity3.
      apply rotation_of_unit_quaternion_roundtrip_Identity3.
    + exfalso; apply N; rewrite det3_Identity3; lra.
Defined.

(** * Further properties of the translated functions *)

(** ** [KRt_From_P] after [P_From_KRt] *)

Lemma mmul_inverse_l (A : Mat3) : det3 A <> 0 -> mmul (inverse A) A = Identity3.
Proof.
  intros Hd; mat_destruct; mat_unfold; f_equal; field; exact Hd.
Qed.

Lemma mdiv_1 (A : Mat3) : mdiv A 1 = A.
Proof. mat_destruct; mat_unfold; f_equal; field. Qed.

Lemma block33_P_From_KRt (K Q : Mat3) (t : Vec3) :
  block33 (P_From_KRt K Q t) = mmul K Q.
Proof. unfold P_From_KRt, mmul34. now rewrite !block33_hstack. Qed.

Lemma col3_P_From_KRt (K Q : Mat3) (t : Vec3) :
  col3 (P_From_KRt K Q t) = mvmul K t.
Proof. unfold P_From_KRt, mmul34. now rewrite !col3_hstack. Qed.

(** An orthogonal upper-triangular matrix with a positive diagonal is the
    identity. *)
Lemma orthogonal_upper_positive (T : Mat3) :
  upper_triangular T -> orthogonal T -> positive_diagonal T -> T = Identity3.
Proof.
  destruct T as [t00 t01 t02 t10 t11 t12 t20 t21 t22].
  intros (H10 & H20 & H21) [HO _] (P0 & P1 & P2); mat_simpl; subst.
  unfold mmul, mtrans, Identity3 in HO; mat_simpl.
  injection HO as E00 E01 E02 E10 E11 E12 E20 E21 E22.
  assert (t22 = 1) by nra. subst t22.
  assert (t12 = 0) by nra. subst t12.
  assert (t02 = 0) by nra. subst t02.
  assert (t11 = 1) by nra. subst t11.
  assert (t01 = 0) by nra. subst t01.
  assert (t00 = 1) by nra. subst t00.
  reflexivity.
Qed.

(** If [K' = K T] with [K], [K'] upper triangular with positive diagonals,
    then [T] is upper triangular with a positive diagonal. *)
Lemma upper_quotient (K K' T : Mat3) :
  upper_triangular K -> positive_diagonal K ->
  upper_triangular K' -> positive_diagonal K' ->
  K' = mmul K T ->
  upper_triangular T /\ positive_diagonal T.
Proof.
  destruct K as [k00 k01 k02 k10 k11 k12 k20 k21 k22].
  destruct K' as [k00' k01' k02' k10' k11' k12' k20' k21' k22'].
  destruct T as [t00 t01 t02 t10 t11 t12 t20 t21 t22].
  unfold upper_triangular, positive_diagonal, mmul; mat_simpl.
  intros (H10 & H20 & H21) (P0 & P1 & P2) (H10' & H20' & H21') (P0' & P1' & P2') E.
  subst. injection E as E00 E01 E02 E10 E11 E12 E20 E21 E22.
  assert (Z20 : t20 = 0) by nra. subst t20.
  assert (Z21 : t21 = 0) by nra. subst t21.
  assert (Z10 : t10 = 0) by nra. subst t10.
  repeat split; nra.
Qed.

Lemma det3_positive_upper (K : Mat3) :
  upper_triangular K -> positive_diagonal K -> 0 < det3 K.
Proof.
  intros HU (P0 & P1 & P2). rewrite (det3_upper_triangular K HU).
  apply Rmult_lt_0_compat; [apply Rmult_lt_0_compat|]; assumption.
Qed.

(** When [KR_From_P] gets through the third step on [K * Q], the factors it
    finds are [K] and [Q] themselves. *)
Lemma KR_From_P_unique (P : Mat34) (K Q : Mat3) :
  block33 P = mmul K Q ->
  upper_triangular K -> positive_diagonal K -> orthogonal Q ->
  KRt_From_P_K10 P = 0 ->
  KR_From_P P = Some (K, Q).
Proof.
  intros HP HU HD HO H0.
  pose proof (det3_positive_upper K HU HD) as HK.
  pose proof (orthogonal_det_sq Q HO) as HQ.
  assert (Hdet : det3 (block33 P) <> 0).
  { rewrite HP, det3_mmul. intros E.
    destruct (Rmult_integral _ _ E) as [E'|E']; [lra | rewrite E' in HQ; lra]. }
  destruct (KR_From_P_defined P H0) as [KR EKR]. rewrite EKR.
  destruct (KR_From_P_spec P KR EKR) as ((HM & HO' & HU') & _).
  destruct (KR_From_P_nonsingular P KR EKR Hdet) as (Q00 & Q11 & Q22 & _).
  clear EKR. destruct KR as [K' Q']; cbn [fst snd] in *.
  set (T := mmul Q (mtrans Q')).
  assert (HT : K' = mmul K T).
  { unfold T. rewrite <- mmul_assoc, <- HP, <- HM, mmul_assoc.
    destruct HO' as [HO1 _]. now rewrite HO1, mmul_1_r. }
  assert (OT : orthogonal T)
    by (apply orthogonal_mmul; [exact HO | apply orthogonal_mtrans, HO']).
  destruct (upper_quotient K K' T HU HD HU' (conj Q00 (conj Q11 Q22)) HT)
    as [UT PT].
  pose proof (orthogonal_upper_positive T UT OT PT) as ET.
  assert (EK : K' = K) by (rewrite HT, ET; apply mmul_1_r).
  assert (EQ : Q' = Q).
  { destruct HO' as [_ HO2].
    rewrite <- (mmul_1_l Q'), <- ET. unfold T.
    now rewrite mmul_assoc, HO2, mmul_1_r. }
  now rewrite EK, EQ.
Qed.

(** Property X2.  Decomposing a composed projection matrix: for an
    upper-triangular [K] with positive diagonal and [K(2,2) = 1], an
    orthogonal [Q] and any [t], [KRt_From_P (P_From_KRt K Q t)] is exactly
    [(K, Q, t)] when the third Givens step is not entered, and the run stops
    at the unsized [Qz] without a result when it is. *)
Theorem KRt_From_P_P_From_KRt (K Q : Mat3) (t : Vec3) :
  upper_triangular K -> positive_diagonal K -> m22 K = 1 -> orthogonal Q ->
  (KRt_From_P_K10 (P_From_KRt K Q t) = 0 ->
   KRt_From_P (P_From_KRt K Q t) = Some (K, Q, t)) /\
  (KRt_From_P_K10 (P_From_KRt K Q t) <> 0 ->
   KRt_From_P (P_From_KRt K Q t) = None).
Proof.
  intros HU HD H22 HO. split; [|apply KRt_From_P_aborts].
  intros H0.
  rewrite (KRt_From_P_unfold _ _
             (KR_From_P_unique (P_From_KRt K Q t) K Q
                (block33_P_From_KRt K Q t) HU HD HO H0)); cbn [fst snd].
  rewrite col3_P_From_KRt, <- mvmul_mmul, H22, mdiv_1.
  rewrite mmul_inverse_l, mvmul_1; [reflexivity|].
  pose proof (det3_positive_upper K HU HD); lra.
Qed.

Lemma K_example_upper : upper_triangular K_example /\ positive_diagonal K_example.
Proof.
  unfold upper_triangular, positive_diagonal, K_example; mat_simpl.
  repeat split; lra.
Qed.

Lemma R_example_orthogonal : orthogonal R_example.
Proof. split; unfold R_example; mat_unfold; f_equal; ring. Qed.

Lemma Rx_example_orthogonal : orthogonal Rx_example.
Proof. split; unfold Rx_example; mat_unfold; f_equal; field. Qed.

(** The first Givens step leaves the first column of [K] as it is, and the
    second step is skipped when [K(2,0) = 0]: the entry the third step tests
    is then [K(1,0)] of the leading block itself. *)
Lemma givens_x_column0 (KQ : Mat3 * Mat3) :
  m10 (fst (givens_x KQ)) = m10 (fst KQ) /\
  m20 (fst (givens_x KQ)) = m20 (fst KQ).
Proof.
  destruct KQ as [K Q]; unfold givens_x.
  destruct (Req_dec_T (m21 K) 0) as [_|_]; cbn [fst]; [split; reflexivity|].
  destruct K; mat_unfold; split; ring.
Qed.

Lemma KRt_From_P_K10_no_second_step (P : Mat34) :
  m20 (block33 P) = 0 -> KRt_From_P_K10 P = m10 (block33 P).
Proof.
  intros H20. unfold KRt_From_P_K10.
  destruct (givens_x_column0 (block33 P, Identity3)) as [E10 E20].
  cbn [fst] in E10, E20. rewrite H20 in E20.
  destruct (givens_x (block33 P, Identity3)) as [K Q]; cbn [fst] in *.
  unfold givens_y.
  destruct (Req_dec_T (m20 K) 0) as [_|N]; [exact E10 | contradiction].
Qed.

(** On [K_example * Rx_example] the first Givens step fires (its
    [K(2,1) = 4/5]), the second does not, and the entry the third step tests
    is 0. *)
Lemma KRt_From_P_K10_tilted (t : Vec3) :
  m21 (block33 (P_From_KRt K_example Rx_example t)) <> 0 /\
  KRt_From_P_K10 (P_From_KRt K_example Rx_example t) = 0.
Proof.
  split.
  - rewrite block33_P_From_KRt. unfold K_example, Rx_example; mat_unfold. lra.
  - rewrite KRt_From_P_K10_no_second_step;
      rewrite block33_P_From_KRt; unfold K_example, Rx_example; mat_unfold; lra.
Qed.

Lemma KRt_From_P_P_From_KRt_witness :
  KRt_From_P (P_From_KRt K_example Rx_example (mkVec3 1 2 3))
  = Some (K_example, Rx_example, mkVec3 1 2 3).
Proof.
  apply (KRt_From_P_P_From_KRt K_example Rx_example (mkVec3 1 2 3)
           (proj1 K_example_upper) (proj2 K_example_upper) eq_refl
           Rx_example_orthogonal).
  apply (proj2 (KRt_From_P_K10_tilted (mkVec3 1 2 3))).
Defined.

(** Property X1.  For a projection matrix with a non-singular leading block
    [M] on which the third Givens step is not entered, [KRt_From_P] returns
    an upper-triangular [K] with a positive diagonal and [K(2,2) = 1] and an
    orthogonal [R]; [R] is a rotation ([det R = 1]) exactly when [det M > 0],
    and a reflection ([det R = -1]) otherwise. *)
Theorem KRt_From_P_calibration (P : Mat34) :
  det3 (block33 P) <> 0 ->
  KRt_From_P_K10 P = 0 ->
  exists (K Q : Mat3) (t : Vec3),
    KRt_From_P P = Some (K, Q, t) /\
    upper_triangular K /\ positive_diagonal K /\ m22 K = 1 /\
    orthogonal Q /\
    (det3 Q = 1 <-> 0 < det3 (block33 P)) /\
    (det3 Q = -1 <-> det3 (block33 P) < 0).
Proof.
  intros Hdet H0. destruct (KRt_From_P_defined P H0) as [[[K Q] t] E].
  exists K, Q, t. split; [exact E|].
  destruct (KRt_From_P_factors P K Q t Hdet E)
    as (H22 & P0 & P1 & HU & HO & Dp & Dn).
  split; [exact HU|]. split; [unfold positive_diagonal; rewrite H22; lra|].
  split; [exact H22|]. split; [exact HO|].
  destruct (Rtotal_order 0 (det3 (block33 P))) as [Hp|[Hz|Hn]];
    [| exfalso; apply Hdet; symmetry; exact Hz |].
  - pose proof (Dp Hp). split; split; intros; try assumption; lra.
  - pose proof (Dn Hn). split; split; intros; try assumption; lra.
Qed.

Lemma KRt_From_P_calibration_witness :
  exists (K Q : Mat3) (t : Vec3),
    KRt_From_P (P_From_KRt K_example Rx_example (mkVec3 1 2 3)) = Some (K, Q, t) /\
    upper_triangular K /\ positive_diagonal K /\ m22 K = 1 /\
    orthogonal Q /\
    (det3 Q = 1 <->
     0 < det3 (block33 (P_From_KRt K_example Rx_example (mkVec3 1 2 3)))) /\
    (det3 Q = -1 <->
     det3 (block33 (P_From_KRt K_example Rx_example (mkVec3 1 2 3))) < 0).
Proof.
  apply (KRt_From_P_calibration (P_From_KRt K_example Rx_example (mkVec3 1 2 3))).
  - rewrite block33_P_From_KRt, det3_mmul.
    unfold K_example, Rx_example; mat_unfold. lra.
  - apply (proj2 (KRt_From_P_K10_tilted (mkVec3 1 2 3))).
Defined.

(** ** Homogeneous coordinates, the remaining overloads *)

(** Property X5.  [HomogeneousToEuclidean] does not see the scale of a homogeneous vector:
    multiplying it by a non-zero number leaves the Euclidean point unchanged,
    for both fixed-size overloads. *)
Theorem HomogeneousToEuclidean_scale_invariant (c : R) (H : Vec3) (H4 : Vec4) :
  c <> 0 -> v3z H <> 0 -> v4w H4 <> 0 ->
  HomogeneousToEuclidean (vscale c H) = HomogeneousToEuclidean H /\
  HomogeneousToEuclidean4 (vscale4 c H4) = HomogeneousToEuclidean4 H4.
Proof.
  intros Hc Hw Hw4. destruct H as [x y w]; destruct H4 as [x4 y4 z4 w4].
  unfold HomogeneousToEuclidean, HomogeneousToEuclidean4, vscale, vscale4;
    mat_simpl.
  split; f_equal; field; split; assumption.
Qed.

Lemma HomogeneousToEuclidean_scale_invariant_witness :
  HomogeneousToEuclidean (vscale 5 (mkVec3 2 4 2))
  = HomogeneousToEuclidean (mkVec3 2 4 2) /\
  HomogeneousToEuclidean4 (vscale4 5 (mkVec4 2 4 6 2))
  = HomogeneousToEuclidean4 (mkVec4 2 4 6 2).
Proof.
  apply (HomogeneousToEuclidean_scale_invariant 5 (mkVec3 2 4 2) (mkVec4 2 4 6 2));
    cbn; lra.
Defined.

(** Property X6.  Back to homogeneous coordinates after dehomogenising: a vector whose last
    coordinate [w] is not zero comes back divided by [w], for both
    fixed-size overloads. *)
Theorem EuclideanToHomogeneous_HomogeneousToEuclidean (H : Vec3) (H4 : Vec4) :
  v3z H <> 0 -> v4w H4 <> 0 ->
  EuclideanToHomogeneous (HomogeneousToEuclidean H) = vscale (/ v3z H) H /\
  EuclideanToHomogeneous3 (HomogeneousToEuclidean4 H4) = vscale4 (/ v4w H4) H4.
Proof.
  intros Hw Hw4. destruct H as [x y w]; destruct H4 as [x4 y4 z4 w4].
  unfold HomogeneousToEuclidean, HomogeneousToEuclidean4, EuclideanToHomogeneous,
    EuclideanToHomogeneous3, vscale, vscale4; mat_simpl.
  split; f_equal; field; assumption.
Qed.

Lemma EuclideanToHomogeneous_HomogeneousToEuclidean_witness :
  EuclideanToHomogeneous (HomogeneousToEuclidean (mkVec3 2 4 2))
  = vscale (/ 2) (mkVec3 2 4 2) /\
  EuclideanToHomogeneous3 (HomogeneousToEuclidean4 (mkVec4 2 4 6 2))
  = vscale4 (/ 2) (mkVec4 2 4 6 2).
Proof.
  apply (EuclideanToHomogeneous_HomogeneousToEuclidean (mkVec3 2 4 2)
           (mkVec4 2 4 6 2)); cbn; lra.
Defined.

(** *** The dynamic-size overloads *)

Lemma coeff_lifted (col : list R) (d j : nat) :
  length col = d -> (j < d)%nat ->
  coeff (map (fun j => coeff col j) (seq 0 d) ++ [1]) j = coeff col j.
Proof.
  intros Hl Hj. unfold coeff at 1.
  rewrite app_nth1 by (rewrite length_map, length_seq; exact Hj).
  rewrite (nth_indep _ 0 (coeff col 0)) by (rewrite length_map, length_seq; exact Hj).
  rewrite (map_nth (fun j => coeff col j)), seq_nth by exact Hj. reflexivity.
Qed.

Lemma coeff_lifted_last (col : list R) (d : nat) :
  coeff (map (fun j => coeff col j) (seq 0 d) ++ [1]) d = 1.
Proof.
  unfold coeff at 1.
  rewrite app_nth2 by (rewrite length_map, length_seq; lia).
  rewrite length_map, length_seq, Nat.sub_diag. reflexivity.
Qed.

Lemma column_of_coeffs (col : list R) (d : nat) :
  length col = d -> map (fun j => coeff col j) (seq 0 d) = col.
Proof.
  intros Hl. apply (nth_ext _ _ 0 0).
  - rewrite length_map, length_seq. symmetry; exact Hl.
  - intros n Hn. rewrite length_map, length_seq in Hn.
    rewrite (nth_indep _ 0 (coeff col 0)) by (rewrite length_map, length_seq; exact Hn).
    rewrite (map_nth (fun j => coeff col j)), seq_nth by exact Hn. reflexivity.
Qed.

(** Property X7.  The dynamic overloads are inverse to each other on Euclidean points, in
    every dimension and for every number of columns (none included):
    appending the row of ones and dividing by it gives the matrix back. *)
Theorem HomogeneousToEuclidean_EuclideanToHomogeneous_Mat (X : MatX) :
  MatX_wf X ->
  HomogeneousToEuclidean_Mat (EuclideanToHomogeneous_Mat X) = X.
Proof.
  destruct X as [d cs]; unfold MatX_wf; cbn [xrows xcolumns]; intros Hwf.
  unfold HomogeneousToEuclidean_Mat, EuclideanToHomogeneous_Mat;
    cbn [xrows xcolumns].
  replace (d + 1 - 1)%nat with d by lia. f_equal.
  rewrite map_map.
  induction Hwf as [|col cs Hcol _ IH]; cbn [map]; [reflexivity|].
  rewrite IH. f_equal.
  rewrite coeff_lifted_last.
  transitivity (map (fun j => coeff col j) (seq 0 d));
    [|apply column_of_coeffs; exact Hcol].
  apply map_ext_in. intros j Hj. apply in_seq in Hj.
  rewrite coeff_lifted by (try exact Hcol; lia). field.
Qed.

Lemma HomogeneousToEuclidean_EuclideanToHomogeneous_Mat_witness :
  HomogeneousToEuclidean_Mat
    (EuclideanToHomogeneous_Mat (mkMatX 2 [[1; 2]; [3; 4]; [5; 6]]))
  = mkMatX 2 [[1; 2]; [3; 4]; [5; 6]].
Proof.
  apply (HomogeneousToEuclidean_EuclideanToHomogeneous_Mat
           (mkMatX 2 [[1; 2]; [3; 4]; [5; 6]])).
  repeat constructor.
Defined.

(** Both dynamic overloads keep the number of columns; one removes a row,
    the other adds one, and what they return is well formed whatever the
    input. *)
Lemma homogeneous_Mat_shape (A : MatX) :
  xcols (HomogeneousToEuclidean_Mat A) = xcols A /\
  xrows (HomogeneousToEuclidean_Mat A) = (xrows A - 1)%nat /\
  MatX_wf (HomogeneousToEuclidean_Mat A) /\
  xcols (EuclideanToHomogeneous_Mat A) = xcols A /\
  xrows (EuclideanToHomogeneous_Mat A) = (xrows A + 1)%nat /\
  MatX_wf (EuclideanToHomogeneous_Mat A).
Proof.
  unfold xcols, MatX_wf, HomogeneousToEuclidean_Mat, EuclideanToHomogeneous_Mat;
    cbn [xrows xcolumns].
  rewrite !length_map.
  repeat split; apply Forall_map, Forall_forall; intros col _.
  - now rewrite length_map, length_seq.
  - rewrite length_app, length_map, length_seq. reflexivity.
Qed.

(** ** [Project] and [Depth] *)

(** [Project] on a 3 x n matrix of points: column by column, the image of the
    point under [P] (with homogeneous coordinate 1 appended) dehomogenised by
    the fixed-size [HomogeneousToEuclidean]. *)
Lemma Project_columns (P : Mat34) (Xs : list Vec3) :
  Project P (MatX_of_points Xs)
  = mkMatX 2
      (map (fun X => column_of_Vec2 (HomogeneousToEuclidean (project_point P X))) Xs).
Proof.
  unfold Project, HomogeneousToEuclidean_Mat, mul34_Mat, EuclideanToHomogeneous_Mat,
    MatX_of_points; cbn [xrows xcolumns].
  change (3 - 1)%nat with 2%nat. f_equal.
  rewrite !map_map. apply map_ext. intros [x y z].
  unfold column_of_Vec3, column_of_Vec2, HomogeneousToEuclidean, project_point, coeff;
    cbn [seq map app nth v3x v3y v3z v2x v2y].
  repeat (f_equal; try ring).
Qed.

Lemma project_point_Depth (K Q : Mat3) (t X : Vec3) :
  upper_triangular K -> m22 K = 1 ->
  v3z (project_point (P_From_KRt K Q t) X) = Depth Q t X.
Proof.
  intros (H10 & H20 & H21) H22.
  destruct K, Q, t, X; mat_unfold; unfold Depth, project_point; mat_unfold.
  subst. ring.
Qed.

(** Property X8.  The number [Project] divides a point's image by is the depth of the
    point: for [P = K [R | t]] with [K] upper triangular and [K(2,2) = 1],
    the column [Project] returns for a point [X] is the first two
    coordinates of [P (X, 1)] divided by [Depth(R, t, X)]. *)
Theorem Project_divides_by_Depth (K Q : Mat3) (t : Vec3) (Xs : list Vec3) :
  upper_triangular K -> m22 K = 1 ->
  Project (P_From_KRt K Q t) (MatX_of_points Xs)
  = mkMatX 2
      (map (fun X =>
              let x := project_point (P_From_KRt K Q t) X in
              [v3x x / Depth Q t X; v3y x / Depth Q t X]) Xs).
Proof.
  intros HU H22. rewrite Project_columns. f_equal.
  apply map_ext. intros X; cbv zeta.
  rewrite <- (project_point_Depth K Q t X HU H22). reflexivity.
Qed.

Lemma Project_divides_by_Depth_witness :
  Project (P_From_KRt K_example R_example (mkVec3 1 2 3))
          (MatX_of_points [mkVec3 4 5 6])
  = mkMatX 2
      (map (fun X =>
              let x := project_point (P_From_KRt K_example R_example (mkVec3 1 2 3)) X in
              [v3x x / Depth R_example (mkVec3 1 2 3) X;
               v3y x / Depth R_example (mkVec3 1 2 3) X]) [mkVec3 4 5 6]).
Proof.
  apply (Project_divides_by_Depth K_example R_example (mkVec3 1 2 3) [mkVec3 4 5 6]
           (proj1 K_example_upper) eq_refl).
Defined.

(** Property X9.  [Project] does not see the scale of the projection matrix: if no point
    has an image with homogeneous coordinate 0, then [c P] with [c <> 0]
    projects the points as [P] does. *)
Theorem Project_scale_invariant (c : R) (P : Mat34) (Xs : list Vec3) :
  c <> 0 ->
  Forall (fun X => v3z (project_point P X) <> 0) Xs ->
  Project (scale34 c P) (MatX_of_points Xs) = Project P (MatX_of_points Xs).
Proof.
  intros Hc Hw. rewrite !Project_columns. f_equal.
  induction Hw as [|X Xs HX _ IH]; cbn [map]; [reflexivity|].
  rewrite IH. f_equal.
  replace (project_point (scale34 c P) X) with (vscale c (project_point P X)).
  - destruct (project_point P X) as [u v w]; cbn [v3z] in HX.
    unfold column_of_Vec2, HomogeneousToEuclidean, vscale; mat_simpl.
    f_equal; [|f_equal]; field; split; assumption.
  - destruct P, X; unfold project_point, scale34, vscale; mat_simpl.
    f_equal; ring.
Qed.

Lemma Project_scale_invariant_witness :
  Project (scale34 2 P_canonical) (MatX_of_points [mkVec3 1 2 4; mkVec3 0 1 1])
  = Project P_canonical (MatX_of_points [mkVec3 1 2 4; mkVec3 0 1 1]).
Proof.
  apply (Project_scale_invariant 2 P_canonical [mkVec3 1 2 4; mkVec3 0 1 1]);
    [lra|].
  repeat constructor; unfold project_point, P_canonical; mat_simpl; lra.
Defined.

(** ** [K_From_AbsoluteConic] *)

Lemma flip3_involutive (A : Mat3) : flip3 (flip3 A) = A.
Proof. destruct A; reflexivity. Qed.

Lemma flip3_mmul (A B : Mat3) : flip3 (mmul A B) = mmul (flip3 A) (flip3 B).
Proof. destruct A, B; unfold flip3, mmul; mat_simpl; f_equal; ring. Qed.

Lemma flip3_mtrans (A : Mat3) : flip3 (mtrans A) = mtrans (flip3 A).
Proof. destruct A; reflexivity. Qed.

Lemma flip3_lower_upper (L : Mat3) : lower_triangular L -> upper_triangular (flip3 L).
Proof.
  destruct L; unfold lower_triangular, upper_triangular, flip3; mat_simpl.
  intros (H1 & H2 & H3); auto.
Qed.

Lemma flip3_upper_lower (K : Mat3) : upper_triangular K -> lower_triangular (flip3 K).
Proof.
  destruct K; unfold lower_triangular, upper_triangular, flip3; mat_simpl.
  intros (H1 & H2 & H3); auto.
Qed.

Lemma flip3_positive_diagonal (A : Mat3) :
  positive_diagonal A -> positive_diagonal (flip3 A).
Proof.
  destruct A; unfold positive_diagonal, flip3; mat_simpl.
  intros (H1 & H2 & H3); auto.
Qed.

(** The Cholesky factor is unique. *)
Lemma is_cholesky_unique (A L L' : Mat3) :
  is_cholesky A L -> is_cholesky A L' -> L = L'.
Proof.
  destruct L as [a00 a01 a02 a10 a11 a12 a20 a21 a22].
  destruct L' as [b00 b01 b02 b10 b11 b12 b20 b21 b22].
  unfold is_cholesky, lower_triangular, positive_diagonal, mmul, mtrans; mat_simpl.
  intros ((A1 & A2 & A3) & (PA0 & PA1 & PA2) & EA)
         ((B1 & B2 & B3) & (PB0 & PB1 & PB2) & EB).
  subst. injection EB as E00 E01 E02 E10 E11 E12 E20 E21 E22.
  assert (b00 = a00) by nra. subst b00.
  assert (b10 = a10) by nra. subst b10.
  assert (b20 = a20) by nra. subst b20.
  assert (b11 = a11) by nra. subst b11.
  assert (b21 = a21) by nra. subst b21.
  assert (b22 = a22) by nra. subst b22.
  reflexivity.
Qed.

Lemma inverse_involutive (A : Mat3) : det3 A <> 0 -> inverse (inverse A) = A.
Proof.
  intros Hd.
  assert (Hi : det3 (inverse A) <> 0).
  { intros E. pose proof (mmul_inverse_r A Hd) as H.
    apply (f_equal det3) in H. rewrite det3_mmul, E, det3_Identity3 in H. lra. }
  rewrite <- (mmul_1_l (inverse (inverse A))), <- (mmul_inverse_r A Hd).
  rewrite mmul_assoc, mmul_inverse_r by exact Hi. apply mmul_1_r.
Qed.

Section AbsoluteConicFacts.

Variable llt_matrixL : Mat3 -> Mat3.

(** Property X3.  When the LLT object holds the Cholesky factor of the flipped dual conic,
    the matrix returned is upper triangular with a positive diagonal and
    factors the dual conic: [K K^T = W^-1], so [W (K K^T) = I] for a
    non-singular [W].  The two index flips turn the lower factor into an
    upper one. *)
Theorem K_From_AbsoluteConic_factors (W : Mat3) :
  det3 W <> 0 ->
  is_cholesky (flip3 (inverse W)) (llt_matrixL (flip3 (inverse W))) ->
  let K := K_From_AbsoluteConic llt_matrixL W in
  upper_triangular K /\ positive_diagonal K /\
  mmul K (mtrans K) = inverse W /\
  mmul W (mmul K (mtrans K)) = Identity3.
Proof.
  intros Hd (HL & HP & HE); cbv zeta; unfold K_From_AbsoluteConic.
  set (L := llt_matrixL (flip3 (inverse W))) in *.
  assert (E : mmul (flip3 L) (mtrans (flip3 L)) = inverse W).
  { rewrite <- flip3_mtrans, <- flip3_mmul, HE. apply flip3_involutive. }
  split; [apply flip3_lower_upper, HL|].
  split; [apply flip3_positive_diagonal, HP|].
  split; [exact E|]. rewrite E. apply mmul_inverse_r, Hd.
Qed.

(** Property X4.  The calibration matrix is recovered from its absolute conic: for an
    upper-triangular [K] with a positive diagonal,
    [K_From_AbsoluteConic ((K K^T)^-1) = K], when the LLT object holds the
    Cholesky factor of the matrix it is given. *)
Theorem K_From_AbsoluteConic_roundtrip (K : Mat3) :
  upper_triangular K -> positive_diagonal K ->
  (let A := flip3 (inverse (inverse (mmul K (mtrans K)))) in
   is_cholesky A (llt_matrixL A)) ->
  K_From_AbsoluteConic llt_matrixL (inverse (mmul K (mtrans K))) = K.
Proof.
  intros HU HP; cbv zeta; unfold K_From_AbsoluteConic.
  assert (Hd : det3 (mmul K (mtrans K)) <> 0).
  { rewrite det3_mmul, det3_mtrans.
    pose proof (det3_positive_upper K HU HP). nra. }
  rewrite (inverse_involutive _ Hd). intros HL.
  assert (HK : is_cholesky (flip3 (mmul K (mtrans K))) (flip3 K)).
  { split; [apply flip3_upper_lower, HU|].
    split; [apply flip3_positive_diagonal, HP|].
    now rewrite <- flip3_mtrans, <- flip3_mmul. }
  rewrite (is_cholesky_unique _ _ _ HL HK). apply flip3_involutive.
Qed.

End AbsoluteConicFacts.

(** The stand-in computes the Cholesky factor whenever its three pivots are
    positive. *)
Lemma cholesky3_is_cholesky (A : Mat3) :
  mtrans A = A ->
  0 < m00 A ->
  0 < m11 A - m10 A / sqrt (m00 A) * (m10 A / sqrt (m00 A)) ->
  0 < m22 A - m20 A / sqrt (m00 A) * (m20 A / sqrt (m00 A))
      - (m21 A - m20 A / sqrt (m00 A) * (m10 A / sqrt (m00 A)))
        / sqrt (m11 A - m10 A / sqrt (m00 A) * (m10 A / sqrt (m00 A)))
        * ((m21 A - m20 A / sqrt (m00 A) * (m10 A / sqrt (m00 A)))
           / sqrt (m11 A - m10 A / sqrt (m00 A) * (m10 A / sqrt (m00 A)))) ->
  is_cholesky A (cholesky3 A).
Proof.
  destruct A as [a00 a01 a02 a10 a11 a12 a20 a21 a22]; mat_simpl.
  intros Hsym P0 P1 P2.
  unfold mtrans in Hsym; mat_simpl. injection Hsym as S1 S2 S3 S4 S5 S6. subst.
  unfold cholesky3; mat_simpl.
  set (l00 := sqrt a00) in *.
  assert (Q0 : 0 < l00) by (apply sqrt_lt_R0; exact P0).
  assert (E0 : l00 * l00 = a00) by (apply sqrt_sqrt; lra).
  set (l10 := a01 / l00) in *. set (l20 := a02 / l00) in *.
  set (l11 := sqrt (a11 - l10 * l10)) in *.
  assert (Q1 : 0 < l11) by (apply sqrt_lt_R0; exact P1).
  assert (E1 : l11 * l11 = a11 - l10 * l10) by (apply sqrt_sqrt; lra).
  set (l21 := (a12 - l20 * l10) / l11) in *.
  set (l22 := sqrt (a22 - l20 * l20 - l21 * l21)) in *.
  assert (Q2 : 0 < l22) by (apply sqrt_lt_R0; exact P2).
  assert (E2 : l22 * l22 = a22 - l20 * l20 - l21 * l21) by (apply sqrt_sqrt; lra).
  assert (F10 : l10 * l00 = a01) by (unfold l10; field; lra).
  assert (F20 : l20 * l00 = a02) by (unfold l20; field; lra).
  assert (F21 : l21 * l11 = a12 - l20 * l10) by (unfold l21; field; lra).
  split; [repeat split|split; [repeat split; assumption|]].
  unfold mmul, mtrans; mat_simpl. f_equal; nra.
Qed.

Lemma K_From_AbsoluteConic_roundtrip_witness :
  K_From_AbsoluteConic cholesky3 (inverse (mmul Identity3 (mtrans Identity3)))
  = Identity3.
Proof.
  apply (K_From_AbsoluteConic_roundtrip cholesky3 Identity3).
  - repeat split.
  - unfold positive_diagonal, Identity3; mat_simpl; repeat split; lra.
  - cbv zeta.
    assert (E : flip3 (inverse (inverse (mmul Identity3 (mtrans Identity3))))
                = Identity3).
    { rewrite mtrans_Identity3, mmul_1_l, inverse_involutive
        by (rewrite det3_Identity3; lra).
      reflexivity. }
    rewrite E. apply cholesky3_is_cholesky.
    + reflexivity.
    + unfold Identity3; mat_simpl; lra.
    + unfold Identity3; mat_simpl. rewrite sqrt_1. lra.
    + unfold Identity3; mat_simpl. rewrite sqrt_1.
      replace (1 - 0 / 1 * (0 / 1)) with 1 by field. rewrite sqrt_1. lra.
Defined.

Lemma K_From_AbsoluteConic_factors_witness :
  let K := K_From_AbsoluteConic cholesky3 Identity3 in
  upper_triangular K /\ positive_diagonal K /\
  mmul K (mtrans K) = inverse Identity3 /\
  mmul Identity3 (mmul K (mtrans K)) = Identity3.
Proof.
  assert (E : flip3 (inverse Identity3) = Identity3).
  { unfold inverse, flip3; mat_unfold; f_equal; field. }
  apply (K_From_AbsoluteConic_factors cholesky3 Identity3).
  - rewrite det3_Identity3; lra.
  - rewrite E. apply cholesky3_is_cholesky.
    + reflexivity.
    + unfold Identity3; mat_simpl; lra.
    + unfold Identity3; mat_simpl. rewrite sqrt_1. lra.
    + unfold Identity3; mat_simpl. rewrite sqrt_1.
      replace (1 - 0 / 1 * (0 / 1)) with 1 by field. rewrite sqrt_1. lra.
Defined.

(** ** The error metrics and the unnormalizer of the panoramic kernel *)

Lemma AsymmetricError_Error_HomogeneousToEuclidean (H : Mat3) (x1 x2 : Vec2) :
  AsymmetricError_Error H x1 x2
  = squaredNorm_diff x2 (HomogeneousToEuclidean (mvmul H (EuclideanToHomogeneous x1))).
Proof. reflexivity. Qed.

Lemma squaredNorm_diff_zero (a b : Vec2) : squaredNorm_diff a b = 0 <-> a = b.
Proof.
  destruct a as [ax ay], b as [bx by']; unfold squaredNorm_diff; mat_simpl.
  split.
  - intros H.
    pose proof (Rle_0_sqr (ax - bx)) as Sx. pose proof (Rle_0_sqr (ay - by')) as Sy.
    unfold Rsqr in *.
    assert (Zx : (ax - bx) * (ax - bx) = 0) by lra.
    assert (Zy : (ay - by') * (ay - by') = 0) by lra.
    assert (ax = bx) by (destruct (Rmult_integral _ _ Zx); lra).
    assert (ay = by') by (destruct (Rmult_integral _ _ Zy); lra).
    now subst.
  - intros E; injection E as -> ->. ring.
Qed.

Lemma squaredNorm_diff_nonneg (a b : Vec2) : 0 <= squaredNorm_diff a b.
Proof.
  unfold squaredNorm_diff.
  pose proof (Rle_0_sqr (v2x a - v2x b)) as Sx.
  pose proof (Rle_0_sqr (v2y a - v2y b)) as Sy.
  unfold Rsqr in *. lra.
Qed.

(** Property X10.  When the homogeneous coordinate of [H (x1, 1)] is not
    zero, the asymmetric residual is not negative, and it is zero exactly
    when the observed point is the dehomogenised image of [x1] under [H]. *)
Theorem AsymmetricError_Error_zero_iff (H : Mat3) (x1 x2 : Vec2) :
  v3z (mvmul H (EuclideanToHomogeneous x1)) <> 0 ->
  0 <= AsymmetricError_Error H x1 x2 /\
  (AsymmetricError_Error H x1 x2 = 0 <->
   x2 = HomogeneousToEuclidean (mvmul H (EuclideanToHomogeneous x1))).
Proof.
  intros _. rewrite AsymmetricError_Error_HomogeneousToEuclidean. split.
  - apply squaredNorm_diff_nonneg.
  - apply squaredNorm_diff_zero.
Qed.

Lemma AsymmetricError_Error_zero_iff_witness :
  0 <= AsymmetricError_Error H_example (mkVec2 1 1) (mkVec2 3 4) /\
  (AsymmetricError_Error H_example (mkVec2 1 1) (mkVec2 3 4) = 0 <->
   mkVec2 3 4
   = HomogeneousToEuclidean (mvmul H_example (EuclideanToHomogeneous (mkVec2 1 1)))).
Proof.
  apply (AsymmetricError_Error_zero_iff H_example (mkVec2 1 1) (mkVec2 3 4)).
  unfold H_example, EuclideanToHomogeneous; mat_unfold; lra.
Defined.

Lemma inverse_mscale (c : R) (H : Mat3) :
  c <> 0 -> det3 H <> 0 -> inverse (mscale c H) = mscale (/ c) (inverse H).
Proof.
  intros Hc Hd.
  assert (Hd' : det3 (mscale c H) <> 0).
  { replace (det3 (mscale c H)) with (c * c * c * det3 H)
      by (destruct H; mat_unfold; ring).
    repeat apply Rmult_integral_contrapositive_currified; assumption. }
  destruct H; mat_unfold. f_equal; field; repeat split; assumption.
Qed.

Lemma AsymmetricError_Error_scale (c : R) (H : Mat3) (x1 x2 : Vec2) :
  c <> 0 -> v3z (mvmul H (EuclideanToHomogeneous x1)) <> 0 ->
  AsymmetricError_Error (mscale c H) x1 x2 = AsymmetricError_Error H x1 x2.
Proof.
  intros Hc Hw. destruct H, x1, x2.
  unfold AsymmetricError_Error, squaredNorm_diff, EuclideanToHomogeneous in *;
    mat_unfold.
  pose proof (Rmult_integral_contrapositive_currified _ _ Hc Hw) as Hcw.
  field. repeat split; neq_ring.
Qed.

(** Property X11.  Both residuals ignore the scale of the homography: [c H] with [c <> 0]
    gives the same asymmetric and symmetric errors as [H], as long as the
    homogeneous coordinates divided by are not zero. *)
Theorem Error_scale_invariant (c : R) (H : Mat3) (x1 x2 : Vec2) :
  c <> 0 -> det3 H <> 0 ->
  v3z (mvmul H (EuclideanToHomogeneous x1)) <> 0 ->
  v3z (mvmul (inverse H) (EuclideanToHomogeneous x2)) <> 0 ->
  AsymmetricError_Error (mscale c H) x1 x2 = AsymmetricError_Error H x1 x2 /\
  SymmetricError_Error (mscale c H) x1 x2 = SymmetricError_Error H x1 x2.
Proof.
  intros Hc Hd Hw Hw'.
  pose proof (AsymmetricError_Error_scale c H x1 x2 Hc Hw) as E1.
  split; [exact E1|].
  unfold SymmetricError_Error. rewrite E1, (inverse_mscale c H Hc Hd).
  rewrite (AsymmetricError_Error_scale (/ c) (inverse H) x2 x1); [reflexivity| |exact Hw'].
  apply Rinv_neq_0_compat, Hc.
Qed.

Lemma H_example_det : det3 H_example <> 0.
Proof. unfold H_example; mat_unfold; lra. Qed.

Lemma Error_scale_invariant_witness :
  AsymmetricError_Error (mscale 3 H_example) (mkVec2 1 1) (mkVec2 3 5)
  = AsymmetricError_Error H_example (mkVec2 1 1) (mkVec2 3 5) /\
  SymmetricError_Error (mscale 3 H_example) (mkVec2 1 1) (mkVec2 3 5)
  = SymmetricError_Error H_example (mkVec2 1 1) (mkVec2 3 5).
Proof.
  apply (Error_scale_invariant 3 H_example (mkVec2 1 1) (mkVec2 3 5));
    [lra | exact H_example_det | |];
    unfold H_example, inverse, EuclideanToHomogeneous; mat_unfold; lra.
Defined.

(** Property X12.  The symmetric error does not privilege an image: exchanging the two
    points and replacing an invertible [H] by its inverse gives the same
    value. *)
Theorem SymmetricError_Error_swap (H : Mat3) (x1 x2 : Vec2) :
  det3 H <> 0 ->
  SymmetricError_Error (inverse H) x2 x1 = SymmetricError_Error H x1 x2.
Proof.
  intros Hd. unfold SymmetricError_Error.
  rewrite (inverse_involutive H Hd). ring.
Qed.

Lemma SymmetricError_Error_swap_witness :
  SymmetricError_Error (inverse H_example) (mkVec2 3 5) (mkVec2 1 1)
  = SymmetricError_Error H_example (mkVec2 1 1) (mkVec2 3 5).
Proof.
  apply (SymmetricError_Error_swap H_example (mkVec2 1 1) (mkVec2 3 5) H_example_det).
Defined.

(** Property X13.  A correspondence that an invertible [H] maps exactly, [H (x1, 1) =
    l (x2, 1)] with [l <> 0], has zero asymmetric and zero symmetric error. *)
Theorem Error_exact_correspondence (H : Mat3) (x1 x2 : Vec2) (l : R) :
  det3 H <> 0 -> l <> 0 ->
  mvmul H (EuclideanToHomogeneous x1) = vscale l (EuclideanToHomogeneous x2) ->
  AsymmetricError_Error H x1 x2 = 0 /\ SymmetricError_Error H x1 x2 = 0.
Proof.
  intros Hd Hl E.
  assert (E' : mvmul (inverse H) (EuclideanToHomogeneous x2)
               = vscale (/ l) (EuclideanToHomogeneous x1)).
  { transitivity (vscale (/ l) (mvmul (inverse H) (mvmul H (EuclideanToHomogeneous x1)))).
    - rewrite E. destruct (inverse H), x2; unfold vscale, EuclideanToHomogeneous;
        mat_unfold. f_equal; field; exact Hl.
    - rewrite <- mvmul_mmul, mmul_inverse_l, mvmul_1 by exact Hd. reflexivity. }
  assert (A1 : AsymmetricError_Error H x1 x2 = 0).
  { unfold AsymmetricError_Error. rewrite E. destruct x2.
    unfold squaredNorm_diff, vscale, EuclideanToHomogeneous; mat_simpl. field. exact Hl. }
  assert (A2 : AsymmetricError_Error (inverse H) x2 x1 = 0).
  { unfold AsymmetricError_Error. rewrite E'. destruct x1.
    unfold squaredNorm_diff, vscale, EuclideanToHomogeneous; mat_simpl. field. exact Hl. }
  split; [exact A1|]. unfold SymmetricError_Error. rewrite A1, A2. ring.
Qed.

Lemma Error_exact_correspondence_witness :
  AsymmetricError_Error H_example (mkVec2 1 1) (mkVec2 3 5) = 0 /\
  SymmetricError_Error H_example (mkVec2 1 1) (mkVec2 3 5) = 0.
Proof.
  apply (Error_exact_correspondence H_example (mkVec2 1 1) (mkVec2 3 5) 1
           H_example_det); [lra|].
  unfold H_example, vscale, EuclideanToHomogeneous; mat_unfold. f_equal; ring.
Defined.

(** Property X14.  Denormalisation undoes the normalising transforms: for invertible [T2]
    the unnormalized matrix [H'] satisfies [T2 H' = H T1], so if [H] maps the
    normalised point [T1 x] to [y] then [H'] maps [x] to the point that
    [T2] normalises to [y]; and with [T1] invertible too,
    [T2 H' T1^-1 = H]. *)
Theorem Unnormalize_conjugates (T1 T2 H : Mat3) :
  det3 T2 <> 0 ->
  mmul T2 (Unnormalize T1 T2 H) = mmul H T1 /\
  (forall x : Vec3,
     mvmul T2 (mvmul (Unnormalize T1 T2 H) x) = mvmul H (mvmul T1 x)) /\
  (det3 T1 <> 0 ->
   mmul (mmul T2 (Unnormalize T1 T2 H)) (inverse T1) = H).
Proof.
  intros Hd.
  assert (E : mmul T2 (Unnormalize T1 T2 H) = mmul H T1).
  { unfold Unnormalize.
    rewrite <- !mmul_assoc, mmul_inverse_r, mmul_1_l by exact Hd. reflexivity. }
  split; [exact E|]. split.
  - intros x. rewrite <- !mvmul_mmul, E. reflexivity.
  - intros Hd1. rewrite E, mmul_assoc, mmul_inverse_r, mmul_1_r by exact Hd1.
    reflexivity.
Qed.

Lemma Unnormalize_conjugates_witness :
  mmul H_example (Unnormalize R_example H_example K_example)
  = mmul K_example R_example.
Proof.
  apply (Unnormalize_conjugates R_example H_example K_example H_example_det).
Defined.

(** ** [ComputeGlobalBoundingBox], what the box is *)

Section GlobalBoundingBoxShape.

Variable ceil0 : R -> R.

Lemma corner_step_bbox (images_size : Vec2u) (H : Mat3) (bbox : Vec4i)
    (divs : list R) (i : nat) :
  fst (corner_step ceil0 images_size H (bbox, divs) i)
  = extend_bbox (rounded_corner ceil0 images_size H i) bbox.
Proof.
  unfold corner_step, extend_bbox, rounded_corner; cbn [v3x v3y v3z fst snd].
  destruct (extend_range _ (b0 bbox) (b1 bbox)).
  destruct (extend_range _ (b2 bbox) (b3 bbox)).
  reflexivity.
Qed.

Lemma corners_bbox (images_size : Vec2u) (H : Mat3) (l : list nat)
    (acc : Vec4i * list R) :
  fst (fold_left (corner_step ceil0 images_size H) l acc)
  = fold_left (fun bb q => extend_bbox q bb)
      (map (rounded_corner ceil0 images_size H) l) (fst acc).
Proof.
  revert acc; induction l as [|i l IH]; intros [bbox divs]; cbn [fold_left map fst].
  - reflexivity.
  - rewrite IH.
    rewrite <- (corner_step_bbox images_size H bbox divs i). reflexivity.
Qed.

Lemma transform_step_bbox (images_size : Vec2u) (st : bbox_state) (Hi : Mat3) :
  st_bbox (transform_step ceil0 images_size st Hi)
  = fold_left (fun bb q => extend_bbox q bb)
      (map (rounded_corner ceil0 images_size (mmul Hi (st_H st))) (seq 0 4))
      (st_bbox st).
Proof.
  unfold transform_step.
  pose proof (corners_bbox images_size (mmul Hi (st_H st)) (seq 0 4)
                (st_bbox st, st_divisors st)) as E.
  destruct (fold_left (corner_step _ _ _) _ _) as [bbox divs].
  cbn [fst st_bbox] in *. exact E.
Qed.

Lemma run_bbox_from (images_size : Vec2u) (Hs : list Mat3) (st : bbox_state) :
  st_bbox (fold_left (transform_step ceil0 images_size) Hs st)
  = fold_left (fun bb q => extend_bbox q bb)
      (flat_map (fun H => map (rounded_corner ceil0 images_size H) (seq 0 4))
                (absolute_transforms_from (st_H st) Hs))
      (st_bbox st).
Proof.
  revert st; induction Hs as [|Hi Hs IH]; intros st;
    cbn [fold_left absolute_transforms_from flat_map].
  - reflexivity.
  - rewrite IH, fold_left_app, transform_step_bbox.
    now rewrite (transform_step_H ceil0).
Qed.

(** The box depends on the chain only through the list of rounded corners:
    it is the initial box extended by each of them in turn. *)
Lemma ComputeGlobalBoundingBox_fold (images_size : Vec2u) (Hs : list Mat3) :
  ComputeGlobalBoundingBox ceil0 images_size Hs
  = fold_left (fun bb q => extend_bbox q bb)
      (rounded_corners ceil0 images_size Hs) (initial_bbox images_size).
Proof.
  unfold ComputeGlobalBoundingBox, ComputeGlobalBoundingBox_run.
  rewrite run_bbox_from. reflexivity.
Qed.

End GlobalBoundingBoxShape.

(** One extension by an integral corner. *)
Lemma extend_range_Z_spec (z lo hi : Z) :
  fst (extend_range_Z z lo hi) = Z.min lo z /\
  (hi <= snd (extend_range_Z z lo hi))%Z /\
  (snd (extend_range_Z z lo hi) = hi \/ snd (extend_range_Z z lo hi) = z).
Proof.
  unfold extend_range_Z.
  destruct (Z.ltb_spec z lo); [cbn [fst snd]; lia|].
  destruct (Z.ltb_spec hi z); cbn [fst snd]; lia.
Qed.

(** What a fold of box extensions over integral corners guarantees, when
    every conversion to [int] is in range. *)
Lemma extend_bbox_fold_bounds (qs : list (R * R)) :
  Forall (fun q => integral q /\ corner_fits_int q) qs ->
  forall bbox : Vec4i,
  let bbox' := fold_left (fun bb q => extend_bbox q bb) qs bbox in
  (b0 bbox' <= b0 bbox)%Z /\ (b2 bbox' <= b2 bbox)%Z /\
  (b1 bbox <= b1 bbox')%Z /\ (b3 bbox <= b3 bbox')%Z /\
  Forall (fun q => IZR (b0 bbox') <= fst q /\ IZR (b2 bbox') <= snd q) qs /\
  (b0 bbox' = b0 bbox \/ exists q, In q qs /\ IZR (b0 bbox') = fst q) /\
  (b2 bbox' = b2 bbox \/ exists q, In q qs /\ IZR (b2 bbox') = snd q) /\
  (b1 bbox' = b1 bbox \/ exists q, In q qs /\ IZR (b1 bbox') = fst q) /\
  (b3 bbox' = b3 bbox \/ exists q, In q qs /\ IZR (b3 bbox') = snd q).
Proof.
  induction 1 as [|q qs ((a & b & Eq) & Fa & Fb) _ IH]; intros bbox; cbv zeta;
    cbn [fold_left].
  - repeat split; try lia; try (left; reflexivity).
  - specialize (IH (extend_bbox q bbox)); cbv zeta in IH.
    set (bbox' := fold_left (fun bb q => extend_bbox q bb) qs (extend_bbox q bbox)) in *.
    destruct IH as (I0 & I2 & I1 & I3 & IF & M0 & M2 & M1 & M3).
    assert (E : extend_bbox q bbox = extend_bbox_Z a b bbox).
    { subst q; cbn [fst snd] in Fa, Fb.
      apply fits_int_IZR in Fa. apply fits_int_IZR in Fb.
      unfold extend_bbox, extend_bbox_Z; cbn [fst snd].
      now rewrite !extend_range_IZR by assumption. }
    clear Fa Fb.
    rewrite E in *. unfold extend_bbox_Z in *.
    destruct (extend_range_Z_spec a (b0 bbox) (b1 bbox)) as (X0 & X1 & X1').
    destruct (extend_range_Z_spec b (b2 bbox) (b3 bbox)) as (Y0 & Y1 & Y1').
    destruct (extend_range_Z a (b0 bbox) (b1 bbox)) as [xmin xmax].
    destruct (extend_range_Z b (b2 bbox) (b3 bbox)) as [ymin ymax].
    cbn [fst snd b0 b1 b2 b3] in *. subst q; cbn [fst snd].
    split; [lia|]. split; [lia|]. split; [lia|]. split; [lia|].
    split; [constructor; [split; apply IZR_le; cbn [fst snd]; lia | exact IF]|].
    split; [|split; [|split]].
    + destruct M0 as [M|(q & Hq & M)]; [|right; exists q; split; [right|]; assumption].
      destruct (Z.min_spec (b0 bbox) a) as [[_ Hm]|[_ Hm]]; [left; lia|].
      right; exists (IZR a, IZR b); split; [left; reflexivity|].
      cbn [fst]; f_equal; lia.
    + destruct M2 as [M|(q & Hq & M)]; [|right; exists q; split; [right|]; assumption].
      destruct (Z.min_spec (b2 bbox) b) as [[_ Hm]|[_ Hm]]; [left; lia|].
      right; exists (IZR a, IZR b); split; [left; reflexivity|].
      cbn [snd]; f_equal; lia.
    + destruct M1 as [M|(q & Hq & M)]; [|right; exists q; split; [right|]; assumption].
      destruct X1' as [X|X]; [left; lia|].
      right; exists (IZR a, IZR b); split; [left; reflexivity|].
      cbn [fst]; f_equal; lia.
    + destruct M3 as [M|(q & Hq & M)]; [|right; exists q; split; [right|]; assumption].
      destruct Y1' as [Y|Y]; [left; lia|].
      right; exists (IZR a, IZR b); split; [left; reflexivity|].
      cbn [snd]; f_equal; lia.
Qed.

Lemma rounded_corners_integral (ceil0 : R -> R) (images_size : Vec2u)
    (Hs : list Mat3) :
  (forall x : R, exists z : Z, ceil0 x = IZR z) ->
  Forall integral (rounded_corners ceil0 images_size Hs).
Proof.
  intros Hc. apply Forall_forall. intros q Hq.
  unfold rounded_corners in Hq. apply in_flat_map in Hq.
  destruct Hq as (H & _ & Hq). apply in_map_iff in Hq.
  destruct Hq as (i & <- & _). unfold rounded_corner, integral.
  destruct (Hc (v3x (mvmul H (col34 (q_bounds images_size) i))
                / v3z (mvmul H (col34 (q_bounds images_size) i)))) as [a Ha].
  destruct (Hc (v3y (mvmul H (col34 (q_bounds images_size) i))
                / v3z (mvmul H (col34 (q_bounds images_size) i)))) as [b Hb].
  exists a, b. now rewrite Ha, Hb.
Qed.

Lemma rounded_corners_convertible (ceil0 : R -> R) (images_size : Vec2u)
    (Hs : list Mat3) :
  (forall x : R, exists z : Z, ceil0 x = IZR z) ->
  Forall corner_fits_int (rounded_corners ceil0 images_size Hs) ->
  Forall (fun q => integral q /\ corner_fits_int q)
         (rounded_corners ceil0 images_size Hs).
Proof.
  intros Hc Hf. apply Forall_and; [|exact Hf].
  apply rounded_corners_integral, Hc.
Qed.

Lemma ceil0_ceiling_integral (x : R) : exists z : Z, ceil0_ceiling x = IZR z.
Proof. unfold ceil0_ceiling. eexists; reflexivity. Qed.

(** The chain [H_fold] over 8 x 8 images: the four divisors are 8, 24, 24, 8
    and the rounded corners are (4,0), (3,1), (2,1), (1,0). *)
Lemma H_fold_divisors (ceil0 : R -> R) :
  ComputeGlobalBoundingBox_divisors ceil0 (mkVec2u 8 8) [H_fold] = [8; 24; 24; 8].
Proof.
  unfold ComputeGlobalBoundingBox_divisors, ComputeGlobalBoundingBox_run.
  rewrite run_divisors_from.
  cbn [st_divisors st_H absolute_transforms_from flat_map app].
  unfold corner_weights, H_fold; cbn [seq map app].
  mat_unfold; cbn [col34 q_bounds u0 u1 v3x v3y v3z
                   p00 p01 p02 p03 p10 p11 p12 p13 p20 p21 p22 p23].
  repeat (f_equal; try ring).
Qed.

Lemma rounded_corner_integer (images_size : Vec2u) (H : Mat3) (i : nat) (a b : Z) :
  let q := mvmul H (col34 (q_bounds images_size) i) in
  v3x q / v3z q = IZR a ->
  v3y q / v3z q = IZR b ->
  rounded_corner ceil0_ceiling images_size H i = (IZR a, IZR b).
Proof.
  cbv zeta; intros Ha Hb. unfold rounded_corner.
  now rewrite Ha, Hb, !ceil0_ceiling_IZR.
Qed.

Lemma H_fold_rounded_corners :
  rounded_corners ceil0_ceiling (mkVec2u 8 8) [H_fold]
  = [(IZR 4, IZR 0); (IZR 3, IZR 1); (IZR 2, IZR 1); (IZR 1, IZR 0)].
Proof.
  unfold rounded_corners, absolute_transforms.
  cbn [absolute_transforms_from flat_map map seq app]. rewrite mmul_1_r.
  rewrite (rounded_corner_integer _ _ 0%nat 4 0) by (unfold H_fold; cbn; lra).
  rewrite (rounded_corner_integer _ _ 1%nat 3 1) by (unfold H_fold; cbn; lra).
  rewrite (rounded_corner_integer _ _ 2%nat 2 1) by (unfold H_fold; cbn; lra).
  rewrite (rounded_corner_integer _ _ 3%nat 1 0) by (unfold H_fold; cbn; lra).
  reflexivity.
Qed.

(** On that chain no divisor is zero and every conversion is in range. *)
Lemma H_fold_in_range :
  ~ In 0 (ComputeGlobalBoundingBox_divisors ceil0_ceiling (mkVec2u 8 8) [H_fold]) /\
  Forall corner_fits_int (rounded_corners ceil0_ceiling (mkVec2u 8 8) [H_fold]).
Proof.
  split.
  - rewrite H_fold_divisors. intros [H|[H|[H|[H|[]]]]]; lra.
  - rewrite H_fold_rounded_corners.
    repeat (apply Forall_cons;
            [split; cbn [fst snd]; apply fits_int_IZR;
             unfold INT_MIN, INT_MAX; lia|]).
    apply Forall_nil.
Qed.

(** Property X15.  For a [ceil0] that returns integers, on a chain for which
    no divisor [q(2)] is zero and every rounded corner coordinate can be
    converted to [int].  The minima are exact: [xmin] ([ymin]) is below every
    rounded corner and is either the initial [W] ([H]) or one of the rounded
    coordinates, so it is the smallest of them.  The maxima only grow from
    their initial 0 and are 0 or one of the rounded coordinates - but,
    because of the [else if], not always the largest. *)
Theorem ComputeGlobalBoundingBox_minima (ceil0 : R -> R) (images_size : Vec2u)
    (Hs : list Mat3) :
  (forall x : R, exists z : Z, ceil0 x = IZR z) ->
  ~ In 0 (ComputeGlobalBoundingBox_divisors ceil0 images_size Hs) ->
  Forall corner_fits_int (rounded_corners ceil0 images_size Hs) ->
  let bbox := ComputeGlobalBoundingBox ceil0 images_size Hs in
  let qs := rounded_corners ceil0 images_size Hs in
  Forall (fun q => IZR (b0 bbox) <= fst q /\ IZR (b2 bbox) <= snd q) qs /\
  (b0 bbox <= int_of_unsigned (u0 images_size))%Z /\
  (b2 bbox <= int_of_unsigned (u1 images_size))%Z /\
  (b0 bbox = int_of_unsigned (u0 images_size) \/
   exists q, In q qs /\ IZR (b0 bbox) = fst q) /\
  (b2 bbox = int_of_unsigned (u1 images_size) \/
   exists q, In q qs /\ IZR (b2 bbox) = snd q) /\
  (0 <= b1 bbox)%Z /\ (0 <= b3 bbox)%Z /\
  (b1 bbox = 0%Z \/ exists q, In q qs /\ IZR (b1 bbox) = fst q) /\
  (b3 bbox = 0%Z \/ exists q, In q qs /\ IZR (b3 bbox) = snd q).
Proof.
  intros Hc _ Hf; cbv zeta. rewrite ComputeGlobalBoundingBox_fold.
  pose proof (extend_bbox_fold_bounds _
                (rounded_corners_convertible ceil0 images_size Hs Hc Hf)
                (initial_bbox images_size)) as B; cbv zeta in B.
  cbn [initial_bbox b0 b1 b2 b3] in B.
  destruct B as (I0 & I2 & I1 & I3 & IF & M0 & M2 & M1 & M3).
  repeat split; assumption.
Qed.

Lemma ComputeGlobalBoundingBox_minima_witness :
  (0 <= b1 (ComputeGlobalBoundingBox ceil0_ceiling (mkVec2u 8 8) [H_fold]))%Z.
Proof.
  apply (ComputeGlobalBoundingBox_minima ceil0_ceiling (mkVec2u 8 8) [H_fold]
           ceil0_ceiling_integral (proj1 H_fold_in_range) (proj2 H_fold_in_range)).
Defined.

(** Property X16.  For a [ceil0] that returns integers, on a chain for which
    no divisor [q(2)] is zero and every rounded corner coordinate can be
    converted to [int]: the box is ordered in x as soon as one rounded corner
    has [x <= 0], and in y as soon as one has [y <= 0]; the minimum is then
    at most 0 and the maximum never drops below its initial 0. *)
Theorem ComputeGlobalBoundingBox_ordered_if_corner_nonpositive
    (ceil0 : R -> R) (images_size : Vec2u) (Hs : list Mat3) :
  (forall x : R, exists z : Z, ceil0 x = IZR z) ->
  ~ In 0 (ComputeGlobalBoundingBox_divisors ceil0 images_size Hs) ->
  Forall corner_fits_int (rounded_corners ceil0 images_size Hs) ->
  let bbox := ComputeGlobalBoundingBox ceil0 images_size Hs in
  let qs := rounded_corners ceil0 images_size Hs in
  ((exists q, In q qs /\ fst q <= 0) -> (b0 bbox <= b1 bbox)%Z) /\
  ((exists q, In q qs /\ snd q <= 0) -> (b2 bbox <= b3 bbox)%Z).
Proof.
  intros Hc _ Hf; cbv zeta. rewrite ComputeGlobalBoundingBox_fold.
  pose proof (extend_bbox_fold_bounds _
                (rounded_corners_convertible ceil0 images_size Hs Hc Hf)
                (initial_bbox images_size)) as B; cbv zeta in B.
  cbn [initial_bbox b0 b1 b2 b3] in B.
  destruct B as (_ & _ & I1 & I3 & IF & _).
  rewrite Forall_forall in IF.
  split; intros (q & Hq & Hle); destruct (IF q Hq) as [Fx Fy].
  - assert (H : IZR (b0 (fold_left (fun bb q => extend_bbox q bb)
                  (rounded_corners ceil0 images_size Hs) (initial_bbox images_size)))
                <= IZR 0) by lra.
    apply le_IZR in H. lia.
  - assert (H : IZR (b2 (fold_left (fun bb q => extend_bbox q bb)
                  (rounded_corners ceil0 images_size Hs) (initial_bbox images_size)))
                <= IZR 0) by lra.
    apply le_IZR in H. lia.
Qed.

Lemma ComputeGlobalBoundingBox_ordered_if_corner_nonpositive_witness :
  (b2 (ComputeGlobalBoundingBox ceil0_ceiling (mkVec2u 8 8) [H_fold])
   <= b3 (ComputeGlobalBoundingBox ceil0_ceiling (mkVec2u 8 8) [H_fold]))%Z.
Proof.
  apply (ComputeGlobalBoundingBox_ordered_if_corner_nonpositive ceil0_ceiling
           (mkVec2u 8 8) [H_fold] ceil0_ceiling_integral
           (proj1 H_fold_in_range) (proj2 H_fold_in_range)).
  rewrite H_fold_rounded_corners.
  exists (IZR 4, IZR 0). split; [left; reflexivity | cbn [snd]; lra].
Defined.

Section GlobalBoundingBoxTranslation.

Variable ceil0 : R -> R.
Hypothesis ceil0_integer : forall z : Z, ceil0 (IZR z) = IZR z.

(** Property X17.  The box of a chain that consists of one integral
    translation [(dx, dy)] with [|dx| < W] and [|dy| < H], where [W + dx] and
    [H + dy] still fit an [int], is the translated image rectangle
    [(dx, W + dx, dy, H + dy)]: the frame of the first image,
    [(0, W, 0, H)], is not part of it. *)
Theorem ComputeGlobalBoundingBox_translation (W H dx dy : Z) :
  (W < 2 ^ 31)%Z -> (H < 2 ^ 31)%Z ->
  (- W < dx < W)%Z -> (- H < dy < H)%Z ->
  (W + dx < 2 ^ 31)%Z -> (H + dy < 2 ^ 31)%Z ->
  ComputeGlobalBoundingBox ceil0 (mkVec2u W H) [translation (IZR dx) (IZR dy)]
  = mkVec4i dx (W + dx) dy (H + dy).
Proof.
  intros HW HH Hdx Hdy HWdx HHdy.
  unfold ComputeGlobalBoundingBox, ComputeGlobalBoundingBox_run, transform_step.
  cbn [fold_left seq st_H st_bbox st_divisors u0 u1]. rewrite mmul_1_r.
  rewrite !int_of_unsigned_small by lia.
  rewrite (corner_step_integer ceil0 ceil0_integer _ _ _ _ 0%nat dx dy);
    [| unfold INT_MIN, INT_MAX; lia | unfold INT_MIN, INT_MAX; lia
     | unfold translation; cbn; field | unfold translation; cbn; field].
  rewrite (corner_step_integer ceil0 ceil0_integer _ _ _ _ 1%nat dx (H + dy));
    [| unfold INT_MIN, INT_MAX; lia | unfold INT_MIN, INT_MAX; lia
     | unfold translation; cbn; field
     | unfold translation; cbn; rewrite plus_IZR; field].
  rewrite (corner_step_integer ceil0 ceil0_integer _ _ _ _ 2%nat (W + dx) (H + dy));
    [| unfold INT_MIN, INT_MAX; lia | unfold INT_MIN, INT_MAX; lia
     | unfold translation; cbn; rewrite plus_IZR; field
     | unfold translation; cbn; rewrite plus_IZR; field].
  rewrite (corner_step_integer ceil0 ceil0_integer _ _ _ _ 3%nat (W + dx) dy);
    [| unfold INT_MIN, INT_MAX; lia | unfold INT_MIN, INT_MAX; lia
     | unfold translation; cbn; rewrite plus_IZR; field
     | unfold translation; cbn; field].
  cbn [st_bbox].
  replace (extend_bbox_Z dx dy (mkVec4i W 0 H 0)) with (mkVec4i dx 0 dy 0)
    by (symmetry; box_step).
  replace (extend_bbox_Z dx (H + dy) (mkVec4i dx 0 dy 0))
    with (mkVec4i dx (Z.max 0 dx) dy (H + dy)) by (symmetry; box_step).
  replace (extend_bbox_Z (W + dx) (H + dy) (mkVec4i dx (Z.max 0 dx) dy (H + dy)))
    with (mkVec4i dx (W + dx) dy (H + dy)) by (symmetry; box_step).
  box_step.
Qed.

End GlobalBoundingBoxTranslation.

Lemma ComputeGlobalBoundingBox_translation_witness :
  ComputeGlobalBoundingBox ceil0_ceiling (mkVec2u 640 480)
    [translation (IZR 100) (IZR (-20))]
  = mkVec4i 100 (640 + 100) (-20) (480 + -20).
Proof.
  apply (ComputeGlobalBoundingBox_translation ceil0_ceiling ceil0_ceiling_IZR
           640 480 100 (-20)); lia.
Defined.

(** Property X18.  With a chain of affine transforms (bottom row [0 0 1]), as the affine
    mode of the tool builds, [ComputeGlobalBoundingBox] never divides by
    zero: each of the divisors [q(2)] it uses is exactly 1. *)
Theorem ComputeGlobalBoundingBox_affine_divisors (ceil0 : R -> R)
    (images_size : Vec2u) (Hs : list Mat3) :
  Forall affine Hs ->
  let divisors := ComputeGlobalBoundingBox_divisors ceil0 images_size Hs in
  length divisors = (4 * length Hs)%nat /\
  Forall (fun w => w = 1) divisors /\
  ~ In 0 divisors.
Proof.
  intros HA; cbv zeta.
  pose proof (affine_chain_divisors ceil0 images_size Hs HA) as F.
  split; [|split; [exact F|]].
  - unfold ComputeGlobalBoundingBox_divisors, ComputeGlobalBoundingBox_run.
    rewrite run_divisors_from; cbn [st_divisors st_H app].
    generalize Identity3. clear. induction Hs as [|Hi Hs IH]; intros H0;
      cbn [absolute_transforms_from flat_map length]; [reflexivity|].
    rewrite length_app, IH. unfold corner_weights.
    rewrite length_map, length_seq. lia.
  - intros H0. rewrite Forall_forall in F. specialize (F 0 H0). lra.
Qed.

Lemma ComputeGlobalBoundingBox_affine_divisors_witness :
  let divisors := ComputeGlobalBoundingBox_divisors ceil0_ceiling (mkVec2u 8 8)
                    [translation 1 2; Identity3] in
  length divisors = (4 * length [translation 1 2; Identity3])%nat /\
  Forall (fun w => w = 1) divisors /\
  ~ In 0 divisors.
Proof.
  apply (ComputeGlobalBoundingBox_affine_divisors ceil0_ceiling (mkVec2u 8 8)
           [translation 1 2; Identity3]).
  repeat constructor.
Defined.

(** ** The length of the chain of relative transforms *)

Lemma pairs_from_length {A : Type} (prev : A) (rest : list A) :
  length (pairs_from prev rest) = length rest.
Proof.
  revert prev; induction rest as [|cur rest IH]; intros prev; cbn [pairs_from length].
  - reflexivity.
  - now rewrite IH.
Qed.

Lemma adjacent_pairs_length {A : Type} (images : list A) :
  length (adjacent_pairs images) = (length images - 1)%nat.
Proof.
  destruct images as [|first rest]; cbn [adjacent_pairs length].
  - reflexivity.
  - rewrite pairs_from_length. lia.
Qed.

Lemma filter_all {A : Type} (f : A -> bool) (l : list A) :
  Forall (fun x => f x = true) l -> filter f l = l.
Proof.
  induction 1 as [|x l Hx _ IH]; cbn [filter]; [reflexivity|].
  now rewrite Hx, IH.
Qed.

Section RelativeMatricesLength.

Variable ImageID : Type.
Variable Matches : Type.
Variable get_images : Matches -> list ImageID.
Variable TwoViewPointMatchMatrices : Matches -> ImageID -> ImageID -> Mat * Mat.
Variable AffineFromCorrespondences2PointRobust :
  Mat -> Mat -> R -> Mat3 -> R -> Mat3.
Variable HomographyFromCorrespondences4PointRobust :
  Mat -> Mat -> R -> Mat3 -> R -> Mat3.
Variable indeterminate : Mat3.

Lemma relative_matrices_loop_frame (min_cols : nat)
    (estimate : Mat -> Mat -> R -> Mat3 -> R -> Mat3) (matches : Matches)
    (p e : R) (prev : ImageID) (rest : list ImageID) (A : Mat3) (chain : list Mat3) :
  let out := relative_matrices_loop ImageID Matches TwoViewPointMatchMatrices
               min_cols estimate matches p e prev rest A chain in
  firstn (length chain) out = chain /\
  (length out <= length chain + length rest)%nat /\
  (Forall (fun ab => enough min_cols
                       (TwoViewPointMatchMatrices matches (fst ab) (snd ab)) = true)
          (pairs_from prev rest) ->
   length out = (length chain + length rest)%nat).
Proof.
  cbv zeta. rewrite relative_matrices_loop_spec.
  set (pairs := map (fun ab => TwoViewPointMatchMatrices matches (fst ab) (snd ab))
                    (pairs_from prev rest)).
  assert (Hlen : length pairs = length rest)
    by (unfold pairs; rewrite length_map; apply pairs_from_length).
  split; [|split].
  - rewrite firstn_app, Nat.sub_diag, firstn_all. cbn [firstn]. apply app_nil_r.
  - rewrite length_app, estimate_chain_length.
    pose proof (filter_length_le (enough min_cols) pairs). lia.
  - intros Hall. rewrite length_app, estimate_chain_length, filter_all.
    + lia.
    + unfold pairs. rewrite Forall_map. exact Hall.
Qed.

(** Property X19.  Both chain builders only append: the transforms already in the vector
    stay in front, unchanged.  From [n] images they append at most [n - 1]
    transforms, and exactly [n - 1] when every adjacent pair has the number
    of correspondences the test asks for. *)
Theorem relative_matrices_length (matches : Matches) (chain : list Mat3)
    (p e : R) :
  let n := length (get_images matches) in
  let As := ComputeRelativeAffineMatrices ImageID Matches get_images
              TwoViewPointMatchMatrices AffineFromCorrespondences2PointRobust
              indeterminate matches chain p e in
  let Hs := ComputeRelativeHomographyMatrices ImageID Matches get_images
              TwoViewPointMatchMatrices HomographyFromCorrespondences4PointRobust
              indeterminate matches chain p e in
  firstn (length chain) As = chain /\
  firstn (length chain) Hs = chain /\
  (length As <= length chain + (n - 1))%nat /\
  (length Hs <= length chain + (n - 1))%nat /\
  (Forall (fun xs2 => (2 <= cols (fst xs2))%nat)
          (pair_matrices ImageID Matches get_images TwoViewPointMatchMatrices matches) ->
   length As = (length chain + (n - 1))%nat) /\
  (Forall (fun xs2 => (4 <= cols (fst xs2))%nat)
          (pair_matrices ImageID Matches get_images TwoViewPointMatchMatrices matches) ->
   length Hs = (length chain + (n - 1))%nat).
Proof.
  cbv zeta.
  unfold ComputeRelativeAffineMatrices, ComputeRelativeHomographyMatrices,
    pair_matrices, adjacent_pairs.
  destruct (get_images matches) as [|first rest]; cbn [length].
  - rewrite firstn_all. repeat split; lia.
  - replace (S (length rest) - 1)%nat with (length rest) by lia.
    destruct (relative_matrices_loop_frame 2 AffineFromCorrespondences2PointRobust
                matches p e first rest indeterminate chain) as (A1 & A2 & A3).
    destruct (relative_matrices_loop_frame 4 HomographyFromCorrespondences4PointRobust
                matches p e first rest indeterminate chain) as (B1 & B2 & B3).
    cbv zeta in *.
    split; [exact A1|]. split; [exact B1|]. split; [exact A2|]. split; [exact B2|].
    split; intros Hall; [apply A3 | apply B3];
      rewrite Forall_map in Hall; revert Hall; apply Forall_impl;
      intros ab Hab; unfold enough; apply Nat.leb_le; exact Hab.
Qed.

(** Property X20.  [main] builds the chain from an empty vector and hands it, with the image
    files, to [BuildMosaic].  When the database has at most one image more
    than there are files, the chain has at most as many transforms as there
    are files, and the assertion [image_files.size() == Hs.size() - 1] of
    [BuildMosaic] is false, for the affine and for the homography chain. *)
Theorem main_chain_fails_assert_sizes (matches : Matches) (p e : R)
    (n_image_files : nat) :
  (length (get_images matches) <= n_image_files + 1)%nat ->
  (Z.of_nat n_image_files < 2 ^ 64 - 1)%Z ->
  BuildMosaic_assert_sizes n_image_files
    (length (ComputeRelativeAffineMatrices ImageID Matches get_images
               TwoViewPointMatchMatrices AffineFromCorrespondences2PointRobust
               indeterminate matches [] p e)) = false /\
  BuildMosaic_assert_sizes n_image_files
    (length (ComputeRelativeHomographyMatrices ImageID Matches get_images
               TwoViewPointMatchMatrices HomographyFromCorrespondences4PointRobust
               indeterminate matches [] p e)) = false.
Proof.
  intros Hn Hfiles.
  assert (Hassert : forall k : nat, (k <= n_image_files)%nat ->
            BuildMosaic_assert_sizes n_image_files k = false).
  { intros k Hk. unfold BuildMosaic_assert_sizes, size_t_sub.
    apply Z.eqb_neq. destruct k as [|k].
    - change ((Z.of_nat 0 - 1) mod 2 ^ 64)%Z with (2 ^ 64 - 1)%Z. lia.
    - rewrite Z.mod_small by lia. lia. }
  unfold ComputeRelativeAffineMatrices, ComputeRelativeHomographyMatrices.
  destruct (get_images matches) as [|first rest]; cbn [length] in *.
  - split; apply Hassert; lia.
  - destruct (relative_matrices_loop_frame 2 AffineFromCorrespondences2PointRobust
                matches p e first rest indeterminate []) as (_ & A2 & _).
    destruct (relative_matrices_loop_frame 4 HomographyFromCorrespondences4PointRobust
                matches p e first rest indeterminate []) as (_ & B2 & _).
    cbv zeta in *; cbn [length] in *.
    split; apply Hassert; lia.
Qed.

End RelativeMatricesLength.

Lemma main_chain_fails_assert_sizes_witness :
  BuildMosaic_assert_sizes 3
    (length (ComputeRelativeAffineMatrices nat unit three_images
               five_matches_between keep_matrix Identity3 tt [] 0.01 1)) = false /\
  BuildMosaic_assert_sizes 3
    (length (ComputeRelativeHomographyMatrices nat unit three_images
               five_matches_between keep_matrix Identity3 tt [] 0.01 1)) = false.
Proof.
  apply (main_chain_fails_assert_sizes nat unit three_images five_matches_between
           keep_matrix keep_matrix Identity3 tt 0.01 1 3).
  - cbn [three_images length]. lia.
  - cbn. lia.
Defined.

(** ** [BuildMosaic]: the size of the mosaic, the registration, the warps *)

(** Property X21.  The size [BuildMosaic] gives the mosaic, for a box whose extents fit an
    [int]: an ordered box gets the width [xmax - xmin] and the height
    [ymax - ymin]; a box that passes the two assertions of [BuildMosaic] has
    negative extents, which the conversion to [unsigned int] turns into a
    width and a height of at least [2^31]. *)
Theorem mosaic_size (bbox : Vec4i) :
  (- 2 ^ 31 <= b1 bbox - b0 bbox < 2 ^ 31)%Z ->
  (- 2 ^ 31 <= b3 bbox - b2 bbox < 2 ^ 31)%Z ->
  ((b0 bbox <= b1 bbox)%Z -> mosaic_width bbox = (b1 bbox - b0 bbox)%Z) /\
  ((b2 bbox <= b3 bbox)%Z -> mosaic_height bbox = (b3 bbox - b2 bbox)%Z) /\
  (BuildMosaic_asserts bbox = true ->
   (2 ^ 31 <= mosaic_width bbox)%Z /\ (2 ^ 31 <= mosaic_height bbox)%Z).
Proof.
  intros Hx Hy. unfold mosaic_width, mosaic_height, unsigned_of_int, BuildMosaic_asserts.
  split; [|split].
  - intros Ho. apply Z.mod_small. lia.
  - intros Ho. apply Z.mod_small. lia.
  - intros Ha. apply andb_prop in Ha. destruct Ha as [Ax Ay].
    apply Z.ltb_lt in Ax. apply Z.ltb_lt in Ay.
    rewrite <- (Z.mod_add (b1 bbox - b0 bbox) 1 (2 ^ 32)) by lia.
    rewrite <- (Z.mod_add (b3 bbox - b2 bbox) 1 (2 ^ 32)) by lia.
    rewrite !Z.mod_small by lia. lia.
Qed.

Lemma mosaic_size_witness :
  (2 ^ 31 <= mosaic_width (mkVec4i 8 0 8 0))%Z /\
  (2 ^ 31 <= mosaic_height (mkVec4i 8 0 8 0))%Z.
Proof.
  apply (mosaic_size (mkVec4i 8 0 8 0)); cbn [b0 b1 b2 b3]; [lia | lia |].
  reflexivity.
Defined.



Lemma skipn_cons_nth {A : Type} (d : A) (l : list A) :
  forall k : nat, (k < length l)%nat -> skipn k l = nth k l d :: skipn (S k) l.
Proof.
  induction l as [|x l IH]; intros k Hk; cbn [length] in Hk; [lia|].
  destruct k as [|k]; [reflexivity|].
  cbn [skipn nth]. apply IH. lia.
Qed.

Lemma BuildMosaic_warps_from_spec (Hr : Mat3) (Hs : list Mat3) (r : nat) :
  forall (H : Mat3) (i : nat),
  (1 <= i)%nat -> (i - 1 + r <= length Hs)%nat ->
  BuildMosaic_warps_from Hr Hs H i r
  = map (mmul Hr) (firstn r (absolute_transforms_from H (skipn (i - 1) Hs))).
Proof.
  induction r as [|r IH]; intros H i Hi Hlen; cbn [BuildMosaic_warps_from firstn map].
  - reflexivity.
  - destruct (Nat.ltb_spec 0 i) as [_|]; [|lia].
    rewrite (skipn_cons_nth Identity3 Hs (i - 1)) by lia.
    cbn [absolute_transforms_from firstn map]. f_equal.
    rewrite IH by lia.
    replace (S i - 1)%nat with (S (i - 1)) by lia. reflexivity.
Qed.

(** Property X23.  For [n] image files and a chain with at least [n - 1] transforms,
    [BuildMosaic] warps image 0 by [Hreg] alone and image [k >= 1] by [Hreg]
    times the [k]-th absolute transform [Hs[k-1] * ... * Hs[0]] - the
    transforms whose corners [ComputeGlobalBoundingBox] puts in the box.
    The identity it uses for image 0 is not among those. *)
Theorem BuildMosaic_warps_absolute (Hr : Mat3) (n : nat) (Hs : list Mat3) :
  (n <= length Hs + 1)%nat ->
  BuildMosaic_warps Hr n Hs
  = map (mmul Hr) (firstn n (Identity3 :: absolute_transforms Hs)).
Proof.
  intros Hn. unfold BuildMosaic_warps, absolute_transforms.
  destruct n as [|n]; [reflexivity|].
  cbn [BuildMosaic_warps_from Nat.ltb Nat.leb firstn map]. f_equal.
  rewrite BuildMosaic_warps_from_spec by (cbn; lia). reflexivity.
Qed.

Lemma BuildMosaic_warps_absolute_witness :
  BuildMosaic_warps (Hreg (mkVec4i 0 8 0 8)) 2 [translation 1 2; H_fold]
  = map (mmul (Hreg (mkVec4i 0 8 0 8)))
        (firstn 2 (Identity3 :: absolute_transforms [translation 1 2; H_fold])).
Proof.
  apply (BuildMosaic_warps_absolute (Hreg (mkVec4i 0 8 0 8)) 2
           [translation 1 2; H_fold]).
  cbn [length]. lia.
Defined.

(** ** The rank of the matrix [To] builds *)

(** Property X24.  Whatever the two quaternions are converted to and whatever the nine
    parameters are, the matrix built by [To] is singular: the parameterization
    cannot leave the matrices of rank at most 2. *)
Theorem To_singular (toRotationMatrix : Quaternion -> Mat3) (p : Parameters) :
  det3 (To toRotationMatrix p) = 0.
Proof.
  unfold To; cbv zeta. rewrite !det3_mmul.
  replace (det3 (mkMat3 1 0 0 0 (1 / (1 + pr4 p * pr4 p)) 0 0 0 0)) with 0
    by (unfold det3; cbn; ring).
  ring.
Qed.

(** ** The convolution shader *)

Lemma shader_fold_None (u : Uniforms) (texcoord : Vec2) (l : list nat) :
  fold_left (shader_step u texcoord) l None = None.
Proof.
  induction l as [|i l IH]; [reflexivity|]. cbn [fold_left shader_step]. exact IH.
Qed.

Lemma shader_fold_in_bounds (u : Uniforms) (texcoord : Vec2) (n : nat) :
  (n <= length (weights u))%nat -> (n <= length (offsets u))%nat ->
  fold_left (shader_step u texcoord) (seq 0 n) (Some vec4_zero)
  = Some (taps u texcoord n).
Proof.
  induction n as [|n IH]; intros Hw Ho; [reflexivity|].
  unfold taps. rewrite seq_S, !fold_left_app. cbn [Nat.add fold_left].
  rewrite IH by lia. unfold shader_step.
  destruct (nth_error (weights u) n) as [w|] eqn:Ew;
    [|apply nth_error_None in Ew; lia].
  destruct (nth_error (offsets u) n) as [o|] eqn:Eo;
    [|apply nth_error_None in Eo; lia].
  rewrite (nth_error_nth _ _ _ Ew), (nth_error_nth _ _ _ Eo). reflexivity.
Qed.

Lemma shader_fold_out_of_bounds (u : Uniforms) (texcoord : Vec2) (n : nat) :
  (length (weights u) < n)%nat ->
  fold_left (shader_step u texcoord) (seq 0 n) (Some vec4_zero) = None.
Proof.
  intros Hn.
  replace n with (length (weights u) + S (n - S (length (weights u))))%nat by lia.
  rewrite seq_app, fold_left_app. cbn [Nat.add seq fold_left].
  destruct (fold_left (shader_step u texcoord) (seq 0 (length (weights u)))
              (Some vec4_zero)) as [s|]; cbn [shader_step].
  - replace (nth_error (weights u) (length (weights u))) with (@None Vec4)
      by (symmetry; apply nth_error_None; lia).
    apply shader_fold_None.
  - apply shader_fold_None.
Qed.

(** Property X25.  Nothing bounds [kernel_size] by [max_kernel_size]: the shader yields a
    colour exactly when [kernel_size <= 25], and reads past the end of
    [weights] and [offsets] otherwise.  For [kernel_size <= 0] the loop body
    never runs and the colour is [vec4(0.0)]. *)
Theorem shader_main_defined (u : Uniforms) (texcoord : Vec2) :
  Uniforms_wf u ->
  (shader_main u texcoord <> None <-> (kernel_size u <= 25)%Z) /\
  ((kernel_size u <= 0)%Z -> shader_main u texcoord = Some vec4_zero).
Proof.
  intros [Ho Hw]. unfold max_kernel_size in *. unfold shader_main. split; [split|].
  - intros Hsome.
    destruct (Z_le_gt_dec (kernel_size u) 25) as [Hle|Hgt]; [exact Hle|].
    exfalso; apply Hsome. apply shader_fold_out_of_bounds. lia.
  - intros Hle. rewrite shader_fold_in_bounds by lia. discriminate.
  - intros Hle. destruct (kernel_size u); try lia; reflexivity.
Qed.

Lemma box3_wf : Uniforms_wf box3.
Proof. split; reflexivity. Qed.

Lemma shader_main_defined_witness :
  (shader_main box3 (mkVec2 0 0) <> None <-> (kernel_size box3 <= 25)%Z) /\
  ((kernel_size box3 <= 0)%Z -> shader_main box3 (mkVec2 0 0) = Some vec4_zero).
Proof.
  apply (shader_main_defined box3 (mkVec2 0 0) box3_wf).
Defined.

Lemma weights_sum_S (ws : list Vec4) (n : nat) :
  (n < length ws)%nat ->
  weights_sum ws (S n) = vec4_add (weights_sum ws n) (nth n ws vec4_zero).
Proof.
  intros Hn. unfold weights_sum.
  assert (E : firstn (S n) ws = firstn n ws ++ [nth n ws vec4_zero]).
  { revert n Hn. induction ws as [|w ws IH]; intros n Hn; cbn [length] in Hn; [lia|].
    destruct n as [|n]; [reflexivity|].
    cbn [firstn nth app]. f_equal. apply IH. lia. }
  rewrite E, fold_left_app. reflexivity.
Qed.

Lemma vec4_mul_add_distr_r (a b c : Vec4) :
  vec4_mul (vec4_add a b) c = vec4_add (vec4_mul a c) (vec4_mul b c).
Proof. unfold vec4_mul, vec4_add; cbn; f_equal; ring. Qed.

Lemma taps_flat (u : Uniforms) (texcoord : Vec2) (c : Vec4) (n : nat) :
  (forall x : Vec2, source u x = c) ->
  (n <= length (weights u))%nat ->
  taps u texcoord n = vec4_mul (weights_sum (weights u) n) c.
Proof.
  intros Hc. induction n as [|n IH]; intros Hn.
  - unfold taps, weights_sum, vec4_mul, vec4_zero; cbn; f_equal; ring.
  - rewrite weights_sum_S by lia. rewrite vec4_mul_add_distr_r, <- IH by lia.
    unfold taps. rewrite seq_S, fold_left_app. cbn [Nat.add fold_left].
    rewrite Hc. reflexivity.
Qed.

(** Property X26.  On a texture of one colour [c] the shader returns [c] multiplied,
    component by component, by the sum of the first [kernel_size] weights:
    a kernel whose weights sum to 1 leaves a flat image as it is. *)
Theorem shader_main_flat (u : Uniforms) (texcoord : Vec2) (c : Vec4) :
  Uniforms_wf u ->
  (kernel_size u <= 25)%Z ->
  (forall x : Vec2, source u x = c) ->
  shader_main u texcoord
  = Some (vec4_mul (weights_sum (weights u) (Z.to_nat (kernel_size u))) c).
Proof.
  intros [Ho Hw] Hk Hc. unfold max_kernel_size in *. unfold shader_main.
  rewrite shader_fold_in_bounds by lia. f_equal. apply taps_flat; [exact Hc | lia].
Qed.

Lemma shader_main_flat_witness :
  shader_main box3 (mkVec2 0 0)
  = Some (vec4_mul (weights_sum (weights box3) (Z.to_nat (kernel_size box3)))
                   (mkVec4 1 1 1 1)).
Proof.
  apply (shader_main_flat box3 (mkVec2 0 0) (mkVec4 1 1 1 1) box3_wf).
  - cbn [box3 kernel_size]. lia.
  - intros x. reflexivity.
Defined.

Lemma shader_step_shift (u : Uniforms) (d texcoord : Vec2) (l : list nat) :
  forall acc : option Vec4,
  fold_left (shader_step
               (mkUniforms (fun x => source u (vec2_add x d)) (offsets u)
                           (weights u) (kernel_size u)) texcoord) l acc
  = fold_left (shader_step u (vec2_add texcoord d)) l acc.
Proof.
  induction l as [|i l IH]; intros acc; [reflexivity|].
  cbn [fold_left]. rewrite IH. f_equal.
  unfold shader_step; cbn [source offsets weights].
  destruct acc as [s|]; [|reflexivity].
  destruct (nth_error (weights u) i) as [w|]; [|reflexivity].
  destruct (nth_error (offsets u) i) as [o|]; [|reflexivity].
  do 3 f_equal. unfold vec2_add; cbn [v2x v2y]. f_equal.
  f_equal; ring.
Qed.

(** Property X27.  The shader is a convolution: sampling a texture shifted by [d] gives, at
    every coordinate, what the unshifted texture gives at the coordinate
    shifted by [d] - also when the result is undefined. *)
Theorem shader_main_shift (u : Uniforms) (d texcoord : Vec2) :
  shader_main (mkUniforms (fun x => source u (vec2_add x d)) (offsets u)
                          (weights u) (kernel_size u)) texcoord
  = shader_main u (vec2_add texcoord d).
Proof.
  unfold shader_main; cbn [kernel_size]. apply shader_step_shift.
Qed.
